(** * ColorWallpaper: a shallow embedding of [ColorWallpaper.py]

    The definitions follow the layout of the Python module:
    - [Py]        the fragment of Python's run-time the module relies on
                  (exceptions, binary64 floats, [int], [round], [min]/[max],
                  [str] methods, [re.fullmatch]);
    - [Colorsys]  [colorsys.rgb_to_hsv] and [colorsys.rgb_to_hls];
    - [Color]     the colour model ([hsv], [hsl], [cmyk]);
    - [Options]   [get_options]: [parse_hex], [color], [inverted_color];
    - [PIL]       the fragment of Pillow's [Image] used by the renderer;
    - [Wallpaper] the text rasterizer, the badge layout and the canvas
                  arithmetic;
    - [Sample]    a small glyph table and dictionaries to run the code on;
    - [Bytes]     decision procedures for the colour model on 8-bit
                  components;
    - [Ranges]    decision procedures for the ranges of [hsv] and [cmyk]
                  and for the size of the badge;
    - [Pixels]    the pixels of an image and the cells of a line of text;
    - [Regex]     what a pattern matches, as a relation;
    - [Unspaced]  a glyph table with a glyph that has no blank column;
    - [Digits]    decimal numerals.
    The properties come after the definitions: [ColorFacts], [RasterFacts],
    [LayoutFacts], [OptionsFacts], and [Examples] where the theorems are
    applied to the sample data; then the matcher and the parsers of
    [get_options] ([RegexFacts], [ParserFacts], [MatcherFacts], [HexFacts],
    [StrFacts], [ResolutionFacts], [NameFacts]), the pixels of a text
    ([PixelFacts], [OverflowFacts]), the ranges of the colour model
    ([FloatFacts], [RangeFacts]), the badge and the picture ([BadgeFacts],
    [DecorationFacts]), and [Applications] on the sample data.

    Python floats are IEEE-754 binary64 values; they are modelled by Rocq's
    primitive floats, which are the same numbers with the same rounding.
    A [str] is modelled by [string]; the text handled here (colour names,
    digits, separators) is ASCII.

    [data.py] (the glyph table [font] and the dictionaries [color_to_hex],
    [hex_to_color], [pretty_names]) is not part of the sources at hand: the
    definitions that use them take them as section variables. *)

From Stdlib Require Import ZArith List Bool Lia.
From Stdlib Require Import Strings.String Strings.Ascii.
From Stdlib Require Import DecimalString HexadecimalString.
From Stdlib Require Import Floats.PrimFloat Floats.SpecFloat Floats.FloatOps.
From Stdlib Require Floats.FloatAxioms.
From Stdlib Require DecimalPos.
From Stdlib Require Import Numbers.Cyclic.Int63.Uint63.
From stdpp Require Import base option list gmap strings.

Local Open Scope Z_scope.

(* ===================================================================== *)
(** ** Python run-time *)
(* ===================================================================== *)

Module Py.

(** The exceptions the module can meet. *)
Inductive exn : Set :=
| ValueError
| IndexError
| KeyError
| TypeError
| ZeroDivisionError
| OverflowError
| ArgumentTypeError.

(** A computation either returns or raises. *)
Inductive result (A : Type) : Type :=
| Ok (a : A)
| Raise (e : exn).
Arguments Ok {A} a.
Arguments Raise {A} e.

Definition bind {A B} (m : result A) (k : A -> result B) : result B :=
  match m with
  | Ok a => k a
  | Raise e => Raise e
  end.

Definition returns {A} (m : result A) : Prop := exists a, m = Ok a.

Declare Scope py_scope.
Delimit Scope py_scope with py.
Notation "'do' p <- m ;; k" := (bind m (fun v_ => let 'p := v_ in k))
  (at level 10, p pattern, m at level 99, k at level 200) : py_scope.
Local Open Scope py_scope.

(** *** Floats *)

(** [float(n)] for an [int] of magnitude below [2^53], where the conversion
    is exact; every integer this module converts is of that kind. *)
Definition float_of_int (n : Z) : float :=
  if n <? 0 then PrimFloat.opp (PrimFloat.of_uint63 (Uint63.of_Z (- n)))
  else PrimFloat.of_uint63 (Uint63.of_Z n).

(** [x / y] on floats raises on a zero divisor. *)
Definition float_div (x y : float) : result float :=
  if PrimFloat.eqb y 0%float then Raise ZeroDivisionError
  else Ok (PrimFloat.div x y).

(** [a / b] on ints: true division. For operands below [2^53] the correctly
    rounded quotient is the quotient of the two conversions. *)
Definition int_truediv (a b : Z) : result float :=
  if b =? 0 then Raise ZeroDivisionError
  else Ok (PrimFloat.div (float_of_int a) (float_of_int b)).

(** Magnitude of a finite float [m * 2^e], truncated toward zero. *)
Definition trunc_mag (m : positive) (e : Z) : Z :=
  if 0 <=? e then Z.shiftl (Z.pos m) e else Z.shiftr (Z.pos m) (- e).

(** Magnitude of a finite float [m * 2^e], rounded to nearest, ties to
    even. *)
Definition round_mag (m : positive) (e : Z) : Z :=
  if 0 <=? e then Z.shiftl (Z.pos m) e
  else
    let q := Z.shiftr (Z.pos m) (- e) in
    let r := Z.pos m - Z.shiftl q (- e) in
    let half := Z.shiftl 1 (- e - 1) in
    if (half <? r) || ((r =? half) && Z.odd q) then q + 1 else q.

Definition signed (s : bool) (z : Z) : Z := if s then - z else z.

(** A float that is neither an infinity nor NaN. *)
Definition is_finite (x : float) : bool :=
  match PrimFloat.classify x with
  | FloatClass.NaN | FloatClass.PInf | FloatClass.NInf => false
  | _ => true
  end.

(** The integer part of a finite float. *)
Definition trunc (x : float) : Z :=
  match Prim2SF x with
  | S754_finite s m e => signed s (trunc_mag m e)
  | _ => 0
  end.

(** The nearest integer of a finite float, ties to even. *)
Definition nearest (x : float) : Z :=
  match Prim2SF x with
  | S754_finite s m e => signed s (round_mag m e)
  | _ => 0
  end.

(** What [int(x)] and [round(x)] raise on a float that is not finite. *)
Definition not_finite_error (x : float) : exn :=
  match PrimFloat.classify x with
  | FloatClass.NaN => ValueError
  | _ => OverflowError
  end.

(** [int(x)] on a float: truncation; infinities and NaN raise. *)
Definition int_of_float (x : float) : result Z :=
  if is_finite x then Ok (trunc x) else Raise (not_finite_error x).

(** [round(x)] on a float, without [ndigits]: an [int], ties to even. *)
Definition round (x : float) : result Z :=
  if is_finite x then Ok (nearest x) else Raise (not_finite_error x).

(** C's [fmod(x, 1.0)]: the fractional part, exact, with the sign of [x];
    a float below one in magnitude is its own fractional part. *)
Definition fmod1 (x : float) : float :=
  if PrimFloat.ltb (PrimFloat.abs x) 1%float then x
  else
    match Prim2SF x with
    | S754_nan | S754_infinity _ => PrimFloat.nan
    | S754_zero _ => x
    | S754_finite s m e =>
        if 0 <=? e then (if s then PrimFloat.neg_zero else PrimFloat.zero)
        else PrimFloat.sub x (float_of_int (signed s (trunc_mag m e)))
    end.

(** [x % 1.0]: [float_rem] of CPython with the divisor [1.0]. *)
Definition mod1 (x : float) : float :=
  let m := fmod1 x in
  if PrimFloat.eqb m 0%float then 0%float
  else if PrimFloat.ltb m 0%float then PrimFloat.add m 1%float
  else m.

(** [max(a, b, c)] and [min(a, b, c)]: the first extremal argument is kept,
    a later one replaces it only when strictly greater (smaller). *)
Definition max2 (cur x : float) : float :=
  if PrimFloat.ltb cur x then x else cur.
Definition min2 (cur x : float) : float :=
  if PrimFloat.ltb x cur then x else cur.
Definition max3 (a b c : float) : float := max2 (max2 a b) c.
Definition min3 (a b c : float) : float := min2 (min2 a b) c.
Definition min4 (a b c d : float) : float := min2 (min2 (min2 a b) c) d.

(** *** Strings *)

Definition ord (c : ascii) : Z := Z.of_N (N_of_ascii c).
Definition chr (n : Z) : ascii := ascii_of_N (Z.to_N n).

(** ASCII white space, as [str.split], [str.strip] and [\s] see it. *)
Definition is_space (c : ascii) : bool :=
  let n := ord c in
  ((9 <=? n) && (n <=? 13)) || ((28 <=? n) && (n <=? 32)).

(** [\d] *)
Definition is_digit (c : ascii) : bool :=
  let n := ord c in (48 <=? n) && (n <=? 57).

(** [[\da-f]] under [re.I] *)
Definition is_hex_digit (c : ascii) : bool :=
  let n := ord c in
  is_digit c || ((97 <=? n) && (n <=? 102)) || ((65 <=? n) && (n <=? 70)).

Definition lower_char (c : ascii) : ascii :=
  let n := ord c in if (65 <=? n) && (n <=? 90) then chr (n + 32) else c.
Definition upper_char (c : ascii) : ascii :=
  let n := ord c in if (97 <=? n) && (n <=? 122) then chr (n - 32) else c.

Fixpoint map_string (f : ascii -> ascii) (s : string) : string :=
  match s with
  | EmptyString => EmptyString
  | String c s' => String (f c) (map_string f s')
  end.

(** [s.lower()], [s.upper()], [s.capitalize()] *)
Definition lower : string -> string := map_string lower_char.
Definition upper : string -> string := map_string upper_char.
Definition capitalize (s : string) : string :=
  match s with
  | EmptyString => EmptyString
  | String c s' => String (upper_char c) (lower s')
  end.

(** [''.join(s.split())]: the string without its white space. *)
Fixpoint join_split (s : string) : string :=
  match s with
  | EmptyString => EmptyString
  | String c s' => if is_space c then join_split s' else String c (join_split s')
  end.

(** [sep.join(l)] *)
Fixpoint join (sep : string) (l : list string) : string :=
  match l with
  | [] => EmptyString
  | [s] => s
  | s :: l' => s +:+ sep +:+ join sep l'
  end.

(** The two sides of the last space of [s], if it has one. *)
Fixpoint split_last_space (s : string) : option (string * string) :=
  match s with
  | EmptyString => None
  | String c s' =>
      match split_last_space s' with
      | Some (a, b) => Some (String c a, b)
      | None => if Ascii.eqb c " " then Some (EmptyString, s') else None
      end
  end.

(** No space in [s]. *)
Fixpoint no_space (s : string) : bool :=
  match s with
  | EmptyString => true
  | String c s' => negb (Ascii.eqb c " ") && no_space s'
  end.

(** [s.rsplit(' ', 1)] *)
Definition rsplit1 (s : string) : list string :=
  match split_last_space s with
  | Some (a, b) => [a; b]
  | None => [s]
  end.

(** [a, b = l] *)
Definition unpack2 {A} (l : list A) : result (A * A) :=
  match l with
  | [a; b] => Ok (a, b)
  | _ => Raise ValueError
  end.

(** [s[i:j]] for [0 <= i <= j] *)
Definition slice (s : string) (i j : Z) : string :=
  String.substring (Z.to_nat i) (Z.to_nat (j - i)) s.

(** [str(n)] *)
Definition str (n : Z) : string :=
  DecimalString.NilZero.string_of_int (Z.to_int n).

(** [format(n, '02x')] and [format(n, '02X')]: sign, hexadecimal digits,
    zeros between them up to two characters. *)
Definition format_02x (lowercase : bool) (n : Z) : string :=
  let digits :=
    HexadecimalString.NilZero.string_of_uint (N.to_hex_uint (Z.to_N (Z.abs n))) in
  let digits := if lowercase then digits else upper digits in
  if n <? 0 then "-" +:+ digits
  else if (String.length digits <? 2)%nat then "0" +:+ digits
  else digits.

(** *** [int(s)] and [int(s, 16)] on a [str] *)

Definition digit_value (c : ascii) : option Z :=
  let n := ord c in
  if is_digit c then Some (n - 48)
  else if (97 <=? n) && (n <=? 122) then Some (n - 87)
  else if (65 <=? n) && (n <=? 90) then Some (n - 55)
  else None.

Fixpoint strip_left (l : list ascii) : list ascii :=
  match l with
  | c :: l' => if is_space c then strip_left l' else l
  | [] => []
  end.

Definition strip (l : list ascii) : list ascii :=
  rev (strip_left (rev (strip_left l))).

(** Digits in base [base], single underscores between them; [after_digit]
    tells whether the previous character was a digit. *)
Fixpoint parse_digits (base acc : Z) (after_digit : bool) (l : list ascii)
  : result Z :=
  match l with
  | [] => if after_digit then Ok acc else Raise ValueError
  | c :: l' =>
      if Ascii.eqb c "_" then
        if after_digit then parse_digits base acc false l'
        else Raise ValueError
      else
        match digit_value c with
        | Some d =>
            if d <? base then parse_digits base (acc * base + d) true l'
            else Raise ValueError
        | None => Raise ValueError
        end
  end.

Definition skip_sign (l : list ascii) : bool * list ascii :=
  match l with
  | c :: l' =>
      if Ascii.eqb c "-" then (true, l')
      else if Ascii.eqb c "+" then (false, l')
      else (false, l)
  | [] => (false, [])
  end.

(** The [0x] prefix that base 16 admits, and one underscore after it. *)
Definition skip_prefix (base : Z) (l : list ascii) : list ascii :=
  match l with
  | z :: x :: l' =>
      if (base =? 16) && Ascii.eqb z "0" && Ascii.eqb (lower_char x) "x" then
        match l' with
        | u :: l'' => if Ascii.eqb u "_" then l'' else l'
        | [] => l'
        end
      else l
  | _ => l
  end.

Definition int_of_str (base : Z) (s : string) : result Z :=
  let '(neg, l) := skip_sign (strip (list_ascii_of_string s)) in
  do n <- parse_digits base 0 false (skip_prefix base l) ;;
  Ok (signed neg n).

(** [int(x)] where [x] is a [str] or [None]. *)
Definition int_of_obj (base : Z) (x : option string) : result Z :=
  match x with
  | Some s => int_of_str base s
  | None => Raise TypeError
  end.

(** *** Regular expressions *)

(** The constructs the module's patterns use; [Grp n] is the [n]-th
    capturing group. *)
Inductive regex : Type :=
| Eps
| Cls (p : ascii -> bool)
| Cat (a b : regex)
| Alt (a b : regex)
| Star (a : regex)
| Grp (n : nat) (a : regex).

Definition Opt (a : regex) : regex := Alt a Eps.
Definition Plus (a : regex) : regex := Cat a (Star a).
Definition Lit (c : ascii) : regex := Cls (Ascii.eqb c).
Fixpoint Rep (n : nat) (a : regex) : regex :=
  match n with
  | O => Eps
  | S n' => Cat a (Rep n' a)
  end.

Definition captures : Type := list (nat * list ascii).

(** A backtracking matcher in continuation style: greedy repetition, left
    alternative first, as [re] does. [k] matches what follows [r]. *)
Fixpoint rmatch (r : regex) (s : list ascii) (cs : captures)
    (k : list ascii -> captures -> option captures) {struct r}
  : option captures :=
  match r with
  | Eps => k s cs
  | Cls p =>
      match s with
      | c :: s' => if p c then k s' cs else None
      | [] => None
      end
  | Cat a b => rmatch a s cs (fun s' cs' => rmatch b s' cs' k)
  | Alt a b =>
      match rmatch a s cs k with
      | Some m => Some m
      | None => rmatch b s cs k
      end
  | Star a =>
      (fix iter (fuel : nat) (s : list ascii) (cs : captures) {struct fuel}
         : option captures :=
         match fuel with
         | O => k s cs
         | S fuel' =>
             match rmatch a s cs
                     (fun s' cs' =>
                        if (List.length s' <? List.length s)%nat
                        then iter fuel' s' cs' else None)
             with
             | Some m => Some m
             | None => k s cs
             end
         end) (S (List.length s)) s cs
  | Grp n a =>
      rmatch a s cs
        (fun s' cs' =>
           k s' ((n, firstn (List.length s - List.length s') s) :: cs'))
  end.

(** A match object: the matched text and the groups that took part. *)
Record match_object : Type := Match {
  matched : string;
  groups : captures
}.

(** [pattern.fullmatch(s)] *)
Definition fullmatch (r : regex) (s : string) : option match_object :=
  match rmatch r (list_ascii_of_string s) []
          (fun rest cs => match rest with [] => Some cs | _ => None end)
  with
  | Some cs => Some (Match s cs)
  | None => None
  end.

Fixpoint assoc (n : nat) (cs : captures) : option (list ascii) :=
  match cs with
  | [] => None
  | (i, v) :: cs' => if (i =? n)%nat then Some v else assoc n cs'
  end.

(** [m.group(n)]: group 0 is the whole match; a group that took no part
    is [None]. *)
Definition group (m : match_object) (n : nat) : option string :=
  match n with
  | O => Some (matched m)
  | _ => option_map string_of_list_ascii (assoc n (groups m))
  end.

End Py.

Import Py.
Local Open Scope py_scope.

(* ===================================================================== *)
(** ** colorsys *)
(* ===================================================================== *)

Module Colorsys.

(** The hue computation that ends both [rgb_to_hsv] and [rgb_to_hls]. *)
Definition hue (r g b maxc rangec : float) : result float :=
  do rc <- float_div (PrimFloat.sub maxc r) rangec ;;
  do gc <- float_div (PrimFloat.sub maxc g) rangec ;;
  do bc <- float_div (PrimFloat.sub maxc b) rangec ;;
  let h :=
    if PrimFloat.eqb r maxc then PrimFloat.sub bc gc
    else if PrimFloat.eqb g maxc
         then PrimFloat.sub (PrimFloat.add 2%float rc) bc
         else PrimFloat.sub (PrimFloat.add 4%float gc) rc in
  do h6 <- float_div h 6%float ;;
  Ok (mod1 h6).

Definition rgb_to_hsv (r g b : float) : result (float * float * float) :=
  let maxc := max3 r g b in
  let minc := min3 r g b in
  let rangec := PrimFloat.sub maxc minc in
  let v := maxc in
  if PrimFloat.eqb minc maxc then Ok (0%float, 0%float, v)
  else
    do s <- float_div rangec maxc ;;
    do h <- hue r g b maxc rangec ;;
    Ok (h, s, v).

(** [colorsys.rgb_to_hls]: above half lightness the saturation is
    [rangec / (2.0-sumc)]. *)
Definition rgb_to_hls (r g b : float) : result (float * float * float) :=
  let maxc := max3 r g b in
  let minc := min3 r g b in
  let sumc := PrimFloat.add maxc minc in
  let rangec := PrimFloat.sub maxc minc in
  do l <- float_div sumc 2%float ;;
  if PrimFloat.eqb minc maxc then Ok (0%float, l, 0%float)
  else
    do s <- (if PrimFloat.leb l 0.5%float
          then float_div rangec sumc
          else float_div rangec (PrimFloat.sub 2%float sumc)) ;;
    do h <- hue r g b maxc rangec ;;
    Ok (h, l, s).

End Colorsys.

(* ===================================================================== *)
(** ** class Color *)
(* ===================================================================== *)

Module Color.

(** [Color.name] is whatever object the constructor received: a [str], or
    [None] when [inverted_color] finds no name. *)
Record t : Type := Make {
  rgb : Z * Z * Z;
  name : option string
}.

(** [(comp/255 for comp in self.rgb)] *)
Definition unit_rgb (c : Z * Z * Z) : result (float * float * float) :=
  let '(r, g, b) := c in
  do r' <- int_truediv r 255 ;;
  do g' <- int_truediv g 255 ;;
  do b' <- int_truediv b 255 ;;
  Ok (r', g', b').

(** [int(x*n)] *)
Definition scaled (x : float) (n : Z) : result Z :=
  int_of_float (PrimFloat.mul x (float_of_int n)).

Definition hsv (c : Z * Z * Z) : result (Z * Z * Z) :=
  do (r, g, b) <- unit_rgb c ;;
  do (h, s, v) <- Colorsys.rgb_to_hsv r g b ;;
  do h' <- scaled h 360 ;;
  do s' <- scaled s 100 ;;
  do v' <- scaled v 100 ;;
  Ok (h', s', v').

Definition hsl (c : Z * Z * Z) : result (Z * Z * Z) :=
  do (r, g, b) <- unit_rgb c ;;
  do (h, l, s) <- Colorsys.rgb_to_hls r g b ;;
  do h' <- scaled h 360 ;;
  do s' <- scaled s 100 ;;
  do l' <- scaled l 100 ;;
  Ok (h', s', l').

(** [1 - comp/255] *)
Definition complement (comp : Z) : result float :=
  do q <- int_truediv comp 255 ;;
  Ok (PrimFloat.sub 1%float q).

(** The key [k = min(c, m, y, 1)] of [cmyk]. *)
Definition cmyk_key (c : Z * Z * Z) : result float :=
  let '(r, g, b) := c in
  do c <- complement r ;;
  do m <- complement g ;;
  do y <- complement b ;;
  Ok (min4 c m y 1%float).

Definition cmyk (c : Z * Z * Z) : result (Z * Z * Z * Z) :=
  let '(r, g, b) := c in
  do c <- complement r ;;
  do m <- complement g ;;
  do y <- complement b ;;
  let k := min4 c m y 1%float in
  if PrimFloat.eqb k 1%float then Ok (0, 0, 0, 100)
  else
    do c <- float_div (PrimFloat.sub c k) (PrimFloat.sub 1%float k) ;;
    do m <- float_div (PrimFloat.sub m k) (PrimFloat.sub 1%float k) ;;
    do y <- float_div (PrimFloat.sub y k) (PrimFloat.sub 1%float k) ;;
    do c' <- scaled c 100 ;;
    do m' <- scaled m 100 ;;
    do y' <- scaled y 100 ;;
    do k' <- scaled k 100 ;;
    Ok (c', m', y', k').

End Color.


(* ===================================================================== *)
(** ** get_options: the colour arguments *)
(* ===================================================================== *)

Module Options.

(** [hex_re = \s*#?([\da-f]{6}|[\da-f]{3})\s*], case-insensitive *)
Definition hex_re : regex :=
  Cat (Star (Cls is_space))
    (Cat (Opt (Lit "#"))
       (Cat (Grp 1 (Alt (Rep 6 (Cls is_hex_digit)) (Rep 3 (Cls is_hex_digit))))
          (Star (Cls is_space)))).

(** [rgb_re = \s*(\d+)\s*,\s*(\d+)\s*,\s*(\d+)\s*\s*] *)
Definition rgb_re : regex :=
  let ws := Star (Cls is_space) in
  let num n := Grp n (Plus (Cls is_digit)) in
  Cat ws (Cat (num 1%nat) (Cat ws (Cat (Lit ",")
    (Cat ws (Cat (num 2%nat) (Cat ws (Cat (Lit ",")
      (Cat ws (Cat (num 3%nat) (Cat ws ws)))))))))).

Definition normalized (s : string) : string := lower (join_split s).

(** [tuple(map(int, t))] for three arguments *)
Definition int_tuple (a b c : option string) : result (Z * Z * Z) :=
  do x <- int_of_obj 10 a ;;
  do y <- int_of_obj 10 b ;;
  do z <- int_of_obj 10 c ;;
  Ok (x, y, z).

(** [tuple(int(arg[le//3*i:le//3*(i+1)], 16) for i in range(3))] *)
Definition parse_hex (arg : option string) : result (Z * Z * Z) :=
  match arg with
  | None => Raise TypeError
  | Some arg =>
      let le := Z.of_nat (String.length arg) in
      let part i := int_of_str 16 (slice arg (le / 3 * i) (le / 3 * (i + 1))) in
      do r <- part 0 ;;
      do g <- part 1 ;;
      do b <- part 2 ;;
      Ok (r, g, b)
  end.

Definition all_bytes (rgb : Z * Z * Z) : bool :=
  let '(r, g, b) := rgb in
  ((0 <=? r) && (r <=? 255)) && ((0 <=? g) && (g <=? 255))
  && ((0 <=? b) && (b <=? 255)).

Section Tables.
(** The dictionaries of [data.py]. *)
Variables color_to_hex hex_to_color pretty_names : gmap string string.

Definition color (arg : string) : result Color.t :=
  let hex_groups := fullmatch hex_re arg in
  let rgb_groups := fullmatch rgb_re arg in
  do (rgb, name) <-
    match hex_groups, rgb_groups with
    | Some m, _ =>
        do rgb <- parse_hex (group m 1) ;;
        Ok (rgb, None)
    | None, Some m =>
        do rgb <- int_tuple (group m 0) (group m 1) (group m 2) ;;
        if all_bytes rgb then Ok (rgb, None)
        else Raise ArgumentTypeError
    | None, None =>
        let name := normalized arg in
        match color_to_hex !! name with
        | None => Raise ArgumentTypeError
        | Some hex =>
            do rgb <- parse_hex (Some hex) ;;
            Ok (rgb, Some name)
        end
    end ;;
  let name := match name with None => "anonymous" | Some n => n end in
  Ok (Color.Make rgb (Some (default (capitalize name) (pretty_names !! name)))).

Definition inverted_color (source : Z * Z * Z) : Color.t :=
  let '(r, g, b) := source in
  let rgb := (255 - r, 255 - g, 255 - b) in
  Color.Make rgb
    (hex_to_color !!
       (format_02x true (255 - r) +:+ format_02x true (255 - g)
        +:+ format_02x true (255 - b))).

(** The end of [get_options]: the highlight colour defaults to the
    inverse of the background. *)
Definition highlight (color : Color.t) (color2 : option Color.t) : Color.t :=
  match color2 with
  | None => inverted_color (Color.rgb color)
  | Some c => c
  end.
End Tables.

(** The name [color] gives a colour that has none:
    [pretty_names.get('anonymous', 'Anonymous')]. *)
Definition anonymous (pretty_names : gmap string string) : option string :=
  Some (default "Anonymous"%string (pretty_names !! "anonymous"%string)).

(** [resolution_re = \s*(\d+)\s*[x:]\s*(\d+)\s*] *)
Definition resolution_re : regex :=
  let ws := Star (Cls is_space) in
  let num n := Grp n (Plus (Cls is_digit)) in
  let sep c := Ascii.eqb c "x" || Ascii.eqb c ":" in
  Cat ws (Cat (num 1%nat) (Cat ws (Cat (Cls sep)
    (Cat ws (Cat (num 2%nat) ws))))).

(** [resolution]: the text is parsed, and both dimensions must reach 150. *)
Definition resolution (arg : string) : result (Z * Z) :=
  match fullmatch resolution_re arg with
  | None => Raise ArgumentTypeError
  | Some groups =>
      do w <- int_of_obj 10 (group groups 1) ;;
      do h <- int_of_obj 10 (group groups 2) ;;
      if (w <? 150) || (h <? 150) then Raise ArgumentTypeError
      else Ok (w, h)
  end.

(** [choices=['empty', 'hex', '#hex', 'rgb', 'hsv', 'hsl', 'cmyk']] *)
Definition format_choices : list string :=
  ["empty"; "hex"; "#hex"; "rgb"; "hsv"; "hsl"; "cmyk"]%string.

(** [default=Color((255, 2, 141), 'Hot Pink')] *)
Definition default_color : Color.t := Color.Make (255, 2, 141) (Some "Hot Pink").

End Options.

(* ===================================================================== *)
(** ** Pillow *)
(* ===================================================================== *)

Module PIL.

(** An RGBA pixel. *)
Definition pixel : Type := Z * Z * Z * Z.

(** An image in memory: its [(width, height)] and its rows of pixels. *)
Record image : Type := Image {
  size : Z * Z;
  data : list (list pixel)
}.

Definition width (im : image) : Z := fst (size im).
Definition height (im : image) : Z := snd (size im).

(** [Image.new('RGBA', size, color)]; a negative dimension is refused. *)
Definition new (sz : Z * Z) (fill : pixel) : result image :=
  let '(w, h) := sz in
  if (w <? 0) || (h <? 0) then Raise ValueError
  else Ok (Image sz (replicate (Z.to_nat h) (replicate (Z.to_nat w) fill))).

(** [img.putpixel(xy, rgb)] on an RGBA image: the pixel becomes opaque;
    a negative coordinate counts from the far edge; a position outside
    the image is an [IndexError]. *)
Definition putpixel (im : image) (xy : Z * Z) (rgb : Z * Z * Z)
  : result image :=
  let '(x, y) := xy in
  let '(r, g, b) := rgb in
  let x := if x <? 0 then width im + x else x in
  let y := if y <? 0 then height im + y else y in
  if (x <? 0) || (width im <=? x) || (y <? 0) || (height im <=? y)
  then Raise IndexError
  else Ok (Image (size im)
             (alter (fun row => <[Z.to_nat x := (r, g, b, 255)]> row)
                (Z.to_nat y) (data im))).

(** What is drawn on the badge, in order: the outlined rectangle of
    [ImageDraw.Draw(img).rectangle] and the images laid over it by
    [img.alpha_composite(im, dest)]. *)
Inductive drawing : Type :=
| Rectangle (box : Z * Z * Z * Z) (outline : Z * Z * Z) (line_width : Z)
| AlphaComposite (im : image) (dest : Z * Z).

(** The badge: a transparent image of a given size and what has been
    drawn on it since. *)
Record canvas : Type := Canvas {
  canvas_size : Z * Z;
  drawn : list drawing
}.

Definition draw (cv : canvas) (d : drawing) : canvas :=
  Canvas (canvas_size cv) (drawn cv ++ [d]).

End PIL.

(* ===================================================================== *)
(** ** class Wallpaper *)
(* ===================================================================== *)

Module Wallpaper.

(** The fields of [self] the renderer reads; [lowercase] stands for
    [self.x], which is ['x'] when it holds and ['X'] otherwise. *)
Record t : Type := Make {
  resolution : Z * Z;
  color : Color.t;
  color2 : Color.t;
  formats : list string;
  lowercase : bool
}.

(** [len(pixel_map[0])] *)
Definition glyph_width (pixel_map : list (list bool)) : result Z :=
  match pixel_map with
  | [] => Raise IndexError
  | row :: _ => Ok (Z.of_nat (List.length row))
  end.

(** A glyph that carries its own spacing: one to eight rows of one length,
    each ending in a blank cell. *)
Definition spaced_row (w : nat) (row : list bool) : bool :=
  (List.length row =? w)%nat && negb (List.last row true).

Definition spaced_glyph (pixel_map : list (list bool)) : bool :=
  match pixel_map with
  | [] => false
  | row :: _ =>
      (List.length pixel_map <=? 8)%nat
      && forallb (spaced_row (List.length row)) pixel_map
  end.

(** [smaller = min(self.resolution)];
    [decor_size = 128 * max(round(smaller / 4 / 128), 1)] *)
Definition decor_size (resolution : Z * Z) : result Z :=
  let smaller := Z.min (fst resolution) (snd resolution) in
  do q <- int_truediv smaller 4 ;;
  do q <- float_div q (float_of_int 128) ;;
  do n <- round q ;;
  Ok (128 * Z.max n 1).

(** [((self.resolution[0]-decor_size) // 2,
      (self.resolution[1]-decor_size) // 2)] *)
Definition decor_offset (resolution : Z * Z) (decor_size : Z) : Z * Z :=
  ((fst resolution - decor_size) / 2, (snd resolution - decor_size) / 2).

(** The picture [generate_image] hands to [img.save]: the background, and
    the decoration resized to a square of side [overlay_size] laid at
    [overlay_at]. *)
Record picture : Type := Picture {
  picture_size : Z * Z;
  background : Z * Z * Z;
  overlay : PIL.canvas;
  overlay_size : Z;
  overlay_at : Z * Z
}.

Definition text_of (name : option string) : result string :=
  match name with
  | Some s => Ok s
  | None => Raise TypeError
  end.

Section Font.
(** The glyph table of [data.py]: the rows of cells of a character. *)
Variable font : ascii -> list (list bool).

(** [sum(len(font(char)[0]) for char in text)] *)
Fixpoint sum_widths (text : list ascii) : result Z :=
  match text with
  | [] => Ok 0
  | char :: text' =>
      do w <- glyph_width (font char) ;;
      do n <- sum_widths text' ;;
      Ok (w + n)
  end.

(** The lit part of the glyphs of [text]: every width less the blank
    column. *)
Fixpoint visible_widths (text : list ascii) : Z :=
  match text with
  | [] => 0
  | char :: text' =>
      (Z.of_nat (List.length (hd [] (font char))) - 1) + visible_widths text'
  end.

Definition spaced_text (text : list ascii) : Prop :=
  forall char, In char text -> spaced_glyph (font char) = true.

Section Self.
Variable self : t.

(** [for x in range(len(pixel_map[y]))]: the cells of one row, from
    column [xi] on; the loop variable [x] outlives the loop. *)
Fixpoint paint_row (offset y : Z) (row : list bool) (xi : Z)
    (img : PIL.image) (x : Z) : result (PIL.image * Z) :=
  match row with
  | [] => Ok (img, x)
  | cell :: row' =>
      do img <- (if cell : bool
                 then PIL.putpixel img (offset + xi, y)
                        (Color.rgb (color2 self))
                 else Ok img) ;;
      paint_row offset y row' (xi + 1) img xi
  end.

(** [for y in range(len(pixel_map))]: the rows from [yi] on. *)
Fixpoint paint_rows (offset : Z) (pixel_map : list (list bool)) (yi : Z)
    (img : PIL.image) (x : Z) : result (PIL.image * Z) :=
  match pixel_map with
  | [] => Ok (img, x)
  | row :: rows =>
      do (img, x) <- paint_row offset yi row 0 img x ;;
      paint_rows offset rows (yi + 1) img x
  end.

(** The body of [for char in text]: paint, then [offset += x + 1]. *)
Definition paint_char (st : PIL.image * Z * Z) (char : ascii)
  : result (PIL.image * Z * Z) :=
  let '(img, offset, x) := st in
  do (img, x) <- paint_rows offset (font char) 0 img x ;;
  Ok (img, offset + (x + 1), x).

Fixpoint paint_text (text : list ascii) (st : PIL.image * Z * Z)
  : result (PIL.image * Z * Z) :=
  match text with
  | [] => Ok st
  | char :: text' =>
      do st <- paint_char st char ;;
      paint_text text' st
  end.

Definition generate_text (text : string) : result PIL.image :=
  let chars := list_ascii_of_string text in
  do n <- sum_widths chars ;;
  let text_length := n - 1 in
  do img <- PIL.new (text_length, 8) (0, 0, 0, 0) ;;
  do (img, _, _) <- paint_text chars (img, 0, 0) ;;
  Ok img.

(** The name block of [generate_decoration]: one line, or two lines
    split at the last space when the name is wider than 112 pixels. *)
Definition decoration_name (img : PIL.canvas) : result (PIL.canvas * Z) :=
  do text <- text_of (Color.name (color self)) ;;
  do name <- generate_text text ;;
  let '(x, y) := PIL.size name in
  if x <=? 112 then
    Ok (PIL.draw img (PIL.AlphaComposite name (8, y)), y)
  else
    do (text1, text2) <- unpack2 (rsplit1 text) ;;
    do line1 <- generate_text text1 ;;
    let img := PIL.draw img (PIL.AlphaComposite line1 (8, y)) in
    let y := y + 12 in
    do line2 <- generate_text text2 ;;
    Ok (PIL.draw img (PIL.AlphaComposite line2 (8, y)), y).

Definition join3 (sep : string) (f : Z -> string) (c : Z * Z * Z) : string :=
  let '(a, b, d) := c in join sep [f a; f b; f d].

(** The dictionary [rows]: every entry is computed, whatever
    [self.formats] asks for. *)
Definition rows : result (gmap string (string * string)) :=
  let rgb := Color.rgb (color self) in
  let hex := join3 "" (format_02x (lowercase self)) rgb in
  do hsv <- Color.hsv rgb ;;
  do hsl <- Color.hsl rgb ;;
  do (c, m, y, k) <- Color.cmyk rgb ;;
  Ok (list_to_map
        [("hex", ("HEX ", hex));
         ("#hex", ("HEX ", "#" +:+ hex));
         ("rgb", ("RGB ", join3 " " str rgb));
         ("hsv", ("HSV ", join3 " " str hsv));
         ("hsl", ("HSL ", join3 " " str hsl));
         ("cmyk", ("CMYK ", join " " [str c; str m; str y; str k]));
         ("empty", (" ", " "))]).

(** The body of [for key in self.formats]. *)
Definition decoration_row (rows : gmap string (string * string))
    (st : PIL.canvas * Z) (key : string) : result (PIL.canvas * Z) :=
  let '(img, y) := st in
  let y := y + 12 in
  do row <- match rows !! key with
            | Some row => Ok row
            | None => Raise KeyError
            end ;;
  do label <- generate_text (fst row) ;;
  let img := PIL.draw img (PIL.AlphaComposite label (8, y)) in
  do value <- generate_text (snd row) ;;
  Ok (PIL.draw img
        (PIL.AlphaComposite value (3 + 5 + PIL.width label, y)), y).

Fixpoint decoration_rows (rows : gmap string (string * string))
    (keys : list string) (st : PIL.canvas * Z) : result (PIL.canvas * Z) :=
  match keys with
  | [] => Ok st
  | key :: keys' =>
      do st <- decoration_row rows st key ;;
      decoration_rows rows keys' st
  end.

Definition generate_decoration : result PIL.canvas :=
  let img := PIL.Canvas (128, 128) [] in
  let img :=
    PIL.draw img
      (PIL.Rectangle (0, 0, 127, 127) (Color.rgb (color2 self)) 3) in
  do st <- decoration_name img ;;
  do rows <- rows ;;
  do (img, _) <- decoration_rows rows (formats self) st ;;
  Ok img.

(** [generate_image], up to the picture that is saved. *)
Definition generate_image : result picture :=
  do decor_size <- decor_size (resolution self) ;;
  do decoration <- generate_decoration ;;
  Ok (Picture (resolution self) (Color.rgb (color self)) decoration
        decor_size (decor_offset (resolution self) decor_size)).
End Self.
End Font.

End Wallpaper.

(* ===================================================================== *)
(** ** A small glyph table and sample tables, to run the renderer *)
(* ===================================================================== *)

Module Sample.

(** A block of [w] lit columns followed by one blank column, eight rows
    high; the space is two blank columns. *)
Definition block (w : nat) : list (list bool) :=
  replicate 8 (replicate w true ++ [false]).

Definition font (c : ascii) : list (list bool) :=
  if Ascii.eqb c " " then replicate 8 [false; false]
  else if is_digit c then block 3
  else block 5.

Definition pretty_names : gmap string string :=
  {[ "hotpink" := "Hot Pink" ]}.
Definition color_to_hex : gmap string string :=
  {[ "hotpink" := "ff028d"; "black" := "000000"; "white" := "ffffff" ]}.
Definition hex_to_color : gmap string string :=
  {[ "ff028d" := "hotpink"; "000000" := "black"; "ffffff" := "white" ]}.

Definition wallpaper (name : string) : Wallpaper.t :=
  Wallpaper.Make (1920, 1080) (Color.Make (255, 2, 141) (Some name))
    (Color.Make (0, 253, 114) None) ["empty"; "hex"; "rgb"] false.

End Sample.

(* ===================================================================== *)
(** ** The colour model on 8-bit components: decision procedures *)
(* ===================================================================== *)

Module Bytes.

(** An 8-bit colour component. *)
Definition byte (n : Z) : Prop := 0 <= n <= 255.

Definition bytes : list Z := map Z.of_nat (seq 0 256).

(** [comp/255] *)
Definition unit (n : Z) : float :=
  PrimFloat.div (float_of_int n) (float_of_int 255).

Definition units : list float := map unit bytes.

(** [1 - comp/255] *)
Definition complements : list float :=
  map (fun n => PrimFloat.sub 1%float (unit n)) bytes.

Definition for_pairs {A} (l : list A) (p : A -> A -> bool) : bool :=
  forallb (fun a => forallb (fun b => p a b) l) l.

Definition for_triples {A} (l : list A) (p : A -> A -> A -> bool) : bool :=
  forallb (fun a => forallb (fun b => forallb (fun c => p a b c) l) l) l.

(** [int(x*100)] and [int(x*360)] on a finite product. *)
Definition percent (x : float) : Z :=
  Py.trunc (PrimFloat.mul x (float_of_int 100)).
Definition degrees (x : float) : Z :=
  Py.trunc (PrimFloat.mul x (float_of_int 360)).

Definition is_percent (x : float) : bool :=
  let y := PrimFloat.mul x 100%float in
  is_finite y && (0 <=? Py.trunc y) && (Py.trunc y <=? 100).

(** *** cmyk *)

(** No complement exceeds one. *)
Definition at_most_one (c : float) : bool := negb (PrimFloat.ltb 1%float c).

(** One component [c] against the key [k]: the divisor is not zero and
    the scaled quotient is finite. *)
Definition cmyk_pair_ok (c k : float) : bool :=
  PrimFloat.eqb k 1%float
  || (negb (PrimFloat.eqb (PrimFloat.sub 1%float k) 0%float)
      && is_finite
           (PrimFloat.mul
              (PrimFloat.div (PrimFloat.sub c k) (PrimFloat.sub 1%float k))
              100%float)
      && is_finite (PrimFloat.mul k 100%float)).

(** *** hsl *)

(** Canonical HSL on the largest and the smallest of the three components
    in [0, 1]: the lightness is their mean, the saturation is their
    difference over [1 - |2 l - 1|], which is their sum for [l <= 1/2] and
    [2] minus their sum above. *)
Definition lightness (maxc minc : float) : float :=
  PrimFloat.div (PrimFloat.add maxc minc) 2%float.

Definition saturation (maxc minc : float) : float :=
  if PrimFloat.eqb minc maxc then 0%float
  else if PrimFloat.leb (lightness maxc minc) 0.5%float
       then PrimFloat.div (PrimFloat.sub maxc minc) (PrimFloat.add maxc minc)
       else PrimFloat.div (PrimFloat.sub maxc minc)
              (PrimFloat.sub 2%float (PrimFloat.add maxc minc)).

(** The divisors [rgb_to_hls] meets on [maxc] and [minc] are not zero, and
    the lightness and the saturation scale to percentages. *)
Definition hls_pair_ok (maxc minc : float) : bool :=
  is_percent (lightness maxc minc)
  && is_percent (saturation maxc minc)
  && (PrimFloat.eqb minc maxc
      || (negb (PrimFloat.eqb (PrimFloat.sub maxc minc) 0%float)
          && negb (PrimFloat.eqb
                     (if PrimFloat.leb (lightness maxc minc) 0.5%float
                      then PrimFloat.add maxc minc
                      else PrimFloat.sub 2%float (PrimFloat.add maxc minc))
                     0%float))).

Definition hls_bytes_ok (hi lo : Z) : bool :=
  (hi <? lo) || hls_pair_ok (unit hi) (unit lo).

(** [comp/255] grows with [comp]. *)
Definition order_ok (a b : Z) : bool :=
  Bool.eqb (PrimFloat.ltb (unit a) (unit b)) (a <? b).

(** The hue of [colorsys] when no division raises. *)
Definition hue_value (r g b maxc rangec : float) : float :=
  let rc := PrimFloat.div (PrimFloat.sub maxc r) rangec in
  let gc := PrimFloat.div (PrimFloat.sub maxc g) rangec in
  let bc := PrimFloat.div (PrimFloat.sub maxc b) rangec in
  let h :=
    if PrimFloat.eqb r maxc then PrimFloat.sub bc gc
    else if PrimFloat.eqb g maxc
         then PrimFloat.sub (PrimFloat.add 2%float rc) bc
         else PrimFloat.sub (PrimFloat.add 4%float gc) rc in
  mod1 (PrimFloat.div h 6%float).

(** The hue of three components scales to a finite number of degrees. *)
Definition hue_triple_ok (r g b : float) : bool :=
  let maxc := max3 r g b in
  let minc := min3 r g b in
  PrimFloat.eqb minc maxc
  || is_finite
       (PrimFloat.mul (hue_value r g b maxc (PrimFloat.sub maxc minc))
          360%float).

(** *** achromatic colours *)

Definition grey_ok (n : Z) : bool :=
  match Color.hsv (n, n, n), Color.hsl (n, n, n) with
  | Ok (_, s, _), Ok (_, s', _) => (s =? 0) && (s' =? 0)
  | _, _ => false
  end.

End Bytes.

(* ===================================================================== *)
(** ** What an image shows *)
(* ===================================================================== *)

(* ===================================================================== *)
(** ** Ranges of the colour conversions, checked on every byte *)
(* ===================================================================== *)

Module Ranges.
Import Bytes.

(** [0 <= x*100 <= 100], on floats. *)
Definition within_percent (x : float) : bool :=
  let y := PrimFloat.mul x 100%float in
  PrimFloat.leb 0%float y && PrimFloat.leb y 100%float.

(** The saturation of [rgb_to_hsv] on the largest and the smallest
    component. *)
Definition hsv_saturation (maxc minc : float) : float :=
  if PrimFloat.eqb minc maxc then 0%float
  else PrimFloat.div (PrimFloat.sub maxc minc) maxc.

(** The value of a byte scales to a percentage. *)
Definition value_ok (n : Z) : bool := within_percent (unit n).

(** The divisor [rgb_to_hsv] meets is not zero and the saturation scales
    to a percentage. *)
Definition hsv_bytes_ok (hi lo : Z) : bool :=
  (hi <? lo)
  || (within_percent (hsv_saturation (unit hi) (unit lo))
      && (PrimFloat.eqb (unit lo) (unit hi)
          || negb (PrimFloat.eqb (unit hi) 0%float))).

(** [1 - comp/255] falls as [comp] grows. *)
Definition complement_order_ok (a b : Z) : bool :=
  Bool.eqb
    (PrimFloat.ltb (PrimFloat.sub 1%float (unit a))
       (PrimFloat.sub 1%float (unit b)))
    (b <? a).

(** [(c - k) / (1 - k)] for the component [n] under the largest
    component [hi]. *)
Definition cmyk_share (n hi : Z) : float :=
  let c := PrimFloat.sub 1%float (unit n) in
  let k := PrimFloat.sub 1%float (unit hi) in
  PrimFloat.div (PrimFloat.sub c k) (PrimFloat.sub 1%float k).

(** The key of the largest component [hi]: it is [1] for [0] only, its
    percentage is [100] for [0] only, and the largest component has no
    share. *)
Definition key_ok (hi : Z) : bool :=
  let k := PrimFloat.sub 1%float (unit hi) in
  within_percent k
  && Bool.eqb (PrimFloat.eqb k 1%float) (hi =? 0)
  && Bool.eqb (percent k =? 100) (hi =? 0)
  && ((hi =? 0) || (percent (cmyk_share hi hi) =? 0)).

(** The share of a component under the largest is a percentage. *)
Definition cmyk_bytes_ok (hi n : Z) : bool :=
  (hi <? n) || (hi =? 0) || within_percent (cmyk_share n hi).

(** [round(smaller / 4 / 128)] in integers: the quotient by 512, rounded
    to nearest, ties to even. *)
Definition round_512 (smaller : Z) : Z :=
  let q := smaller / 512 in
  let r := smaller mod 512 in
  if r <? 256 then q
  else if 256 <? r then q + 1
  else if Z.even q then q else q + 1.

Definition decor_size_ok (smaller : Z) : bool :=
  match Wallpaper.decor_size (smaller, smaller) with
  | Ok d => d =? 128 * Z.max (round_512 smaller) 1
  | Raise _ => false
  end.

(** [range(start, start + n)] *)
Fixpoint range_from (start : Z) (n : nat) : list Z :=
  match n with
  | O => []
  | S n' => start :: range_from (start + 1) n'
  end.

(** The sides a resolution may have here: up to 16384 pixels. *)
Definition sides : list Z := range_from 0 (Z.to_nat 16385).

End Ranges.

Module Pixels.

(** [img.getpixel((x, y))] inside the image. *)
Definition pixel_at (im : PIL.image) (x y : Z) : option PIL.pixel :=
  if (x <? 0) || (y <? 0) then None
  else
    match PIL.data im !! Z.to_nat y with
    | Some row => row !! Z.to_nat x
    | None => None
    end.

(** The rows of an image are as many as its height and as long as its
    width. *)
Definition well_formed (im : PIL.image) : Prop :=
  List.length (PIL.data im) = Z.to_nat (PIL.height im) /\
  Forall (fun row : list PIL.pixel => List.length row = Z.to_nat (PIL.width im))
    (PIL.data im).

(** The cell of a glyph at column [x] of row [y]; blank outside. *)
Definition glyph_cell (pixel_map : list (list bool)) (x y : Z) : bool :=
  if (x <? 0) || (y <? 0) then false
  else nth (Z.to_nat x) (nth (Z.to_nat y) pixel_map []) false.

Section Font.
Variable font : ascii -> list (list bool).

(** The cell of a line of text at [(x, y)]: the glyphs side by side, each
    as wide as its first row. *)
Fixpoint lit (text : list ascii) (x y : Z) : bool :=
  match text with
  | [] => false
  | char :: text' =>
      let w := Z.of_nat (List.length (hd [] (font char))) in
      if x <? w then glyph_cell (font char) x y else lit text' (x - w) y
  end.
End Font.

(** The pixel of a lit cell and of a blank one. *)
Definition shown (rgb : Z * Z * Z) (cell : bool) : PIL.pixel :=
  let '(r, g, b) := rgb in if cell then (r, g, b, 255) else (0, 0, 0, 0).

(** [im'] is [im] with the cells of [P] painted in [rgb]. *)
Definition painted (P : Z -> Z -> bool) (rgb : Z * Z * Z)
    (im im' : PIL.image) : Prop :=
  well_formed im' /\ PIL.size im' = PIL.size im /\
  forall x y,
    pixel_at im' x y
    = match pixel_at im x y with
      | Some p => Some (if P x y then shown rgb true else p)
      | None => None
      end.

(** The cell of a row at column [k]; blank outside. *)
Definition row_cell (row : list bool) (k : Z) : bool :=
  if k <? 0 then false else nth (Z.to_nat k) row false.

End Pixels.

(* ===================================================================== *)
(** ** What a pattern matches *)
(* ===================================================================== *)

Module Regex.

(** The texts a pattern stands for, whatever the order in which the
    matcher tries them. *)
Inductive matches : regex -> list ascii -> Prop :=
| matches_eps : matches Eps []
| matches_cls (p : ascii -> bool) (c : ascii) :
    p c = true -> matches (Cls p) [c]
| matches_cat (a b : regex) (s t : list ascii) :
    matches a s -> matches b t -> matches (Cat a b) (s ++ t)
| matches_alt_l (a b : regex) (s : list ascii) :
    matches a s -> matches (Alt a b) s
| matches_alt_r (a b : regex) (s : list ascii) :
    matches b s -> matches (Alt a b) s
| matches_star_nil (a : regex) : matches (Star a) []
| matches_star_cons (a : regex) (s t : list ascii) :
    matches a s -> matches (Star a) t -> matches (Star a) (s ++ t)
| matches_grp (n : nat) (a : regex) (s : list ascii) :
    matches a s -> matches (Grp n a) s.

(** The characters a match of the pattern can hold. *)
Fixpoint alphabet (r : regex) (c : ascii) : bool :=
  match r with
  | Eps => false
  | Cls p => p c
  | Cat a b | Alt a b => alphabet a c || alphabet b c
  | Star a | Grp _ a => alphabet a c
  end.

(** The loop of the matcher on [Star a]: at most [fuel] more rounds of
    [a], each on a shorter text, then the continuation [k]. *)
Definition star_iter (a : regex)
    (k : list ascii -> captures -> option captures)
  : nat -> list ascii -> captures -> option captures :=
  fix iter (fuel : nat) (s : list ascii) (cs : captures) {struct fuel}
    : option captures :=
    match fuel with
    | O => k s cs
    | S fuel' =>
        match rmatch a s cs
                (fun s' cs' =>
                   if (List.length s' <? List.length s)%nat
                   then iter fuel' s' cs' else None)
        with
        | Some m => Some m
        | None => k s cs
        end
    end.

(** The next character stops a run of [p]: there is none, or [p] refuses
    it. *)
Definition stops (p : ascii -> bool) (rest : list ascii) : Prop :=
  match rest with
  | [] => True
  | c :: _ => p c = false
  end.

(** The continuation of [fullmatch]: nothing is left. *)
Definition at_end (rest : list ascii) (cs : captures) : option captures :=
  match rest with [] => Some cs | _ => None end.

(** A text of white space only. *)
Definition all_space (s : string) : bool :=
  forallb is_space (list_ascii_of_string s).

(** Two hexadecimal digits that [int(_, 16)] reads back as [n]. *)
Definition hex2_ok (lowercase : bool) (n : Z) : bool :=
  match format_02x lowercase n with
  | String a (String b EmptyString) =>
      is_hex_digit a && is_hex_digit b
      && match int_of_str 16 (String a (String b EmptyString)) with
         | Ok v => v =? n
         | Raise _ => false
         end
  | _ => false
  end.

End Regex.

(* ===================================================================== *)
(** ** A glyph without its blank column *)
(* ===================================================================== *)

Module Unspaced.

(** The sample glyphs, but for an exclamation mark one lit column wide. *)
Definition font (c : ascii) : list (list bool) :=
  if Ascii.eqb c "!" then replicate 8 [true] else Sample.font c.

End Unspaced.

(* ===================================================================== *)
(** ** Decimal numerals *)
(* ===================================================================== *)

Module Digits.

(** The characters of a decimal numeral. *)
Abbreviation digits_of d :=
  (list_ascii_of_string (DecimalString.NilEmpty.string_of_uint d)).

(** Replace the value of a known digit by its number. *)
Ltac digit_value_known :=
  repeat match goal with
         | |- context [ord ?c - 48] =>
             let v := eval vm_compute in (ord c - 48) in
             change (ord c - 48) with v
         end.

End Digits.

(* ===================================================================== *)
(** * Properties *)
(* ===================================================================== *)

(** ** The run-time *)

Lemma float_div_ok (x y : float) :
  PrimFloat.eqb y 0%float = false -> float_div x y = Ok (PrimFloat.div x y).
Proof. intros H. unfold float_div. now rewrite H. Qed.

Lemma int_of_float_ok (x : float) :
  is_finite x = true -> int_of_float x = Ok (Py.trunc x).
Proof. intros H. unfold int_of_float. now rewrite H. Qed.

Lemma bind_ok {A B} (m : result A) (k : A -> result B) (a : A) :
  m = Ok a -> bind m k = k a.
Proof. now intros ->. Qed.

Lemma min2_cases (cur x : float) : min2 cur x = cur \/ min2 cur x = x.
Proof. unfold min2. destruct (PrimFloat.ltb x cur); auto. Qed.

(** ** 8-bit components *)

Module BytesFacts.
Import Bytes.

Lemma byte_in (n : Z) : byte n -> In n bytes.
Proof.
  intros [Hlo Hhi]. unfold bytes.
  replace n with (Z.of_nat (Z.to_nat n)) by lia.
  apply in_map, in_seq. lia.
Qed.

Lemma unit_in (n : Z) : byte n -> In (unit n) units.
Proof. intros H. unfold units. apply in_map, byte_in, H. Qed.

Lemma complement_in (n : Z) :
  byte n -> In (PrimFloat.sub 1%float (unit n)) complements.
Proof.
  intros H. unfold complements.
  apply (in_map (fun n => PrimFloat.sub 1%float (unit n))), byte_in, H.
Qed.

Lemma for_pairs_spec {A} (l : list A) (p : A -> A -> bool) (a b : A) :
  for_pairs l p = true -> In a l -> In b l -> p a b = true.
Proof.
  unfold for_pairs. intros H Ha Hb.
  rewrite forallb_forall in H. specialize (H a Ha).
  rewrite forallb_forall in H. exact (H b Hb).
Qed.

Lemma for_triples_spec {A} (l : list A) (p : A -> A -> A -> bool) (a b c : A) :
  for_triples l p = true -> In a l -> In b l -> In c l -> p a b c = true.
Proof.
  unfold for_triples. intros H Ha Hb Hc.
  rewrite forallb_forall in H. specialize (H a Ha).
  rewrite forallb_forall in H. specialize (H b Hb).
  rewrite forallb_forall in H. exact (H c Hc).
Qed.

Lemma int_truediv_byte (n : Z) : int_truediv n 255 = Ok (unit n).
Proof. reflexivity. Qed.

Lemma unit_rgb_eq (r g b : Z) :
  Color.unit_rgb (r, g, b) = Ok (unit r, unit g, unit b).
Proof. reflexivity. Qed.

Lemma complement_eq (n : Z) :
  Color.complement n = Ok (PrimFloat.sub 1%float (unit n)).
Proof. reflexivity. Qed.

Lemma float_100 : float_of_int 100 = 100%float.
Proof. reflexivity. Qed.

Lemma float_360 : float_of_int 360 = 360%float.
Proof. reflexivity. Qed.

(** The decision procedures, run on every byte, pair of bytes and triple
    of scaled bytes. *)
Lemma complements_checked : forallb at_most_one complements = true.
Proof. vm_cast_no_check (eq_refl true). Qed.

Lemma cmyk_checked : for_pairs complements cmyk_pair_ok = true.
Proof. vm_cast_no_check (eq_refl true). Qed.

Lemma hls_checked : for_pairs bytes hls_bytes_ok = true.
Proof. vm_cast_no_check (eq_refl true). Qed.

Lemma order_checked : for_pairs bytes order_ok = true.
Proof. vm_cast_no_check (eq_refl true). Qed.

Lemma hue_checked : for_triples units hue_triple_ok = true.
Proof. vm_cast_no_check (eq_refl true). Qed.

Lemma grey_checked : forallb grey_ok bytes = true.
Proof. vm_cast_no_check (eq_refl true). Qed.

End BytesFacts.

(** ** The colour model *)

Module ColorFacts.
Import Bytes BytesFacts.

Lemma scaled_100 (x : float) :
  is_finite (PrimFloat.mul x 100%float) = true ->
  Color.scaled x 100 = Ok (percent x).
Proof.
  intros H. unfold Color.scaled, percent. rewrite float_100.
  now apply int_of_float_ok.
Qed.

Lemma scaled_360 (x : float) :
  is_finite (PrimFloat.mul x 360%float) = true ->
  Color.scaled x 360 = Ok (degrees x).
Proof.
  intros H. unfold Color.scaled, degrees. rewrite float_360.
  now apply int_of_float_ok.
Qed.

Lemma key_in (c m y : float) :
  In c complements -> In m complements -> In y complements ->
  In (min4 c m y 1%float) complements.
Proof.
  intros Hc Hm Hy.
  assert (H3 : In (min2 (min2 c m) y) complements).
  { destruct (min2_cases (min2 c m) y) as [-> | ->]; [|assumption].
    destruct (min2_cases c m) as [-> | ->]; assumption. }
  pose proof complements_checked as H. rewrite forallb_forall in H.
  specialize (H _ H3). apply negb_true_iff in H.
  unfold min4. unfold min2 at 1. now rewrite H.
Qed.

Lemma cmyk_part (c k : float) :
  In c complements -> In k complements ->
  PrimFloat.eqb k 1%float = false ->
  PrimFloat.eqb (PrimFloat.sub 1%float k) 0%float = false /\
  is_finite (PrimFloat.mul
     (PrimFloat.div (PrimFloat.sub c k) (PrimFloat.sub 1%float k)) 100%float) = true /\
  is_finite (PrimFloat.mul k 100%float) = true.
Proof.
  intros Hc Hk E.
  pose proof (for_pairs_spec _ _ c k cmyk_checked Hc Hk) as H.
  unfold cmyk_pair_ok in H. rewrite E in H. cbn [orb] in H.
  apply andb_prop in H as [H H3]. apply andb_prop in H as [H1 H2].
  apply negb_true_iff in H1. auto.
Qed.

Example hsv_primaries :
  Color.hsv (255, 0, 0) = Ok (0, 100, 100) /\
  Color.hsv (0, 255, 0) = Ok (120, 100, 100) /\
  Color.hsv (0, 0, 255) = Ok (240, 100, 100).
Proof. repeat split; vm_compute; reflexivity. Qed.

Example hot_pink :
  Color.hsv (255, 2, 141) = Ok (327, 99, 100) /\
  Color.hsl (255, 2, 141) = Ok (327, 100, 50) /\
  Color.cmyk (255, 2, 141) = Ok (0, 99, 44, 0).
Proof. repeat split; vm_compute; reflexivity. Qed.

(** Above half lightness the divisor is [2.0 - sumc], the sum rounded
    first: the saturation of (150, 110, 110) is 15 and not 16. *)
Example dusty_rose :
  Color.hsl (150, 110, 110) = Ok (0, 15, 50) /\
  Color.hsv (150, 110, 110) = Ok (0, 26, 58).
Proof. repeat split; vm_compute; reflexivity. Qed.

(** C4. [cmyk] is total on 8-bit triples: it returns for every triple;
    when the key [k = min(c, m, y, 1)] is [1] the answer is
    [(0, 0, 0, 100)], given before any division; otherwise the divisor
    [1 - k] is not zero. Black gives [(0, 0, 0, 100)] and white
    [(0, 0, 0, 0)]. *)
Theorem cmyk_total_on_bytes (r g b : Z) :
  byte r -> byte g -> byte b ->
  exists k,
    Color.cmyk_key (r, g, b) = Ok k /\
    returns (Color.cmyk (r, g, b)) /\
    (PrimFloat.eqb k 1%float = true -> Color.cmyk (r, g, b) = Ok (0, 0, 0, 100)) /\
    (PrimFloat.eqb k 1%float = false ->
     PrimFloat.eqb (PrimFloat.sub 1%float k) 0%float = false) /\
    Color.cmyk (0, 0, 0) = Ok (0, 0, 0, 100) /\
    Color.cmyk (255, 255, 255) = Ok (0, 0, 0, 0).
Proof.
  intros Hr Hg Hb.
  pose proof (complement_in r Hr) as Hc.
  pose proof (complement_in g Hg) as Hm.
  pose proof (complement_in b Hb) as Hy.
  pose proof (key_in _ _ _ Hc Hm Hy) as Hk.
  set (c := PrimFloat.sub 1%float (unit r)) in *.
  set (m := PrimFloat.sub 1%float (unit g)) in *.
  set (y := PrimFloat.sub 1%float (unit b)) in *.
  set (k := min4 c m y 1%float) in *.
  assert (Hcmyk : Color.cmyk (r, g, b) =
    if PrimFloat.eqb k 1%float then Ok (0, 0, 0, 100)
    else
      do c <- float_div (PrimFloat.sub c k) (PrimFloat.sub 1%float k) ;;
      do m <- float_div (PrimFloat.sub m k) (PrimFloat.sub 1%float k) ;;
      do y <- float_div (PrimFloat.sub y k) (PrimFloat.sub 1%float k) ;;
      do c' <- Color.scaled c 100 ;;
      do m' <- Color.scaled m 100 ;;
      do y' <- Color.scaled y 100 ;;
      do k' <- Color.scaled k 100 ;;
      Ok (c', m', y', k')) by reflexivity.
  exists k. split; [reflexivity|].
  split.
  { rewrite Hcmyk. destruct (PrimFloat.eqb k 1%float) eqn:E; [eexists; reflexivity|].
    destruct (cmyk_part c k Hc Hk E) as (D & Pc & Pk).
    destruct (cmyk_part m k Hm Hk E) as (_ & Pm & _).
    destruct (cmyk_part y k Hy Hk E) as (_ & Py & _).
    rewrite !(float_div_ok _ _ D). cbn [bind].
    rewrite (scaled_100 _ Pc), (scaled_100 _ Pm), (scaled_100 _ Py), (scaled_100 _ Pk).
    eexists; reflexivity. }
  split.
  { intros E. rewrite Hcmyk, E. reflexivity. }
  split.
  { intros E. apply (cmyk_part c k Hc Hk E). }
  split; vm_compute; reflexivity.
Qed.

(** C8. A grey, [r = g = b], has saturation 0 under [hsv] and under
    [hsl]. *)
Theorem grey_has_no_saturation (n : Z) :
  byte n ->
  (exists h v, Color.hsv (n, n, n) = Ok (h, 0, v)) /\
  (exists h l, Color.hsl (n, n, n) = Ok (h, 0, l)).
Proof.
  intros Hn. pose proof grey_checked as H. rewrite forallb_forall in H.
  specialize (H n (byte_in n Hn)). unfold grey_ok in H.
  destruct (Color.hsv (n, n, n)) as [[[h s] v]|]; [|discriminate].
  destruct (Color.hsl (n, n, n)) as [[[h' s'] l]|]; [|discriminate].
  apply andb_prop in H as [H1 H2].
  apply Z.eqb_eq in H1, H2. subst. split; eauto.
Qed.

Lemma ltb_unit (a b : Z) :
  byte a -> byte b -> PrimFloat.ltb (unit a) (unit b) = (a <? b).
Proof.
  intros Ha Hb.
  pose proof (for_pairs_spec _ _ a b order_checked (byte_in a Ha) (byte_in b Hb)) as E.
  unfold order_ok in E. now apply Bool.eqb_prop in E.
Qed.

Lemma max2_unit (a b : Z) :
  byte a -> byte b -> max2 (unit a) (unit b) = unit (Z.max a b).
Proof.
  intros Ha Hb. unfold max2. rewrite (ltb_unit a b Ha Hb).
  destruct (Z.ltb_spec a b); f_equal; lia.
Qed.

Lemma min2_unit (a b : Z) :
  byte a -> byte b -> min2 (unit a) (unit b) = unit (Z.min a b).
Proof.
  intros Ha Hb. unfold min2. rewrite (ltb_unit b a Hb Ha).
  destruct (Z.ltb_spec b a); f_equal; lia.
Qed.

Lemma max3_unit (r g b : Z) :
  byte r -> byte g -> byte b ->
  max3 (unit r) (unit g) (unit b) = unit (Z.max (Z.max r g) b).
Proof.
  intros Hr Hg Hb. unfold max3. rewrite (max2_unit r g Hr Hg).
  apply max2_unit; [unfold byte in *; lia | exact Hb].
Qed.

Lemma min3_unit (r g b : Z) :
  byte r -> byte g -> byte b ->
  min3 (unit r) (unit g) (unit b) = unit (Z.min (Z.min r g) b).
Proof.
  intros Hr Hg Hb. unfold min3. rewrite (min2_unit r g Hr Hg).
  apply min2_unit; [unfold byte in *; lia | exact Hb].
Qed.

Lemma hls_pair_checked (hi lo : Z) :
  byte hi -> byte lo -> lo <= hi -> hls_pair_ok (unit hi) (unit lo) = true.
Proof.
  intros Hhi Hlo Hle.
  pose proof (for_pairs_spec _ _ hi lo hls_checked (byte_in hi Hhi) (byte_in lo Hlo)) as E.
  unfold hls_bytes_ok in E. apply orb_prop in E as [E | E]; [|exact E].
  apply Z.ltb_lt in E. lia.
Qed.

Lemma hue_triple_checked (r g b : Z) :
  byte r -> byte g -> byte b ->
  hue_triple_ok (unit r) (unit g) (unit b) = true.
Proof.
  intros Hr Hg Hb.
  exact (for_triples_spec _ _ _ _ _ hue_checked (unit_in r Hr) (unit_in g Hg) (unit_in b Hb)).
Qed.

Lemma hue_eq (r g b maxc rangec : float) :
  PrimFloat.eqb rangec 0%float = false ->
  Colorsys.hue r g b maxc rangec = Ok (hue_value r g b maxc rangec).
Proof.
  intros H. unfold Colorsys.hue. rewrite !(float_div_ok _ _ H). cbn [bind].
  rewrite float_div_ok by reflexivity. reflexivity.
Qed.

Lemma is_percent_spec (x : float) :
  is_percent x = true ->
  Color.scaled x 100 = Ok (percent x) /\ 0 <= percent x <= 100.
Proof.
  unfold is_percent. cbv zeta. intros H.
  apply andb_prop in H as [H H3]. apply andb_prop in H as [H1 H2].
  split; [now apply scaled_100|].
  unfold percent. rewrite float_100.
  apply Z.leb_le in H2, H3. lia.
Qed.

(** C6. [hsl] returns [(h, s, l)] on every 8-bit triple: [rgb_to_hls]
    yields [(h, l, s)], with [l] the canonical lightness and [s] the
    canonical saturation, and [hsl] puts the percentage of [s] second and
    the percentage of [l] third, both within [0, 100]. *)
Theorem hsl_components (r g b : Z) :
  byte r -> byte g -> byte b ->
  let maxc := max3 (unit r) (unit g) (unit b) in
  let minc := min3 (unit r) (unit g) (unit b) in
  exists h l s,
    Colorsys.rgb_to_hls (unit r) (unit g) (unit b) = Ok (h, l, s) /\
    l = lightness maxc minc /\
    s = saturation maxc minc /\
    Color.hsl (r, g, b) = Ok (degrees h, percent s, percent l) /\
    0 <= percent s <= 100 /\ 0 <= percent l <= 100.
Proof.
  intros Hr Hg Hb maxc minc.
  pose proof (hue_triple_checked r g b Hr Hg Hb) as Hh.
  assert (Hp : hls_pair_ok maxc minc = true).
  { subst maxc minc. rewrite max3_unit, min3_unit by assumption.
    apply hls_pair_checked; unfold byte in *; lia. }
  unfold hue_triple_ok in Hh. cbv zeta in Hh. fold maxc minc in Hh.
  unfold hls_pair_ok in Hp.
  apply andb_prop in Hp as [Hp Hd]. apply andb_prop in Hp as [Hl Hs].
  apply is_percent_spec in Hl as [Hl Hlr], Hs as [Hs Hsr].
  assert (Hhls : Colorsys.rgb_to_hls (unit r) (unit g) (unit b) =
    do l <- float_div (PrimFloat.add maxc minc) 2%float ;;
    if PrimFloat.eqb minc maxc then Ok (0%float, l, 0%float)
    else
      do s <- (if PrimFloat.leb l 0.5%float
               then float_div (PrimFloat.sub maxc minc) (PrimFloat.add maxc minc)
               else float_div (PrimFloat.sub maxc minc)
                      (PrimFloat.sub 2%float (PrimFloat.add maxc minc))) ;;
      do h <- Colorsys.hue (unit r) (unit g) (unit b) maxc (PrimFloat.sub maxc minc) ;;
      Ok (h, l, s)) by reflexivity.
  rewrite float_div_ok in Hhls by reflexivity. cbn [bind] in Hhls.
  fold (lightness maxc minc) in Hhls.
  assert (Hhsl : forall h l s,
    Colorsys.rgb_to_hls (unit r) (unit g) (unit b) = Ok (h, l, s) ->
    Color.hsl (r, g, b) =
      do h' <- Color.scaled h 360 ;;
      do s' <- Color.scaled s 100 ;;
      do l' <- Color.scaled l 100 ;;
      Ok (h', s', l')).
  { intros h l s E. unfold Color.hsl. rewrite unit_rgb_eq. cbn [bind].
    rewrite E. reflexivity. }
  unfold saturation in *.
  destruct (PrimFloat.eqb minc maxc) eqn:E.
  - exists 0%float, (lightness maxc minc), 0%float.
    split; [exact Hhls|]. split; [reflexivity|]. split; [reflexivity|].
    split; [|split; assumption].
    rewrite (Hhsl _ _ _ Hhls), Hs, Hl. reflexivity.
  - cbn [orb] in Hd, Hh. apply andb_prop in Hd as [Hd1 Hd2].
    apply negb_true_iff in Hd1, Hd2.
    rewrite (hue_eq _ _ _ _ _ Hd1) in Hhls.
    set (h := hue_value (unit r) (unit g) (unit b) maxc (PrimFloat.sub maxc minc)) in *.
    destruct (PrimFloat.leb (lightness maxc minc) 0.5%float) eqn:L.
    + rewrite (float_div_ok _ _ Hd2) in Hhls. cbn [bind] in Hhls.
      eexists _, _, _. split; [exact Hhls|]. split; [reflexivity|].
      split; [reflexivity|]. split; [|split; assumption].
      rewrite (Hhsl _ _ _ Hhls), Hs, Hl, (scaled_360 _ Hh). reflexivity.
    + rewrite (float_div_ok _ _ Hd2) in Hhls. cbn [bind] in Hhls.
      eexists _, _, _. split; [exact Hhls|]. split; [reflexivity|].
      split; [reflexivity|]. split; [|split; assumption].
      rewrite (Hhsl _ _ _ Hhls), Hs, Hl, (scaled_360 _ Hh). reflexivity.
Qed.

End ColorFacts.

(** ** The text rasterizer *)

Module RasterFacts.
Import Wallpaper.

Lemma putpixel_size (im im' : PIL.image) (xy : Z * Z) (rgb : Z * Z * Z) :
  PIL.putpixel im xy rgb = Ok im' -> PIL.size im' = PIL.size im.
Proof.
  destruct xy as [x y], rgb as [[r g] b]. unfold PIL.putpixel.
  destruct (_ || _); [discriminate|]. intros [= <-]. reflexivity.
Qed.

Lemma putpixel_inside (im : PIL.image) (x y : Z) (rgb : Z * Z * Z) :
  0 <= x < PIL.width im -> 0 <= y < PIL.height im ->
  returns (PIL.putpixel im (x, y) rgb).
Proof.
  intros Hx Hy. destruct rgb as [[r g] b]. unfold PIL.putpixel.
  assert (Hx0 : (x <? 0) = false) by (apply Z.ltb_ge; lia).
  assert (Hy0 : (y <? 0) = false) by (apply Z.ltb_ge; lia).
  assert (Hx1 : (PIL.width im <=? x) = false) by (apply Z.leb_gt; lia).
  assert (Hy1 : (PIL.height im <=? y) = false) by (apply Z.leb_gt; lia).
  cbv zeta. do 2 (rewrite ?Hx0, ?Hy0, ?Hx1, ?Hy1; cbv iota).
  cbn [orb]. eexists; reflexivity.
Qed.

Section Font.
Variable font : ascii -> list (list bool).
Variable self : t.

Lemma paint_row_size offset y row : forall xi img x img' x',
  paint_row self offset y row xi img x = Ok (img', x') ->
  PIL.size img' = PIL.size img.
Proof.
  induction row as [|cell row IH]; intros xi img x img' x'; cbn [paint_row].
  - now intros [= <- _].
  - destruct cell.
    + destruct (PIL.putpixel _ _ _) as [img1|] eqn:E; [|discriminate].
      cbn [bind]. intros H. apply IH in H. rewrite H.
      exact (putpixel_size _ _ _ _ E).
    + cbn [bind]. apply IH.
Qed.

Lemma paint_rows_size offset rows : forall yi img x img' x',
  paint_rows self offset rows yi img x = Ok (img', x') ->
  PIL.size img' = PIL.size img.
Proof.
  induction rows as [|row rows IH]; intros yi img x img' x'; cbn [paint_rows].
  - now intros [= <- _].
  - destruct (paint_row _ _ _ _ _ _ _) as [[img1 x1]|] eqn:E; [|discriminate].
    cbn [bind]. intros H. apply IH in H. rewrite H.
    exact (paint_row_size _ _ _ _ _ _ _ _ E).
Qed.

Lemma paint_char_size st char st' :
  paint_char font self st char = Ok st' ->
  PIL.size (fst (fst st')) = PIL.size (fst (fst st)).
Proof.
  destruct st as [[img offset] x]. unfold paint_char.
  destruct (paint_rows _ _ _ _ _ _) as [[img1 x1]|] eqn:E; [|discriminate].
  cbn [bind]. intros [= <-]. exact (paint_rows_size _ _ _ _ _ _ _ E).
Qed.

Lemma paint_text_size text : forall st st',
  paint_text font self text st = Ok st' ->
  PIL.size (fst (fst st')) = PIL.size (fst (fst st)).
Proof.
  induction text as [|char text IH]; intros st st'; cbn [paint_text].
  - now intros [= <-].
  - destruct (paint_char _ _ _ _) as [st1|] eqn:E; [|discriminate].
    cbn [bind]. intros H. apply IH in H. rewrite H.
    exact (paint_char_size _ _ _ E).
Qed.

(** What [generate_text] returns is as wide as the glyphs less one pixel,
    and eight pixels high. *)
Lemma generate_text_size text img :
  generate_text font self text = Ok img ->
  exists n, sum_widths font (list_ascii_of_string text) = Ok n /\
            PIL.size img = (n - 1, 8).
Proof.
  unfold generate_text.
  destruct (sum_widths _ _) as [n|]; [|discriminate]. cbn [bind].
  destruct (PIL.new _ _) as [img0|] eqn:E0; [|discriminate]. cbn [bind].
  destruct (paint_text _ _ _ _) as [[[img1 o] x]|] eqn:E1; [|discriminate].
  cbn [bind]. intros [= <-]. exists n. split; [reflexivity|].
  apply paint_text_size in E1. cbn [fst] in E1. rewrite E1.
  unfold PIL.new in E0. destruct (_ || _); [discriminate|].
  now injection E0 as <-.
Qed.

(** A row whose last cell is blank is painted whenever all its cells but
    the last fall inside the image; [x] ends on the last column. *)
Lemma paint_row_spaced offset y row : forall xi img x,
  List.last row true = false ->
  0 <= y < PIL.height img ->
  0 <= offset + xi ->
  offset + xi + Z.of_nat (List.length row) - 1 <= PIL.width img ->
  exists img',
    paint_row self offset y row xi img x
    = Ok (img', xi + Z.of_nat (List.length row) - 1).
Proof.
  induction row as [|cell row IH]; intros xi img x Hlast Hy Hlo Hhi.
  - discriminate.
  - cbn [paint_row]. destruct row as [|cell' row].
    + cbn in Hlast. subst cell. cbn [bind paint_row List.length].
      exists img. do 2 f_equal. lia.
    + assert (Hlast' : List.last (cell' :: row) true = false) by exact Hlast.
      cbn [List.length] in Hhi.
      assert (Hput : exists img1,
        (if cell then PIL.putpixel img (offset + xi, y) (Color.rgb (color2 self))
         else Ok img) = Ok img1 /\ PIL.size img1 = PIL.size img).
      { destruct cell; [|eauto].
        destruct (putpixel_inside img (offset + xi) y (Color.rgb (color2 self)))
          as [img1 E]; [lia|exact Hy|].
        exists img1. split; [exact E|exact (putpixel_size _ _ _ _ E)]. }
      destruct Hput as (img1 & -> & Hsz). cbn [bind].
      destruct (IH (xi + 1) img1 xi Hlast') as [img' E].
      * unfold PIL.height. rewrite Hsz. exact Hy.
      * lia.
      * unfold PIL.width. rewrite Hsz. fold (PIL.width img).
        cbn [List.length]. lia.
      * exists img'. rewrite E. do 2 f_equal. cbn [List.length]. lia.
Qed.

Lemma paint_rows_spaced offset (w : nat) rows : forall yi img x,
  forallb (spaced_row w) rows = true ->
  0 <= yi -> yi + Z.of_nat (List.length rows) <= PIL.height img ->
  0 <= offset -> offset + Z.of_nat w - 1 <= PIL.width img ->
  exists img',
    paint_rows self offset rows yi img x
    = Ok (img', match rows with [] => x | _ => Z.of_nat w - 1 end).
Proof.
  induction rows as [|row rows IH]; intros yi img x Hrows Hy0 Hy1 Ho0 Ho1.
  - exists img. reflexivity.
  - cbn [forallb] in Hrows. apply andb_prop in Hrows as [Hrow Hrows].
    unfold spaced_row in Hrow. apply andb_prop in Hrow as [Hlen Hlast].
    apply Nat.eqb_eq in Hlen. apply negb_true_iff in Hlast.
    cbn [List.length] in Hy1. cbn [paint_rows].
    destruct (paint_row_spaced offset yi row 0 img x Hlast) as [img1 E];
      [lia | lia | rewrite Hlen; lia |].
    rewrite E. cbn [bind].
    destruct (IH (yi + 1) img1 (0 + Z.of_nat (List.length row) - 1) Hrows)
      as [img' E']; try lia.
    * unfold PIL.height. rewrite (paint_row_size _ _ _ _ _ _ _ _ E).
      fold (PIL.height img). lia.
    * unfold PIL.width. rewrite (paint_row_size _ _ _ _ _ _ _ _ E).
      exact Ho1.
    * exists img'. rewrite E'. do 2 f_equal.
      destruct rows; [rewrite Hlen; lia | reflexivity].
Qed.

Lemma spaced_glyph_width char :
  spaced_glyph (font char) = true ->
  exists w : nat,
    glyph_width (font char) = Ok (Z.of_nat w) /\
    Z.of_nat (List.length (hd [] (font char))) = Z.of_nat w /\
    (1 <= w)%nat /\ font char <> [] /\
    (List.length (font char) <= 8)%nat /\
    forallb (spaced_row w) (font char) = true.
Proof.
  unfold spaced_glyph. destruct (font char) as [|row rows]; [discriminate|].
  intros H. apply andb_prop in H as [Hlen Hrows].
  exists (List.length row). repeat split; try easy.
  - cbn [forallb] in Hrows. apply andb_prop in Hrows as [Hrow _].
    unfold spaced_row in Hrow. apply andb_prop in Hrow as [_ Hlast].
    destruct row; [discriminate | cbn; lia].
  - now apply Nat.leb_le.
Qed.

(** Painting a character moves the offset by the width of its glyph:
    [x] stops on the last column, and [offset += x + 1]. *)
Lemma paint_char_spaced img offset x char :
  spaced_glyph (font char) = true ->
  PIL.height img = 8 ->
  forall w, glyph_width (font char) = Ok w ->
  0 <= offset -> offset + w - 1 <= PIL.width img ->
  exists img',
    paint_char font self (img, offset, x) char = Ok (img', offset + w, w - 1).
Proof.
  intros Hg Hh w Hw Ho0 Ho1.
  destruct (spaced_glyph_width char Hg) as (w' & Hw' & _ & Hpos & Hne & Hlen & Hrows).
  rewrite Hw in Hw'. injection Hw' as ->.
  unfold paint_char.
  destruct (paint_rows_spaced offset w' (font char) 0 img x Hrows) as [img' E];
    try lia.
  rewrite E. cbn [bind]. exists img'.
  destruct (font char); [congruence|]. do 3 f_equal. lia.
Qed.

Lemma sum_widths_app pre post :
  sum_widths font (pre ++ post)
  = do a <- sum_widths font pre ;; do b <- sum_widths font post ;; Ok (a + b).
Proof.
  induction pre as [|char pre IH]; cbn [sum_widths List.app].
  - cbn [bind]. destruct (sum_widths font post); reflexivity.
  - destruct (glyph_width (font char)) as [w|]; [|reflexivity]. cbn [bind].
    rewrite IH. destruct (sum_widths font pre) as [a|]; [|reflexivity].
    cbn [bind]. destruct (sum_widths font post) as [b|]; [|reflexivity].
    cbn [bind]. f_equal. lia.
Qed.

Lemma sum_widths_spaced text :
  spaced_text font text ->
  exists n, sum_widths font text = Ok n /\
            n = visible_widths font text + Z.of_nat (List.length text) /\
            Z.of_nat (List.length text) <= n.
Proof.
  induction text as [|char text IH]; intros Hs.
  - exists 0. cbn. repeat split; lia.
  - destruct IH as (n & E & Hn & Hle).
    { intros c Hc. apply Hs. now right. }
    destruct (spaced_glyph_width char (Hs char (or_introl eq_refl)))
      as (w & Hw & Hhd & Hpos & _).
    exists (Z.of_nat w + n). cbn [sum_widths visible_widths List.length].
    rewrite Hw, E. cbn [bind]. rewrite Hhd. repeat split; lia.
Qed.

Lemma paint_text_app pre post st :
  paint_text font self (pre ++ post) st
  = do st' <- paint_text font self pre st ;; paint_text font self post st'.
Proof.
  revert st. induction pre as [|char pre IH]; intros st; cbn [paint_text List.app].
  - reflexivity.
  - destruct (paint_char font self st char) as [st1|]; [|reflexivity].
    cbn [bind]. apply IH.
Qed.

(** The whole loop: the offset ends after the last glyph. *)
Lemma paint_text_spaced text : forall img offset x n,
  spaced_text font text ->
  sum_widths font text = Ok n ->
  PIL.height img = 8 ->
  0 <= offset -> offset + n - 1 <= PIL.width img ->
  exists img' x',
    paint_text font self text (img, offset, x) = Ok (img', offset + n, x').
Proof.
  induction text as [|char text IH]; intros img offset x n Hs Hn Hh Ho0 Ho1.
  - cbn in Hn. injection Hn as <-. exists img, x. cbn. do 3 f_equal. lia.
  - assert (Hs' : spaced_text font text).
    { intros c Hc. apply Hs. now right. }
    destruct (sum_widths_spaced text Hs') as (n' & En' & _ & Hn').
    destruct (spaced_glyph_width char (Hs char (or_introl eq_refl)))
      as (w & Hw & _ & Hpos & _).
    cbn [sum_widths] in Hn. rewrite Hw, En' in Hn. cbn [bind] in Hn.
    injection Hn as <-.
    destruct (paint_char_spaced img offset x char
                (Hs char (or_introl eq_refl)) Hh _ Hw Ho0) as [img1 E1]; [lia|].
    cbn [paint_text]. rewrite E1. cbn [bind].
    destruct (IH img1 (offset + Z.of_nat w) (Z.of_nat w - 1) n' Hs' En')
      as (img' & x' & E'); try lia.
    + unfold PIL.height.
      rewrite (paint_char_size _ _ _ E1 : PIL.size img1 = PIL.size img).
      exact Hh.
    + unfold PIL.width.
      rewrite (paint_char_size _ _ _ E1 : PIL.size img1 = PIL.size img).
      fold (PIL.width img). lia.
    + exists img', x'. rewrite E'. do 3 f_equal. lia.
Qed.

Lemma new_size w fill :
  0 <= w -> exists img, PIL.new (w, 8) fill = Ok img /\ PIL.size img = (w, 8).
Proof.
  intros Hw. unfold PIL.new. destruct (Z.ltb_spec w 0); [lia|].
  cbn [orb]. change (8 <? 0) with false. cbv iota. eauto.
Qed.

(** C1, as the code has it. For a non-empty text over glyphs that carry
    their spacing, [generate_text] returns an image eight pixels high
    whose width is the sum [n] of the glyph widths less one, that is the
    lit widths plus one spacer between neighbours; painting a character
    moves the offset by the width of its glyph, [x + 1] with [x] on the
    last column. *)
Theorem generate_text_width (text : string) :
  text <> EmptyString ->
  spaced_text font (list_ascii_of_string text) ->
  let chars := list_ascii_of_string text in
  exists n img blank,
    sum_widths font chars = Ok n /\
    generate_text font self text = Ok img /\
    PIL.size img = (n - 1, 8) /\
    n - 1 = visible_widths font chars + (Z.of_nat (List.length chars) - 1) /\
    PIL.new (n - 1, 8) (0, 0, 0, 0) = Ok blank /\
    forall pre char post, chars = pre ++ char :: post ->
      exists img1 offset x1 img2 w,
        paint_text font self pre (blank, 0, 0) = Ok (img1, offset, x1) /\
        glyph_width (font char) = Ok w /\
        paint_char font self (img1, offset, x1) char
        = Ok (img2, offset + w, w - 1).
Proof.
  intros Hne Hs chars.
  assert (Hchars : list_ascii_of_string text = chars) by reflexivity.
  assert (Hlen : (1 <= List.length chars)%nat).
  { subst chars. destruct text; [congruence | cbn; lia]. }
  clearbody chars. rewrite Hchars in Hs.
  destruct (sum_widths_spaced chars Hs) as (n & En & Hn & Hle).
  destruct (new_size (n - 1) (0, 0, 0, 0)) as (blank & Eb & Hb); [lia|].
  destruct (paint_text_spaced chars blank 0 0 n Hs En) as (img & x & Ep).
  { unfold PIL.height. now rewrite Hb. }
  { lia. }
  { unfold PIL.width. rewrite Hb. cbn. lia. }
  exists n, img, blank.
  assert (Eg : generate_text font self text = Ok img).
  { unfold generate_text. rewrite Hchars. cbv zeta. rewrite En. cbn [bind].
    rewrite Eb. cbn [bind]. rewrite Ep. reflexivity. }
  split; [exact En|]. split; [exact Eg|].
  split. { destruct (generate_text_size text img Eg) as (n' & En' & Hsz).
           rewrite Hchars in En'. congruence. }
  split; [lia|]. split; [exact Eb|].
  intros pre char post Hsplit.
  assert (Hpre : spaced_text font pre).
  { intros c Hc. apply Hs. rewrite Hsplit. apply in_or_app. now left. }
  assert (Hchar : spaced_glyph (font char) = true).
  { apply Hs. rewrite Hsplit. apply in_or_app. right. now left. }
  assert (Hpost : spaced_text font post).
  { intros c Hc. apply Hs. rewrite Hsplit. apply in_or_app. right. now right. }
  destruct (sum_widths_spaced pre Hpre) as (a & Ea & _ & Ha).
  destruct (sum_widths_spaced post Hpost) as (c & Ec & _ & Hc).
  destruct (spaced_glyph_width char Hchar) as (w & Ew & _ & Hw & _).
  assert (Hsum : n = a + (Z.of_nat w + c)).
  { rewrite Hsplit, sum_widths_app, Ea in En. cbn [bind sum_widths] in En.
    rewrite Ew, Ec in En. cbn [bind] in En. now injection En as <-. }
  destruct (paint_text_spaced pre blank 0 0 a Hpre Ea) as (img1 & x1 & E1).
  { unfold PIL.height. now rewrite Hb. }
  { lia. }
  { unfold PIL.width. rewrite Hb. cbn. lia. }
  assert (Hsz1 : PIL.size img1 = (n - 1, 8)).
  { rewrite <- Hb. exact (paint_text_size _ _ _ E1). }
  destruct (paint_char_spaced img1 (0 + a) x1 char Hchar) with (w := Z.of_nat w)
    as [img2 E2]; try lia.
  { unfold PIL.height. now rewrite Hsz1. }
  { exact Ew. }
  { unfold PIL.width. rewrite Hsz1. cbn. lia. }
  exists img1, (0 + a), x1, img2, (Z.of_nat w). auto.
Qed.
(** C3, on the code. For the empty text the sum of the widths is 0, the
    width asked of [Image.new] is [-1], and [generate_text] raises
    [ValueError] instead of returning an image of width 0. *)
Theorem generate_text_empty :
  sum_widths font (list_ascii_of_string "") = Ok 0 /\
  PIL.new (0 - 1, 8) (0, 0, 0, 0) = Raise ValueError /\
  generate_text font self "" = Raise ValueError.
Proof. repeat split. Qed.
End Font.
End RasterFacts.

(** ** The badge layout and the canvas *)

Module LayoutFacts.
Import Wallpaper RasterFacts.

Lemma split_last_space_spec (s a b : string) :
  split_last_space s = Some (a, b) ->
  s = a +:+ " " +:+ b /\ no_space b = true.
Proof.
  revert a. induction s as [|c s IH]; intros a; cbn [split_last_space].
  - discriminate.
  - destruct (split_last_space s) as [[a' b']|] eqn:E.
    + intros [= <- <-]. destruct (IH a' eq_refl) as [-> Hb]. split; [reflexivity|exact Hb].
    + destruct (Ascii.eqb_spec c " ") as [->|]; [|discriminate].
      intros [= <- <-]. split; [reflexivity|].
      clear IH. induction s as [|c' s IHs]; [reflexivity|].
      cbn [split_last_space] in E.
      destruct (split_last_space s) as [[? ?]|]; [discriminate|].
      cbn [no_space]. destruct (Ascii.eqb c' " "); [discriminate|].
      cbn [negb andb]. now apply IHs.
Qed.

Lemma split_last_space_none (s : string) :
  no_space s = true -> split_last_space s = None.
Proof.
  induction s as [|c s IH]; [reflexivity|]. cbn [no_space split_last_space].
  intros H. apply andb_prop in H as [Hc Hs]. rewrite (IH Hs).
  apply negb_true_iff in Hc. now rewrite Hc.
Qed.

(** The last space of [a + ' ' + b] is the one written, when [b] has
    none. *)
Lemma split_last_space_app (a b : string) :
  no_space b = true -> split_last_space (a +:+ " " +:+ b) = Some (a, b).
Proof.
  intros Hb. induction a as [|c a IH].
  - change (split_last_space (String " " b) = Some (EmptyString, b)).
    cbn [split_last_space]. now rewrite (split_last_space_none b Hb).
  - change (String c a +:+ " " +:+ b) with (String c (a +:+ " " +:+ b)).
    cbn [split_last_space]. now rewrite IH.
Qed.

Section Font.
Variable font : ascii -> list (list bool).
Variable self : t.

Lemma generate_text_height text img :
  generate_text font self text = Ok img -> PIL.height img = 8.
Proof.
  intros H. destruct (generate_text_size font self text img H) as (n & _ & Hsz).
  unfold PIL.height. now rewrite Hsz.
Qed.

(** The name block when its lines render. A name at most 112 pixels wide
    is laid on one line at [x = 8]; a wider name is split at its last
    space, and the second line is laid 12 pixels below the first, both at
    [x = 8]. *)
Lemma name_layout (img : PIL.canvas) (text : string) (name : PIL.image) :
  Color.name (color self) = Some text ->
  generate_text font self text = Ok name ->
  (PIL.width name <= 112 ->
   decoration_name font self img
   = Ok (PIL.draw img (PIL.AlphaComposite name (8, 8)), 8)) /\
  (forall text1 text2 line1 line2,
     112 < PIL.width name ->
     text = text1 +:+ " " +:+ text2 -> no_space text2 = true ->
     generate_text font self text1 = Ok line1 ->
     generate_text font self text2 = Ok line2 ->
     decoration_name font self img
     = Ok (PIL.draw (PIL.draw img (PIL.AlphaComposite line1 (8, 8)))
             (PIL.AlphaComposite line2 (8, 8 + 12)), 8 + 12)).
Proof.
  intros Hname Htext.
  pose proof (generate_text_height text name Htext) as Hh.
  assert (Hsz : PIL.size name = (PIL.width name, 8)).
  { unfold PIL.height in Hh. unfold PIL.width.
    destruct (PIL.size name) as [w h]. cbn in *. now subst. }
  split.
  - intros Hw. unfold decoration_name. rewrite Hname. cbn [text_of bind].
    rewrite Htext. cbn [bind]. rewrite Hsz.
    destruct (Z.leb_spec (PIL.width name) 112); [reflexivity | lia].
  - intros text1 text2 line1 line2 Hw Hsplit Hns H1 H2.
    unfold decoration_name. rewrite Hname. cbn [text_of bind].
    rewrite Htext. cbn [bind]. rewrite Hsz.
    destruct (Z.leb_spec (PIL.width name) 112); [lia|].
    unfold rsplit1. rewrite Hsplit, (split_last_space_app text1 text2 Hns).
    cbn [unpack2 bind]. rewrite H1. cbn [bind]. rewrite H2. reflexivity.
Qed.

(** A name wider than 112 pixels without a space cannot be unpacked into
    two lines. *)
Lemma name_without_space (img : PIL.canvas) (text : string) (name : PIL.image) :
  Color.name (color self) = Some text ->
  generate_text font self text = Ok name ->
  112 < PIL.width name -> no_space text = true ->
  decoration_name font self img = Raise ValueError.
Proof.
  intros Hname Htext Hw Hns. unfold decoration_name.
  rewrite Hname. cbn [text_of bind]. rewrite Htext. cbn [bind].
  destruct (PIL.size name) as [w h] eqn:Hsz.
  unfold PIL.width in Hw. rewrite Hsz in Hw. cbn [fst] in Hw.
  destruct (Z.leb_spec w 112); [lia|].
  unfold rsplit1. now rewrite (split_last_space_none text Hns).
Qed.

(** C5, on the code. A name wider than 112 pixels whose last space is
    its first character, or its last one, is split into an empty text and
    the rest; the empty text cannot be rendered, and [decoration_name]
    raises [ValueError] where the claim has two lines. *)
Theorem name_layout_empty_line (img : PIL.canvas) (text : string)
    (name : PIL.image) :
  Color.name (color self) = Some text ->
  generate_text font self text = Ok name ->
  112 < PIL.width name ->
  (forall word, text = " " +:+ word -> no_space word = true ->
     rsplit1 text = [EmptyString; word] /\
     generate_text font self EmptyString = Raise ValueError /\
     decoration_name font self img = Raise ValueError) /\
  (forall words line1, text = words +:+ " " ->
     generate_text font self words = Ok line1 ->
     rsplit1 text = [words; EmptyString] /\
     decoration_name font self img = Raise ValueError).
Proof.
  intros Hname Htext Hw.
  assert (Hwide : forall text1 text2,
            rsplit1 text = [text1; text2] ->
            decoration_name font self img
            = do line1 <- generate_text font self text1 ;;
              do line2 <- generate_text font self text2 ;;
              Ok (PIL.draw (PIL.draw img (PIL.AlphaComposite line1 (8, 8)))
                    (PIL.AlphaComposite line2 (8, 8 + 12)), 8 + 12)).
  { intros text1 text2 Hsplit. unfold decoration_name.
    rewrite Hname. cbn [text_of bind]. rewrite Htext. cbn [bind].
    pose proof (generate_text_height text name Htext) as Hh.
    destruct (PIL.size name) as [w h] eqn:Hsz.
    unfold PIL.width in Hw. unfold PIL.height in Hh. rewrite Hsz in Hw, Hh.
    cbn [fst snd] in Hw, Hh. subst h.
    destruct (Z.leb_spec w 112); [lia|].
    rewrite Hsplit. cbn [unpack2 bind].
    destruct (generate_text font self text1) as [line1|]; [|reflexivity].
    cbn [bind].
    destruct (generate_text font self text2) as [line2|]; reflexivity. }
  split.
  - intros word -> Hns.
    assert (Hsplit : rsplit1 (" " +:+ word) = [EmptyString; word]).
    { unfold rsplit1.
      change (" " +:+ word) with (EmptyString +:+ " " +:+ word).
      now rewrite (split_last_space_app EmptyString word Hns). }
    split; [exact Hsplit|]. split; [reflexivity|].
    rewrite (Hwide _ _ Hsplit). reflexivity.
  - intros words line1 -> Hline.
    assert (Hsplit : rsplit1 (words +:+ " ") = [words; EmptyString]).
    { unfold rsplit1.
      change (words +:+ " ") with (words +:+ " " +:+ EmptyString).
      now rewrite (split_last_space_app words EmptyString eq_refl). }
    split; [exact Hsplit|].
    rewrite (Hwide _ _ Hsplit), Hline. reflexivity.
Qed.

(** C2, as the code has it. In a format row the label is laid at
    [x = 8] and the value at [x = 3 + 5 + label.size[0]], which is
    [8 + label.size[0]], on the same line 12 pixels further down. *)
Theorem row_layout (rows : gmap string (string * string)) (img : PIL.canvas)
    (y : Z) (key lbl val : string) (label value : PIL.image) :
  rows !! key = Some (lbl, val) ->
  generate_text font self lbl = Ok label ->
  generate_text font self val = Ok value ->
  decoration_row font self rows (img, y) key
  = Ok (PIL.draw (PIL.draw img (PIL.AlphaComposite label (8, y + 12)))
          (PIL.AlphaComposite value (8 + PIL.width label, y + 12)), y + 12).
Proof.
  intros Hrow Hl Hv. unfold decoration_row. rewrite Hrow. cbn [bind fst snd].
  rewrite Hl. cbn [bind]. rewrite Hv. cbn [bind].
  replace (3 + 5 + PIL.width label) with (8 + PIL.width label) by lia.
  reflexivity.
Qed.

End Font.

(** C7. For the resolution 1920x1080 the badge is 256 pixels wide and is
    laid at (832, 412). *)
Theorem decor_size_full_hd :
  Wallpaper.decor_size (1920, 1080) = Ok 256 /\
  Wallpaper.decor_offset (1920, 1080) 256 = (832, 412).
Proof. split; vm_compute; reflexivity. Qed.

End LayoutFacts.

Module OptionsFacts.
Import Options.

(** C10, on the code. ["255,2,141"] is not a hex colour and matches
    [rgb_re] with the groups 255, 2 and 141, but [color] converts the
    groups 0, 1 and 2: group 0 is the whole text, which [int] refuses. *)
Theorem rgb_argument_is_refused (color_to_hex pretty_names : gmap string string) :
  fullmatch hex_re "255,2,141" = None /\
  (exists m, fullmatch rgb_re "255,2,141" = Some m /\
             group m 0 = Some "255,2,141" /\ group m 1 = Some "255" /\
             group m 2 = Some "2" /\ group m 3 = Some "141") /\
  color color_to_hex pretty_names "255,2,141" = Raise ValueError.
Proof.
  split; [reflexivity|]. split; [|reflexivity].
  eexists. split; [reflexivity|]. repeat split.
Qed.

(** What [color] accepts carries a capitalized or pretty name: of
    ["anonymous"], or of a key of [color_to_hex]. *)
Lemma color_name (color_to_hex pretty_names : gmap string string)
    (arg : string) (c : Color.t) :
  color color_to_hex pretty_names arg = Ok c ->
  exists key : string,
    Color.name c = Some (default (capitalize key) (pretty_names !! key)) /\
    (key = "anonymous"%string \/ is_Some (color_to_hex !! key)).
Proof.
  unfold color.
  destruct (fullmatch hex_re arg) as [m|].
  - destruct (parse_hex (group m 1)) as [rgb|]; [|discriminate].
    cbn [bind]. intros [= <-]. exists "anonymous"%string. auto.
  - destruct (fullmatch rgb_re arg) as [m|].
    + destruct (int_tuple _ _ _) as [rgb|]; [|discriminate]. cbn [bind].
      destruct (all_bytes rgb); [|discriminate].
      cbn [bind]. intros [= <-]. exists "anonymous"%string. auto.
    + destruct (color_to_hex !! normalized arg) as [hex|] eqn:E; [|discriminate].
      destruct (parse_hex (Some hex)) as [rgb|]; [|discriminate].
      cbn [bind]. intros [= <-]. exists (normalized arg).
      split; [reflexivity|]. right. rewrite E. eauto.
Qed.

Example color_of_hex :
  color Sample.color_to_hex Sample.pretty_names " #FF028d "
  = Ok (Color.Make (255, 2, 141) (Some "Anonymous"%string)).
Proof. vm_compute. reflexivity. Qed.

Example color_of_name :
  color Sample.color_to_hex Sample.pretty_names "Hot Pink"
  = Ok (Color.Make (255, 2, 141) (Some "Hot Pink"%string)).
Proof. vm_compute. reflexivity. Qed.

Example color_of_unknown_name :
  color Sample.color_to_hex Sample.pretty_names "no such colour"
  = Raise ArgumentTypeError.
Proof. vm_compute. reflexivity. Qed.

(** The name of an inverted colour is the bare dictionary entry: no
    capital, no pretty name, and [None] when there is no entry. *)
Lemma inverted_color_name (hex_to_color : gmap string string) (r g b : Z) :
  Color.name (inverted_color hex_to_color (r, g, b))
  = hex_to_color !! (format_02x true (255 - r) +:+ format_02x true (255 - g)
                     +:+ format_02x true (255 - b)).
Proof. reflexivity. Qed.

(** C9, on the code. With no highlight colour given, the default
    background (255, 2, 141) is inverted to (0, 253, 114); when the table has
    no entry for ["00fd72"] the name of that colour is [None], neither a
    table name nor ["Anonymous"]. *)
Theorem default_highlight_unnamed (hex_to_color : gmap string string) :
  hex_to_color !! "00fd72"%string = None ->
  highlight hex_to_color default_color None = Color.Make (0, 253, 114) None.
Proof.
  intros H. unfold highlight, default_color. cbn [Color.rgb].
  unfold inverted_color.
  change (format_02x true (255 - 255) +:+ format_02x true (255 - 2)
          +:+ format_02x true (255 - 141)) with "00fd72"%string.
  now rewrite H.
Qed.

End OptionsFacts.

(** ** The theorems at work on the sample glyph table *)

Module Examples.
Import Bytes.

Lemma cmyk_total_on_bytes_witness :
  byte 255 /\ byte 2 /\ byte 141 /\
  exists k,
    Color.cmyk_key (255, 2, 141) = Ok k /\
    returns (Color.cmyk (255, 2, 141)) /\
    (PrimFloat.eqb k 1%float = false ->
     PrimFloat.eqb (PrimFloat.sub 1%float k) 0%float = false).
Proof.
  assert (H255 : byte 255) by (unfold byte; lia).
  assert (H2 : byte 2) by (unfold byte; lia).
  assert (H141 : byte 141) by (unfold byte; lia).
  repeat (split; [assumption|]).
  destruct (ColorFacts.cmyk_total_on_bytes 255 2 141 H255 H2 H141)
    as (k & Hk & Hret & _ & Hdiv & _).
  exists k. auto.
Defined.

Lemma hsl_components_witness :
  byte 255 /\ byte 2 /\ byte 141 /\
  exists h l s,
    Colorsys.rgb_to_hls (unit 255) (unit 2) (unit 141) = Ok (h, l, s) /\
    Color.hsl (255, 2, 141) = Ok (degrees h, percent s, percent l) /\
    0 <= percent s <= 100 /\ 0 <= percent l <= 100.
Proof.
  assert (H255 : byte 255) by (unfold byte; lia).
  assert (H2 : byte 2) by (unfold byte; lia).
  assert (H141 : byte 141) by (unfold byte; lia).
  repeat (split; [assumption|]).
  destruct (ColorFacts.hsl_components 255 2 141 H255 H2 H141)
    as (h & l & s & Hhls & _ & _ & Hhsl & Hs & Hl).
  exists h, l, s. auto.
Defined.

Lemma grey_has_no_saturation_witness :
  byte 128 /\
  (exists h v, Color.hsv (128, 128, 128) = Ok (h, 0, v)) /\
  (exists h l, Color.hsl (128, 128, 128) = Ok (h, 0, l)).
Proof.
  assert (H : byte 128) by (unfold byte; lia).
  split; [exact H|]. exact (ColorFacts.grey_has_no_saturation 128 H).
Defined.

Lemma generate_text_width_witness :
  "Hi"%string <> EmptyString /\
  Wallpaper.spaced_text Sample.font (list_ascii_of_string "Hi") /\
  exists n img,
    Wallpaper.sum_widths Sample.font (list_ascii_of_string "Hi") = Ok n /\
    Wallpaper.generate_text Sample.font (Sample.wallpaper "Hot Pink") "Hi"
    = Ok img /\
    PIL.size img = (n - 1, 8).
Proof.
  assert (H1 : "Hi"%string <> EmptyString) by discriminate.
  assert (H2 : Wallpaper.spaced_text Sample.font (list_ascii_of_string "Hi")).
  { intros c [<- | [<- | []]]; reflexivity. }
  split; [exact H1|]. split; [exact H2|].
  destruct (RasterFacts.generate_text_width Sample.font
              (Sample.wallpaper "Hot Pink") "Hi" H1 H2)
    as (n & img & blank & E1 & E2 & E3 & _).
  exists n, img. auto.
Defined.

(** With the sample glyphs, ["Hi"] is 6 + 6 - 1 = 11 pixels wide, not
    6 + 6 + 1, and painting ["H"] moves the offset by 6, not by 7. *)
Lemma generate_text_width_counterexample :
  let self := Sample.wallpaper "Hot Pink" in
  exists n img blank img',
    Wallpaper.sum_widths Sample.font (list_ascii_of_string "Hi") = Ok n /\
    Wallpaper.generate_text Sample.font self "Hi" = Ok img /\
    PIL.width img <> n + (Z.of_nat (String.length "Hi") - 1) /\
    PIL.new (n - 1, 8) (0, 0, 0, 0) = Ok blank /\
    Wallpaper.glyph_width (Sample.font "H") = Ok 6 /\
    Wallpaper.paint_char Sample.font self (blank, 0, 0) "H" = Ok (img', 6, 5) /\
    6 <> 0 + (6 + 1).
Proof.
  intros self. eexists _, _, _, _.
  split; [vm_compute; reflexivity|].
  split; [vm_compute; reflexivity|].
  split; [intros H; vm_compute in H; discriminate|].
  split; [vm_compute; reflexivity|].
  split; [vm_compute; reflexivity|].
  split; [vm_compute; reflexivity|].
  discriminate.
Qed.

Lemma row_layout_witness :
  let self := Sample.wallpaper "Hot Pink" in
  let img := PIL.Canvas (128, 128) [] in
  let rows : gmap string (string * string) :=
    {[ "hex"%string := ("HEX "%string, "FF028D"%string) ]} in
  exists label value,
    rows !! "hex"%string = Some ("HEX "%string, "FF028D"%string) /\
    Wallpaper.generate_text Sample.font self "HEX " = Ok label /\
    Wallpaper.generate_text Sample.font self "FF028D" = Ok value /\
    Wallpaper.decoration_row Sample.font self rows (img, 20) "hex"
    = Ok (PIL.draw (PIL.draw img (PIL.AlphaComposite label (8, 20 + 12)))
            (PIL.AlphaComposite value (8 + PIL.width label, 20 + 12)),
          20 + 12).
Proof.
  intros self img rows.
  destruct (Wallpaper.generate_text Sample.font self "HEX ") as [label|] eqn:El;
    [|vm_compute in El; discriminate].
  destruct (Wallpaper.generate_text Sample.font self "FF028D") as [value|] eqn:Ev;
    [|vm_compute in Ev; discriminate].
  assert (Hrow : rows !! "hex"%string = Some ("HEX "%string, "FF028D"%string))
    by apply lookup_singleton_eq.
  exists label, value. repeat (split; [reflexivity || assumption|]).
  exact (LayoutFacts.row_layout Sample.font self rows img 20 "hex" "HEX "
           "FF028D" label value Hrow El Ev).
Defined.

(** With the sample glyphs, the label of the [hex] row is 19 pixels wide
    and its value is laid at [x = 8 + 19 = 27], not at
    [8 + 5 + 19 + 3 = 35]. *)
Lemma row_layout_counterexample :
  let self := Sample.wallpaper "Hot Pink" in
  let img := PIL.Canvas (128, 128) [] in
  let rows : gmap string (string * string) :=
    {[ "hex"%string := ("HEX "%string, "FF028D"%string) ]} in
  exists label value img',
    Wallpaper.generate_text Sample.font self "HEX " = Ok label /\
    Wallpaper.generate_text Sample.font self "FF028D" = Ok value /\
    PIL.width label = 19 /\
    Wallpaper.decoration_row Sample.font self rows (img, 20) "hex"
    = Ok (img', 32) /\
    List.last (PIL.drawn img') (PIL.AlphaComposite label (0, 0))
    = PIL.AlphaComposite value (27, 32) /\
    27 <> 8 + 5 + PIL.width label + 3.
Proof.
  intros self img rows. eexists _, _, _.
  split; [vm_compute; reflexivity|].
  split; [vm_compute; reflexivity|].
  split; [vm_compute; reflexivity|].
  split.
  { unfold Wallpaper.decoration_row. subst rows.
    rewrite lookup_singleton_eq. vm_compute. reflexivity. }
  split; [vm_compute; reflexivity|].
  intros H; vm_compute in H; discriminate.
Qed.

Lemma name_layout_witness :
  let self := Sample.wallpaper "Light Goldenrod Yellow" in
  let img := PIL.Canvas (128, 128) [] in
  exists name line1 line2,
    Color.name (Wallpaper.color self) = Some "Light Goldenrod Yellow"%string /\
    Wallpaper.generate_text Sample.font self "Light Goldenrod Yellow" = Ok name /\
    112 < PIL.width name /\
    Wallpaper.generate_text Sample.font self "Light Goldenrod" = Ok line1 /\
    Wallpaper.generate_text Sample.font self "Yellow" = Ok line2 /\
    Wallpaper.decoration_name Sample.font self img
    = Ok (PIL.draw (PIL.draw img (PIL.AlphaComposite line1 (8, 8)))
            (PIL.AlphaComposite line2 (8, 8 + 12)), 8 + 12).
Proof.
  intros self img.
  destruct (Wallpaper.generate_text Sample.font self "Light Goldenrod Yellow")
    as [name|] eqn:E; [|vm_compute in E; discriminate].
  destruct (Wallpaper.generate_text Sample.font self "Light Goldenrod")
    as [line1|] eqn:E1; [|vm_compute in E1; discriminate].
  destruct (Wallpaper.generate_text Sample.font self "Yellow")
    as [line2|] eqn:E2; [|vm_compute in E2; discriminate].
  assert (Hw : 112 < PIL.width name).
  { pose proof E as E'. vm_compute in E'. injection E' as <-.
    vm_compute. reflexivity. }
  exists name, line1, line2. repeat (split; [reflexivity || assumption|]).
  exact (proj2 (LayoutFacts.name_layout Sample.font self img
                  "Light Goldenrod Yellow" name eq_refl E)
           "Light Goldenrod"%string "Yellow"%string line1 line2
           Hw eq_refl eq_refl E1 E2).
Defined.

(** With the sample glyphs the name of one space and nineteen letters
    is 115 pixels wide; its first line is empty and the badge is not
    drawn. *)
Lemma name_layout_empty_line_witness :
  let self := Sample.wallpaper " AAAAAAAAAAAAAAAAAAA" in
  let img := PIL.Canvas (128, 128) [] in
  exists name,
    Color.name (Wallpaper.color self) = Some " AAAAAAAAAAAAAAAAAAA"%string /\
    Wallpaper.generate_text Sample.font self " AAAAAAAAAAAAAAAAAAA" = Ok name /\
    PIL.width name = 115 /\
    no_space "AAAAAAAAAAAAAAAAAAA" = true /\
    Wallpaper.decoration_name Sample.font self img = Raise ValueError.
Proof.
  intros self img.
  destruct (Wallpaper.generate_text Sample.font self " AAAAAAAAAAAAAAAAAAA")
    as [name|] eqn:E; [|vm_compute in E; discriminate].
  assert (Hw : PIL.width name = 115).
  { pose proof E as E'. vm_compute in E'. injection E' as <-.
    vm_compute. reflexivity. }
  exists name. repeat (split; [reflexivity || assumption|]).
  exact (proj2 (proj2 (proj1 (LayoutFacts.name_layout_empty_line Sample.font
                                self img " AAAAAAAAAAAAAAAAAAA" name eq_refl E
                                ltac:(rewrite Hw; lia))
                         "AAAAAAAAAAAAAAAAAAA"%string eq_refl eq_refl))).
Defined.

Lemma default_highlight_unnamed_witness :
  Sample.hex_to_color !! "00fd72"%string = None /\
  Options.highlight Sample.hex_to_color Options.default_color None
  = Color.Make (0, 253, 114) None.
Proof.
  assert (H : Sample.hex_to_color !! "00fd72"%string = None)
    by (vm_compute; reflexivity).
  split; [exact H|].
  exact (OptionsFacts.default_highlight_unnamed Sample.hex_to_color H).
Defined.

End Examples.

(* ===================================================================== *)
(** ** The matcher *)
(* ===================================================================== *)

Module RegexFacts.
Import Regex.

Lemma rmatch_star (a : regex) s cs k :
  rmatch (Star a) s cs k = star_iter a k (S (List.length s)) s cs.
Proof. reflexivity. Qed.

Lemma star_iter_S (a : regex) k fuel s cs :
  star_iter a k (S fuel) s cs
  = match rmatch a s cs
            (fun s' cs' =>
               if (List.length s' <? List.length s)%nat
               then star_iter a k fuel s' cs' else None)
    with
    | Some m => Some m
    | None => k s cs
    end.
Proof. reflexivity. Qed.

(** Whatever the matcher answers comes from the continuation, called on
    what is left after a text the pattern stands for. *)
Lemma rmatch_sound (r : regex) :
  forall s cs k m,
    rmatch r s cs k = Some m ->
    exists p s' cs', s = p ++ s' /\ matches r p /\ k s' cs' = Some m.
Proof.
  induction r as [|p|a IHa b IHb|a IHa b IHb|a IHa|n a IHa];
    intros s cs k m H.
  - exists [], s, cs. split; [reflexivity|]. split; [constructor|exact H].
  - cbn [rmatch] in H. destruct s as [|c s]; [discriminate|].
    destruct (p c) eqn:E; [|discriminate].
    exists [c], s, cs. split; [reflexivity|]. split; [now constructor|exact H].
  - cbn [rmatch] in H. apply IHa in H as (p1 & s1 & cs1 & -> & M1 & H).
    apply IHb in H as (p2 & s2 & cs2 & -> & M2 & H).
    exists (p1 ++ p2), s2, cs2. split; [now rewrite app_assoc|].
    split; [now constructor|exact H].
  - cbn [rmatch] in H. destruct (rmatch a s cs k) as [m'|] eqn:E.
    + injection H as <-. apply IHa in E as (p & s' & cs' & -> & M & E).
      exists p, s', cs'. split; [reflexivity|].
      split; [now apply matches_alt_l|exact E].
    + apply IHb in H as (p & s' & cs' & -> & M & H).
      exists p, s', cs'. split; [reflexivity|].
      split; [now apply matches_alt_r|exact H].
  - rewrite rmatch_star in H. revert H.
    generalize (S (List.length s)) as fuel. intros fuel. revert s cs.
    induction fuel as [|fuel IHf]; intros s cs H.
    + exists [], s, cs. split; [reflexivity|]. split; [constructor|exact H].
    + rewrite star_iter_S in H.
      destruct (rmatch a s cs _) as [m'|] eqn:E.
      * injection H as <-. apply IHa in E as (p & s' & cs' & -> & M & E).
        destruct (_ <? _)%nat; [|discriminate].
        apply IHf in E as (p2 & s2 & cs2 & -> & M2 & E).
        exists (p ++ p2), s2, cs2. split; [now rewrite app_assoc|].
        split; [now constructor|exact E].
      * exists [], s, cs. split; [reflexivity|]. split; [constructor|exact H].
  - cbn [rmatch] in H. apply IHa in H as (p & s' & cs' & -> & M & H).
    eexists p, s', _. split; [reflexivity|]. split; [now constructor|exact H].
Qed.

Lemma fullmatch_sound (r : regex) (s : string) (m : match_object) :
  fullmatch r s = Some m ->
  matches r (list_ascii_of_string s) /\ matched m = s.
Proof.
  unfold fullmatch. destruct (rmatch _ _ _ _) as [cs|] eqn:E; [|discriminate].
  intros [= <-]. split; [|reflexivity].
  apply rmatch_sound in E as (p & s' & cs' & Hs & M & E).
  destruct s'; [|discriminate]. rewrite app_nil_r in Hs. now rewrite Hs.
Qed.

End RegexFacts.

(* ===================================================================== *)
(** ** The RGB form *)
(* ===================================================================== *)

Module ParserFacts.
Import Regex RegexFacts Options.

Lemma matches_alphabet (r : regex) (s : list ascii) :
  matches r s -> forall c, In c s -> alphabet r c = true.
Proof.
  induction 1 as [|p c Hp|a b s t _ IHs _ IHt|a b s _ IH|a b s _ IH
                  | |a s t _ IHs _ IHt|n a s _ IH]; intros x Hx; cbn [alphabet].
  - destruct Hx.
  - destruct Hx as [<-|[]]. exact Hp.
  - apply orb_true_iff. apply in_app_or in Hx as [Hx|Hx]; [left|right]; auto.
  - apply orb_true_iff. left. auto.
  - apply orb_true_iff. right. auto.
  - destruct Hx.
  - apply in_app_or in Hx as [Hx|Hx]; [auto | exact (IHt x Hx)].
  - auto.
Qed.

(** A text that [rgb_re] matches holds a comma. *)
Lemma rgb_re_comma (s : list ascii) : matches rgb_re s -> In ","%char s.
Proof.
  unfold rgb_re. intros H.
  repeat match goal with
         | H : matches (Cat _ _) _ |- _ => inversion H; subst; clear H
         end.
  match goal with
  | H : matches (Lit ",") _ |- _ => inversion H; subst; clear H
  end.
  match goal with
  | H : Ascii.eqb _ _ = true |- _ => apply Ascii.eqb_eq in H; subst
  end.
  rewrite !in_app_iff. cbn. tauto.
Qed.

(** A text that [hex_re] matches holds none. *)
Lemma hex_re_no_comma (s : list ascii) : matches hex_re s -> ~ In ","%char s.
Proof.
  intros H Hin. pose proof (matches_alphabet _ _ H _ Hin) as E.
  vm_compute in E. discriminate.
Qed.

Lemma strip_left_keeps (c : ascii) (l : list ascii) :
  is_space c = false -> In c l -> In c (strip_left l).
Proof.
  intros Hc. induction l as [|x l IH]; [easy|]. cbn [strip_left].
  destruct (is_space x) eqn:E; [|easy].
  intros [->|H]; [congruence | auto].
Qed.

Lemma strip_keeps (c : ascii) (l : list ascii) :
  is_space c = false -> In c l -> In c (strip l).
Proof.
  intros Hc H. unfold strip. apply (proj1 (in_rev _ _)).
  apply strip_left_keeps; [exact Hc|]. apply (proj1 (in_rev _ _)).
  now apply strip_left_keeps.
Qed.

Lemma parse_digits_comma (base : Z) (l : list ascii) :
  In ","%char l -> forall acc after, parse_digits base acc after l = Raise ValueError.
Proof.
  induction l as [|c l IH]; [easy|]. intros Hin acc after. cbn [parse_digits].
  destruct (Ascii.eqb_spec c "_") as [->|Hc].
  - destruct Hin as [E|Hin]; [discriminate|].
    destruct after; [now apply IH | reflexivity].
  - destruct Hin as [->|Hin]; [reflexivity|].
    destruct (digit_value c) as [d|]; [|reflexivity].
    destruct (d <? base); [now apply IH | reflexivity].
Qed.

(** [int] refuses a text with a comma. *)
Lemma int_of_str_comma (s : string) :
  In ","%char (list_ascii_of_string s) -> int_of_str 10 s = Raise ValueError.
Proof.
  intros H. unfold int_of_str.
  apply (strip_keeps ","%char _ eq_refl) in H.
  destruct (strip (list_ascii_of_string s)) as [|c l] eqn:E; [destruct H|].
  assert (Hl : In ","%char (snd (skip_sign (c :: l)))).
  { cbn [skip_sign]. destruct (Ascii.eqb_spec c "-") as [->|].
    - destruct H as [H|H]; [discriminate | exact H].
    - destruct (Ascii.eqb_spec c "+") as [->|].
      + destruct H as [H|H]; [discriminate | exact H].
      + exact H. }
  destruct (skip_sign (c :: l)) as [neg l'] eqn:Es. cbn [snd] in Hl.
  assert (Hp : skip_prefix 10 l' = l').
  { destruct l' as [|z [|x l'']]; reflexivity. }
  rewrite Hp, (parse_digits_comma 10 l' Hl). reflexivity.
Qed.

(** X1. Whatever matches [rgb_re] is refused. An argument of the R,G,B form
    is no hex colour, and [color] hands group 0, the whole text with its
    commas, to [int], which raises [ValueError]: no argument is accepted
    through the RGB branch. *)
Theorem rgb_form_never_accepted (color_to_hex pretty_names : gmap string string)
    (arg : string) :
  fullmatch rgb_re arg <> None ->
  color color_to_hex pretty_names arg = Raise ValueError.
Proof.
  intros H. destruct (fullmatch rgb_re arg) as [m|] eqn:Er; [|congruence].
  destruct (fullmatch_sound _ _ _ Er) as [Mr Hm].
  pose proof (rgb_re_comma _ Mr) as Hc.
  unfold color. rewrite Er. destruct (fullmatch hex_re arg) as [mh|] eqn:Eh.
  - apply fullmatch_sound in Eh as [Mh _]. now apply hex_re_no_comma in Mh.
  - unfold int_tuple. cbn [group]. rewrite Hm. cbn [int_of_obj].
    rewrite (int_of_str_comma arg Hc). reflexivity.
Qed.

End ParserFacts.

(* ===================================================================== *)
(** ** Greedy matching of character classes *)
(* ===================================================================== *)

Module MatcherFacts.
Import Regex RegexFacts.

Lemma rmatch_cls_stop (p : ascii -> bool) rest cs k :
  stops p rest -> rmatch (Cls p) rest cs k = None.
Proof.
  destruct rest as [|c rest]; [reflexivity|]. cbn [stops rmatch]. now intros ->.
Qed.

Lemma star_iter_cls (p : ascii -> bool) rest cs k m :
  stops p rest -> k rest cs = Some m ->
  forall ds fuel, Forall (fun c => p c = true) ds ->
    (List.length ds < fuel)%nat ->
    star_iter (Cls p) k fuel (ds ++ rest) cs = Some m.
Proof.
  intros Hstop Hk. induction ds as [|d ds IH]; intros fuel Hds Hfuel.
  - destruct fuel as [|fuel]; [lia|]. rewrite star_iter_S. cbn [List.app].
    now rewrite (rmatch_cls_stop p rest cs _ Hstop).
  - destruct fuel as [|fuel]; [cbn in Hfuel; lia|]. rewrite star_iter_S.
    inversion Hds as [|? ? Hd Hds']; subst.
    cbn [List.app rmatch]. rewrite Hd.
    assert (E : (List.length (ds ++ rest) <? List.length (d :: ds ++ rest))%nat = true).
    { apply Nat.ltb_lt. cbn [List.length]. lia. }
    rewrite E. rewrite (IH fuel Hds'); [reflexivity|]. cbn in Hfuel. lia.
Qed.

(** A greedy run: [p*] takes all of [ds] when what follows stops the run
    and the continuation accepts there. *)
Lemma star_cls_greedy (p : ascii -> bool) ds rest cs k m :
  Forall (fun c => p c = true) ds -> stops p rest ->
  k rest cs = Some m ->
  rmatch (Star (Cls p)) (ds ++ rest) cs k = Some m.
Proof.
  intros Hds Hstop Hk. rewrite rmatch_star.
  apply star_iter_cls; try assumption. rewrite length_app. lia.
Qed.

Lemma plus_cls_greedy (p : ascii -> bool) d ds rest cs k m :
  Forall (fun c => p c = true) (d :: ds) -> stops p rest ->
  k rest cs = Some m ->
  rmatch (Plus (Cls p)) (d :: ds ++ rest) cs k = Some m.
Proof.
  intros Hds Hstop Hk. inversion Hds as [|? ? Hd Hds']; subst.
  unfold Plus. cbn [rmatch]. rewrite Hd. now apply star_cls_greedy.
Qed.

(** [p{n}] takes exactly [n] characters of [p]. *)
Lemma rep_cls_exact (p : ascii -> bool) rest cs k :
  forall ds, Forall (fun c => p c = true) ds ->
    rmatch (Rep (List.length ds) (Cls p)) (ds ++ rest) cs k = k rest cs.
Proof.
  induction ds as [|d ds IH]; intros Hds; [reflexivity|].
  inversion Hds as [|? ? Hd Hds']; subst.
  cbn [List.length Rep rmatch List.app]. rewrite Hd. now apply IH.
Qed.

(** [p{n}] fails on a run of [p] shorter than [n]. *)
Lemma rep_cls_short (p : ascii -> bool) rest cs k :
  stops p rest ->
  forall ds n, (List.length ds < n)%nat ->
    Forall (fun c => p c = true) ds ->
    rmatch (Rep n (Cls p)) (ds ++ rest) cs k = None.
Proof.
  intros Hstop. induction ds as [|d ds IH]; intros n Hn Hds.
  - destruct n as [|n]; [lia|]. cbn [Rep rmatch List.app].
    destruct rest as [|c rest]; [reflexivity|]. cbn in Hstop. now rewrite Hstop.
  - destruct n as [|n]; [lia|]. inversion Hds as [|? ? Hd Hds']; subst.
    cbn [Rep rmatch List.app]. rewrite Hd. apply IH; [cbn in Hn; lia | exact Hds'].
Qed.

Lemma list_of_append (a b : string) :
  list_ascii_of_string (a +:+ b)
  = list_ascii_of_string a ++ list_ascii_of_string b.
Proof.
  induction a as [|c a IH]; [reflexivity|].
  change (String c a +:+ b) with (String c (a +:+ b)).
  cbn [list_ascii_of_string List.app]. now rewrite IH.
Qed.

End MatcherFacts.

(* ===================================================================== *)
(** ** Hex colours *)
(* ===================================================================== *)

Module HexFacts.
Import Regex RegexFacts MatcherFacts Options Bytes BytesFacts.

Lemma hex_digit_facts (c : ascii) :
  is_hex_digit c = true ->
  is_space c = false /\ Ascii.eqb "#" c = false /\
  exists v, digit_value c = Some v /\ 0 <= v <= 15 /\
            int_of_str 16 (String c EmptyString) = Ok v.
Proof.
  destruct c as [[] [] [] [] [] [] [] []]; intros H; vm_compute in H;
    try discriminate H; (split; [reflexivity|]); (split; [reflexivity|]);
    eexists; (split; [vm_compute; reflexivity|]);
    (split; [vm_compute; split; discriminate|]); vm_compute; reflexivity.
Qed.

Lemma space_facts (c : ascii) :
  is_space c = true -> is_hex_digit c = false /\ is_digit c = false.
Proof.
  destruct c as [[] [] [] [] [] [] [] []]; intros H; vm_compute in H;
    try discriminate H; split; reflexivity.
Qed.

Lemma forallb_Forall (p : ascii -> bool) (l : list ascii) :
  forallb p l = true -> Forall (fun c => p c = true) l.
Proof.
  induction l as [|c l IH]; [constructor|]. cbn [forallb]. intros H.
  apply andb_prop in H as [Hc Hl]. constructor; auto.
Qed.

Lemma stops_hex_space (ws : list ascii) :
  Forall (fun c => is_space c = true) ws -> stops is_hex_digit ws.
Proof.
  destruct ws as [|c ws]; [easy|]. intros H. inversion H; subst.
  cbn [stops]. now apply space_facts.
Qed.

Lemma firstn_prefix (ds ws : list ascii) :
  firstn (List.length (ds ++ ws) - List.length ws) (ds ++ ws) = ds.
Proof.
  rewrite length_app. replace (_ + _ - _)%nat with (List.length ds + 0)%nat by lia.
  rewrite firstn_app_2. cbn. apply app_nil_r.
Qed.

(** Three or six hexadecimal digits and white space after them. *)
Lemma hex_digits_match (digits ws : list ascii) :
  Forall (fun c => is_hex_digit c = true) digits ->
  Forall (fun c => is_space c = true) ws ->
  List.length digits = 6%nat \/ List.length digits = 3%nat ->
  rmatch (Cat (Grp 1 (Alt (Rep 6 (Cls is_hex_digit)) (Rep 3 (Cls is_hex_digit))))
            (Star (Cls is_space)))
    (digits ++ ws) [] at_end
  = Some [(1%nat, digits)].
Proof.
  intros Hd Hw Hlen.
  assert (Hend : forall n,
    rmatch (Rep n (Cls is_hex_digit)) (digits ++ ws) []
      (fun s' cs' =>
         rmatch (Star (Cls is_space)) s'
           ((1%nat, firstn (List.length (digits ++ ws) - List.length s') (digits ++ ws)) :: cs')
           at_end)
    = if (n =? List.length digits)%nat then Some [(1%nat, digits)] else
      rmatch (Rep n (Cls is_hex_digit)) (digits ++ ws) []
      (fun s' cs' =>
         rmatch (Star (Cls is_space)) s'
           ((1%nat, firstn (List.length (digits ++ ws) - List.length s') (digits ++ ws)) :: cs')
           at_end)).
  { intros n. destruct (Nat.eqb_spec n (List.length digits)) as [->|]; [|reflexivity].
    rewrite (rep_cls_exact is_hex_digit ws [] _ digits Hd). cbv beta.
    rewrite firstn_prefix. rewrite <- (app_nil_r ws) at 1.
    now apply star_cls_greedy. }
  change (match rmatch (Rep 6 (Cls is_hex_digit)) (digits ++ ws) []
                  (fun s' cs' =>
                     rmatch (Star (Cls is_space)) s'
                       ((1%nat, firstn (List.length (digits ++ ws) - List.length s') (digits ++ ws)) :: cs')
                       at_end)
          with
          | Some m => Some m
          | None =>
              rmatch (Rep 3 (Cls is_hex_digit)) (digits ++ ws) []
                (fun s' cs' =>
                   rmatch (Star (Cls is_space)) s'
                     ((1%nat, firstn (List.length (digits ++ ws) - List.length s') (digits ++ ws)) :: cs')
                     at_end)
          end = Some [(1%nat, digits)]).
  destruct Hlen as [H6|H3].
  - rewrite (Hend 6%nat), H6. reflexivity.
  - rewrite (rep_cls_short is_hex_digit ws [] _ (stops_hex_space ws Hw) digits 6);
      [|lia|exact Hd].
    rewrite (Hend 3%nat), H3. reflexivity.
Qed.

Lemma fullmatch_unfold (r : regex) (s : string) :
  fullmatch r s
  = match rmatch r (list_ascii_of_string s) [] at_end with
    | Some cs => Some (Match s cs)
    | None => None
    end.
Proof. reflexivity. Qed.

(** [hex_re] on white space, an optional [#], three or six hexadecimal
    digits and white space: group 1 is the digits. *)
Lemma hex_re_fullmatch (ws1 ws2 digits : list ascii) (sharp : bool) (arg : string) :
  list_ascii_of_string arg
  = ws1 ++ (if sharp then ["#"%char] else []) ++ digits ++ ws2 ->
  Forall (fun c => is_space c = true) ws1 ->
  Forall (fun c => is_space c = true) ws2 ->
  Forall (fun c => is_hex_digit c = true) digits ->
  List.length digits = 6%nat \/ List.length digits = 3%nat ->
  fullmatch hex_re arg = Some (Match arg [(1%nat, digits)]).
Proof.
  intros Harg H1 H2 Hd Hlen. rewrite fullmatch_unfold, Harg.
  pose proof (hex_digits_match digits ws2 Hd H2 Hlen) as G.
  assert (Hhead : exists d ds, digits = d :: ds /\ is_hex_digit d = true).
  { destruct digits as [|d ds]; [cbn in Hlen; lia|].
    inversion Hd; subst. eauto. }
  destruct Hhead as (d & ds & -> & Hdh).
  destruct (hex_digit_facts d Hdh) as (Hsp & Hsh & _).
  unfold hex_re.
  change (rmatch (Cat (Star (Cls is_space)) ?b) ?s ?cs ?k)
    with (rmatch (Star (Cls is_space)) s cs (fun s' cs' => rmatch b s' cs' k)).
  rewrite (star_cls_greedy is_space ws1 _ [] _ [(1%nat, d :: ds)] H1);
    [reflexivity| |].
  - destruct sharp; [reflexivity | exact Hsp].
  - destruct sharp.
    + cbn [List.app]. unfold Opt, Lit.
      change (match (if Ascii.eqb "#" "#"
                     then rmatch (Cat (Grp 1 (Alt (Rep 6 (Cls is_hex_digit)) (Rep 3 (Cls is_hex_digit))))
                                   (Star (Cls is_space))) ((d :: ds) ++ ws2) [] at_end
                     else None)
              with Some m => Some m
              | None => rmatch (Cat (Grp 1 (Alt (Rep 6 (Cls is_hex_digit)) (Rep 3 (Cls is_hex_digit))))
                                   (Star (Cls is_space))) ("#"%char :: (d :: ds) ++ ws2) [] at_end
              end = Some [(1%nat, d :: ds)]).
      cbn [Ascii.eqb Bool.eqb]. now rewrite G.
    + cbn [List.app]. unfold Opt, Lit.
      change (match (if Ascii.eqb "#" d
                     then rmatch (Cat (Grp 1 (Alt (Rep 6 (Cls is_hex_digit)) (Rep 3 (Cls is_hex_digit))))
                                   (Star (Cls is_space))) (ds ++ ws2) [] at_end
                     else None)
              with Some m => Some m
              | None => rmatch (Cat (Grp 1 (Alt (Rep 6 (Cls is_hex_digit)) (Rep 3 (Cls is_hex_digit))))
                                   (Star (Cls is_space))) ((d :: ds) ++ ws2) [] at_end
              end = Some [(1%nat, d :: ds)]).
      rewrite Hsh. exact G.
Qed.

Lemma hex2_checked :
  forallb (hex2_ok true) bytes = true /\ forallb (hex2_ok false) bytes = true.
Proof. split; vm_cast_no_check (eq_refl true). Qed.

(** [format(n, '02x')] of a byte: two hexadecimal digits that read back
    as [n]. *)
Lemma hex2_byte (lowercase : bool) (n : Z) :
  byte n ->
  exists a b,
    format_02x lowercase n = String a (String b EmptyString) /\
    is_hex_digit a = true /\ is_hex_digit b = true /\
    int_of_str 16 (String a (String b EmptyString)) = Ok n.
Proof.
  intros Hn. assert (H : hex2_ok lowercase n = true).
  { destruct hex2_checked as [Ht Hf]. rewrite forallb_forall in Ht, Hf.
    destruct lowercase; [apply Ht | apply Hf]; now apply byte_in. }
  unfold hex2_ok in H.
  destruct (format_02x lowercase n) as [|a [|b [|]]];
    cbv beta iota in H; try discriminate H.
  apply andb_prop in H as [H Hv]. apply andb_prop in H as [Ha Hb].
  destruct (int_of_str 16 _) as [v|] eqn:E; [|discriminate].
  apply Z.eqb_eq in Hv. subst v. exists a, b. auto.
Qed.

Lemma all_space_Forall (ws : string) :
  all_space ws = true ->
  Forall (fun c => is_space c = true) (list_ascii_of_string ws).
Proof. apply forallb_Forall. Qed.

(** The name [color] gives to a colour written in figures. *)
Lemma color_of_hex_match (color_to_hex pretty_names : gmap string string)
    (arg : string) (digits : list ascii) (rgb : Z * Z * Z) :
  fullmatch hex_re arg = Some (Match arg [(1%nat, digits)]) ->
  parse_hex (Some (string_of_list_ascii digits)) = Ok rgb ->
  color color_to_hex pretty_names arg
  = Ok (Color.Make rgb (anonymous pretty_names)).
Proof.
  intros Hm Hp. unfold color. rewrite Hm.
  change (group (Match arg [(1%nat, digits)]) 1)
    with (Some (string_of_list_ascii digits)).
  rewrite Hp. reflexivity.
Qed.

(** X2. A hex argument is read back. Two hexadecimal digits a byte, in
    either case, with or without [#] and with white space around, give the
    colour they spell, named as an anonymous colour, whatever the tables
    hold. *)
Theorem hex_argument_round_trip (color_to_hex pretty_names : gmap string string)
    (ws1 ws2 : string) (sharp lowercase : bool) (r g b : Z) :
  all_space ws1 = true -> all_space ws2 = true ->
  byte r -> byte g -> byte b ->
  color color_to_hex pretty_names
    (ws1 +:+ (if sharp then "#" else "") +:+ format_02x lowercase r
     +:+ format_02x lowercase g +:+ format_02x lowercase b +:+ ws2)
  = Ok (Color.Make (r, g, b) (anonymous pretty_names)).
Proof.
  intros H1 H2 Hr Hg Hb.
  destruct (hex2_byte lowercase r Hr) as (r1 & r2 & -> & Hr1 & Hr2 & Er).
  destruct (hex2_byte lowercase g Hg) as (g1 & g2 & -> & Hg1 & Hg2 & Eg).
  destruct (hex2_byte lowercase b Hb) as (b1 & b2 & -> & Hb1 & Hb2 & Eb).
  apply (color_of_hex_match _ _ _ [r1; r2; g1; g2; b1; b2]).
  - apply (hex_re_fullmatch (list_ascii_of_string ws1) (list_ascii_of_string ws2)
             [r1; r2; g1; g2; b1; b2] sharp).
    + rewrite !list_of_append. destruct sharp; reflexivity.
    + now apply all_space_Forall.
    + now apply all_space_Forall.
    + repeat constructor; assumption.
    + now left.
  - change (parse_hex (Some (string_of_list_ascii [r1; r2; g1; g2; b1; b2])))
      with (do r <- int_of_str 16 (String r1 (String r2 EmptyString)) ;;
            do g <- int_of_str 16 (String g1 (String g2 EmptyString)) ;;
            do b <- int_of_str 16 (String b1 (String b2 EmptyString)) ;;
            Ok (r, g, b)).
    rewrite Er, Eg, Eb. reflexivity.
Qed.

(** X3. The three-digit form is read one digit a component, each between 0
    and 15: the digits are not doubled. *)
Theorem short_hex_argument (color_to_hex pretty_names : gmap string string)
    (ws1 ws2 : string) (sharp : bool) (a b c : ascii) :
  all_space ws1 = true -> all_space ws2 = true ->
  is_hex_digit a = true -> is_hex_digit b = true -> is_hex_digit c = true ->
  exists r g b',
    digit_value a = Some r /\ digit_value b = Some g /\ digit_value c = Some b' /\
    0 <= r <= 15 /\ 0 <= g <= 15 /\ 0 <= b' <= 15 /\
    color color_to_hex pretty_names
      (ws1 +:+ (if sharp then "#" else "")
       +:+ String a (String b (String c EmptyString)) +:+ ws2)
    = Ok (Color.Make (r, g, b') (anonymous pretty_names)).
Proof.
  intros H1 H2 Ha Hb Hc.
  destruct (hex_digit_facts a Ha) as (_ & _ & r & Dr & Rr & Er).
  destruct (hex_digit_facts b Hb) as (_ & _ & g & Dg & Rg & Eg).
  destruct (hex_digit_facts c Hc) as (_ & _ & b' & Db & Rb & Eb).
  exists r, g, b'. repeat (split; [assumption|]).
  apply (color_of_hex_match _ _ _ [a; b; c]).
  - apply (hex_re_fullmatch (list_ascii_of_string ws1) (list_ascii_of_string ws2)
             [a; b; c] sharp).
    + rewrite !list_of_append. destruct sharp; reflexivity.
    + now apply all_space_Forall.
    + now apply all_space_Forall.
    + repeat constructor; assumption.
    + now right.
  - change (parse_hex (Some (string_of_list_ascii [a; b; c])))
      with (do r <- int_of_str 16 (String a EmptyString) ;;
            do g <- int_of_str 16 (String b EmptyString) ;;
            do b <- int_of_str 16 (String c EmptyString) ;;
            Ok (r, g, b)).
    rewrite Er, Eg, Eb. reflexivity.
Qed.

End HexFacts.

(* ===================================================================== *)
(** ** Decimal numerals *)
(* ===================================================================== *)

Module StrFacts.
Import DecimalString DecimalPos Regex Digits RegexFacts MatcherFacts.

Lemma digits_are_digits (d : Decimal.uint) :
  Forall (fun c => is_digit c = true) (digits_of d).
Proof. induction d; cbn; constructor; auto. Qed.

Lemma parse_digits_step (acc : Z) (after : bool) (c : ascii)
    (l : list ascii) (v : Z) :
  digit_value c = Some v -> (v <? 10) = true -> Ascii.eqb c "_" = false ->
  parse_digits 10 acc after (c :: l) = parse_digits 10 (acc * 10 + v) true l.
Proof. intros Hv Hlt Hu. cbn [parse_digits]. now rewrite Hu, Hv, Hlt. Qed.

Lemma parse_digits_acc (d : Decimal.uint) : forall acc : positive,
  parse_digits 10 (Z.pos acc) true (digits_of d)
  = Ok (Z.pos (Pos.of_uint_acc d acc)).
Proof.
  induction d; intros acc; [reflexivity|..];
    cbn [NilEmpty.string_of_uint list_ascii_of_string Pos.of_uint_acc];
    rewrite <- IHd; erewrite parse_digits_step by reflexivity;
    f_equal; digit_value_known; lia.
Qed.

Lemma parse_digits_zero (d : Decimal.uint) :
  parse_digits 10 0 true (digits_of d) = Ok (Z.of_N (Pos.of_uint d)).
Proof.
  induction d; [reflexivity|..];
    cbn [NilEmpty.string_of_uint list_ascii_of_string Pos.of_uint];
    erewrite parse_digits_step by reflexivity; digit_value_known;
    [exact IHd|..]; cbn [Z.of_N]; rewrite <- parse_digits_acc; reflexivity.
Qed.

Lemma parse_digits_start (d : Decimal.uint) :
  d <> Decimal.Nil ->
  parse_digits 10 0 false (digits_of d) = Ok (Z.of_N (Pos.of_uint d)).
Proof.
  intros Hd. rewrite <- parse_digits_zero.
  destruct d; [congruence|..];
    cbn [NilEmpty.string_of_uint list_ascii_of_string];
    erewrite !parse_digits_step by reflexivity; digit_value_known;
    reflexivity.
Qed.

Lemma strip_left_digit (c : ascii) (l : list ascii) :
  is_space c = false -> strip_left (c :: l) = c :: l.
Proof. intros H. cbn [strip_left]. now rewrite H. Qed.

Lemma digit_not_space (c : ascii) :
  is_digit c = true ->
  is_space c = false /\ Ascii.eqb c "-" = false /\ Ascii.eqb c "+" = false /\
  Ascii.eqb c "x" || Ascii.eqb c ":" = false.
Proof.
  destruct c as [[] [] [] [] [] [] [] []]; intros H; vm_compute in H;
    try discriminate H; repeat split.
Qed.

(** A run of digits is read as it stands: nothing is stripped, there is
    no sign and no prefix. *)
Lemma int_of_digits (s : string) (l : list ascii) (n : Z) :
  list_ascii_of_string s = l -> l <> [] ->
  Forall (fun c => is_digit c = true) l ->
  parse_digits 10 0 false l = Ok n ->
  int_of_str 10 s = Ok n.
Proof.
  intros Hs Hne Hd Hp. unfold int_of_str. rewrite Hs.
  assert (Hstrip : strip l = l).
  { unfold strip. destruct l as [|c l']; [congruence|].
    inversion Hd as [|? ? Hc Hl']; subst.
    rewrite (strip_left_digit c l') by now apply digit_not_space.
    destruct (rev (c :: l')) as [|x r] eqn:Er.
    - apply (f_equal (@List.length ascii)) in Er. rewrite length_rev in Er.
      discriminate.
    - assert (Hx : is_digit x = true).
      { assert (Hin : In x (c :: l')).
        { apply in_rev. rewrite Er. now left. }
        rewrite Forall_forall in Hd. apply Hd.
        now apply list_elem_of_In. }
      rewrite (strip_left_digit x r) by now apply digit_not_space.
      rewrite <- Er. apply rev_involutive. }
  rewrite Hstrip. destruct l as [|c l']; [congruence|].
  inversion Hd as [|? ? Hc Hl']; subst.
  destruct (digit_not_space c Hc) as (_ & Hm & Hpl & _).
  cbn [skip_sign]. rewrite Hm, Hpl.
  assert (Hpre : skip_prefix 10 (c :: l') = c :: l').
  { destruct l'; reflexivity. }
  rewrite Hpre, Hp. reflexivity.
Qed.

Lemma str_nonneg (n : Z) :
  0 <= n ->
  exists d, d <> Decimal.Nil /\ str n = NilEmpty.string_of_uint d /\
            Z.of_N (Pos.of_uint d) = n.
Proof.
  intros Hn. destruct n as [|p|p]; [| |lia].
  - exists (Decimal.D0 Decimal.Nil). repeat split. discriminate.
  - exists (Pos.to_uint p). split; [apply Unsigned.to_uint_nonnil|].
    split.
    + unfold str. cbn [Z.to_int NilZero.string_of_int NilZero.string_of_uint].
      pose proof (Unsigned.to_uint_nonnil p).
      destruct (Pos.to_uint p); [congruence|..]; reflexivity.
    + now rewrite Unsigned.of_to.
Qed.

(** [str(n)] of a natural number: digits, at least one, that [int] reads
    back as [n]. *)
Lemma str_digits (n : Z) :
  0 <= n ->
  exists c l,
    list_ascii_of_string (str n) = c :: l /\
    Forall (fun c => is_digit c = true) (c :: l) /\
    int_of_str 10 (str n) = Ok n.
Proof.
  intros Hn. destruct (str_nonneg n Hn) as (d & Hd & Hs & Hv).
  pose proof (digits_are_digits d) as Hall.
  pose proof (parse_digits_start d Hd) as Hp. rewrite Hv in Hp.
  rewrite <- Hs in Hall, Hp.
  destruct (list_ascii_of_string (str n)) as [|c l] eqn:E.
  - rewrite Hs in E. destruct d; [congruence|..]; discriminate.
  - exists c, l. split; [reflexivity|]. split; [exact Hall|].
    apply (int_of_digits (str n) (c :: l) n E); [discriminate|exact Hall|exact Hp].
Qed.

(** [int(str(n)) == n] *)
Lemma int_of_str_str (n : Z) : int_of_str 10 (str n) = Ok n.
Proof.
  destruct (Z.le_gt_cases 0 n) as [Hn|Hn].
  - now destruct (str_digits n Hn) as (_ & _ & _ & _ & H).
  - destruct n as [|p|p]; try lia.
    destruct (str_digits (Z.pos p)) as (c & l & Hl & Hd & Hi); [lia|].
    assert (Hs : list_ascii_of_string (str (Z.neg p))
                 = "-"%char :: list_ascii_of_string (str (Z.pos p))).
    { unfold str. cbn [Z.to_int NilZero.string_of_int].
      pose proof (Unsigned.to_uint_nonnil p).
      unfold NilZero.string_of_uint.
      destruct (Pos.to_uint p); [congruence|..]; reflexivity. }
    unfold int_of_str in *. rewrite Hs, Hl in *.
    inversion Hd as [|? ? Hc Hl']; subst.
    destruct (digit_not_space c Hc) as (Hsp & Hm & Hpl & _).
    assert (Hstrip : forall x, is_space x = false ->
              strip (x :: c :: l) = x :: strip (c :: l)).
    { intros x Hx. unfold strip. rewrite !strip_left_digit by assumption.
      cbn [rev]. destruct (rev l ++ [c]) as [|y r] eqn:Er.
      - destruct (rev l); discriminate.
      - cbn [List.app]. destruct (is_space y) eqn:Ey.
        + assert (Hy : is_digit y = true).
          { rewrite Forall_forall in Hd. apply Hd. apply list_elem_of_In.
            apply (in_rev (c :: l)). cbn [rev]. rewrite Er. now left. }
          apply digit_not_space in Hy as [Hy _]. congruence.
        + rewrite !strip_left_digit by assumption.
          cbn [rev]. rewrite rev_app_distr. reflexivity. }
    rewrite (Hstrip "-"%char eq_refl).
    destruct (strip (c :: l)) as [|c' l''] eqn:Es.
    { cbn in Hi. discriminate. }
    cbn [skip_sign Ascii.eqb Bool.eqb].
    cbn [skip_sign] in Hi.
    assert (Hc' : c' = c).
    { unfold strip in Es. rewrite strip_left_digit in Es by assumption.
      cbn [rev] in Es. destruct (rev l ++ [c]) as [|y r] eqn:Er.
      - destruct (rev l); discriminate.
      - assert (Hy : is_digit y = true).
        { rewrite Forall_forall in Hd. apply Hd. apply list_elem_of_In.
          apply (in_rev (c :: l)). cbn [rev]. rewrite Er. now left. }
        apply digit_not_space in Hy as [Hy _].
        rewrite strip_left_digit in Es by assumption.
        rewrite <- Er, rev_app_distr, rev_involutive in Es.
        now injection Es. }
    subst c'. rewrite Hm, Hpl in Hi.
    destruct (parse_digits 10 0 false (skip_prefix 10 (c :: l''))) as [v|];
      [|discriminate].
    cbn [bind signed] in *. injection Hi as ->. reflexivity.
Qed.

End StrFacts.

(* ===================================================================== *)
(** ** Resolutions *)
(* ===================================================================== *)

Module ResolutionFacts.
Import Regex RegexFacts MatcherFacts HexFacts StrFacts Options.

Lemma rmatch_cat (a b : regex) s cs k :
  rmatch (Cat a b) s cs k = rmatch a s cs (fun s' cs' => rmatch b s' cs' k).
Proof. reflexivity. Qed.

Lemma rmatch_grp (n : nat) (a : regex) s cs k :
  rmatch (Grp n a) s cs k
  = rmatch a s cs
      (fun s' cs' => k s' ((n, firstn (List.length s - List.length s') s) :: cs')).
Proof. reflexivity. Qed.

Lemma stops_digit_space (ws rest : list ascii) :
  Forall (fun c => is_space c = true) ws -> stops is_digit rest ->
  stops is_digit (ws ++ rest).
Proof.
  destruct ws as [|c ws]; [easy|]. intros H _. inversion H; subst.
  cbn [List.app stops]. now apply space_facts.
Qed.

Lemma stops_space_digits (c : ascii) (l rest : list ascii) :
  is_digit c = true -> stops is_space ((c :: l) ++ rest).
Proof. intros H. cbn [List.app stops]. now apply digit_not_space. Qed.

Lemma rmatch_cls_hit (p : ascii -> bool) c s cs k :
  p c = true -> rmatch (Cls p) (c :: s) cs k = k s cs.
Proof. intros H. cbn [rmatch]. now rewrite H. Qed.

Lemma firstn_prefix_cons (c : ascii) (l rest : list ascii) :
  firstn (List.length (c :: l ++ rest) - List.length rest) (c :: l ++ rest)
  = c :: l.
Proof. apply (firstn_prefix (c :: l) rest). Qed.

(** [resolution_re] on two runs of digits around [x] or [:], with white
    space anywhere between: the groups are the two runs. *)
Lemma resolution_re_fullmatch (arg : string) (ws1 ws2 ws3 ws4 : list ascii)
    (c1 c2 sep : ascii) (l1 l2 : list ascii) :
  list_ascii_of_string arg
  = ws1 ++ (c1 :: l1) ++ ws2 ++ sep :: ws3 ++ (c2 :: l2) ++ ws4 ->
  Forall (fun c => is_space c = true) ws1 ->
  Forall (fun c => is_space c = true) ws2 ->
  Forall (fun c => is_space c = true) ws3 ->
  Forall (fun c => is_space c = true) ws4 ->
  Forall (fun c => is_digit c = true) (c1 :: l1) ->
  Forall (fun c => is_digit c = true) (c2 :: l2) ->
  sep = "x"%char \/ sep = ":"%char ->
  fullmatch resolution_re arg
  = Some (Match arg [(2%nat, c2 :: l2); (1%nat, c1 :: l1)]).
Proof.
  intros Harg H1 H2 H3 H4 Hd1 Hd2 Hsep.
  assert (Hc1 : is_digit c1 = true) by now inversion Hd1.
  assert (Hc2 : is_digit c2 = true) by now inversion Hd2.
  assert (Hs : is_space sep = false /\ is_digit sep = false /\
               Ascii.eqb sep "x" || Ascii.eqb sep ":" = true).
  { destruct Hsep as [-> | ->]; repeat split. }
  destruct Hs as (Hs1 & Hs2 & Hs3).
  rewrite fullmatch_unfold, Harg.
  assert (G : rmatch resolution_re
                (ws1 ++ (c1 :: l1) ++ ws2 ++ sep :: ws3 ++ (c2 :: l2) ++ ws4)
                [] at_end
              = Some [(2%nat, c2 :: l2); (1%nat, c1 :: l1)]);
    [|now rewrite G].
  unfold resolution_re. cbv zeta.
  rewrite rmatch_cat.
  apply star_cls_greedy; [exact H1 | now apply stops_space_digits |].
  cbv beta. rewrite rmatch_cat, rmatch_grp.
  change ((c1 :: l1) ++ ws2 ++ sep :: ws3 ++ (c2 :: l2) ++ ws4)
    with (c1 :: l1 ++ ws2 ++ sep :: ws3 ++ (c2 :: l2) ++ ws4).
  apply plus_cls_greedy; [exact Hd1 | apply stops_digit_space; [exact H2|exact Hs2] |].
  cbv beta. rewrite firstn_prefix_cons, rmatch_cat.
  apply star_cls_greedy; [exact H2 | exact Hs1 |].
  cbv beta. rewrite rmatch_cat, rmatch_cls_hit by exact Hs3.
  rewrite rmatch_cat.
  apply star_cls_greedy; [exact H3 | now apply stops_space_digits |].
  cbv beta. rewrite rmatch_cat, rmatch_grp.
  change ((c2 :: l2) ++ ws4) with (c2 :: l2 ++ ws4).
  apply plus_cls_greedy; [exact Hd2 | |].
  { rewrite <- (app_nil_r ws4). now apply stops_digit_space. }
  cbv beta. rewrite firstn_prefix_cons.
  rewrite <- (app_nil_r ws4) at 1.
  now apply star_cls_greedy.
Qed.

(** X4. [resolution] reads two decimal numbers separated by [x] or [:],
    white space allowed around each; it returns them when both reach 150
    and raises [ArgumentTypeError] otherwise. *)
Theorem resolution_of_numbers (w h : Z) (sep : ascii) (ws1 ws2 ws3 ws4 : string) :
  0 <= w -> 0 <= h -> sep = "x"%char \/ sep = ":"%char ->
  all_space ws1 = true -> all_space ws2 = true ->
  all_space ws3 = true -> all_space ws4 = true ->
  resolution (ws1 +:+ str w +:+ ws2 +:+ String sep (ws3 +:+ str h +:+ ws4))
  = if (w <? 150) || (h <? 150) then Raise ArgumentTypeError else Ok (w, h).
Proof.
  intros Hw Hh Hsep H1 H2 H3 H4.
  destruct (str_digits w Hw) as (c1 & l1 & E1 & Hd1 & I1).
  destruct (str_digits h Hh) as (c2 & l2 & E2 & Hd2 & I2).
  unfold resolution.
  rewrite (resolution_re_fullmatch _ (list_ascii_of_string ws1)
             (list_ascii_of_string ws2) (list_ascii_of_string ws3)
             (list_ascii_of_string ws4) c1 c2 sep l1 l2);
    try (now apply all_space_Forall); try assumption.
  - change (group _ 1) with (Some (string_of_list_ascii (c1 :: l1))).
    change (group _ 2) with (Some (string_of_list_ascii (c2 :: l2))).
    rewrite <- E1, <- E2, !string_of_list_ascii_of_string.
    cbn [int_of_obj]. rewrite I1, I2. reflexivity.
  - rewrite !list_of_append. cbn [list_ascii_of_string].
    rewrite !list_of_append, E1, E2. reflexivity.
Qed.

(** A text that [resolution_re] matches holds an [x] or a colon. *)
Lemma resolution_re_separator (s : list ascii) :
  matches resolution_re s -> In "x"%char s \/ In ":"%char s.
Proof.
  unfold resolution_re. cbv zeta. intros H.
  repeat match goal with
         | H : matches (Cat _ _) _ |- _ => inversion H; subst; clear H
         end.
  match goal with
  | H : matches (Cls _) _ |- _ => inversion H; subst; clear H
  end.
  match goal with
  | H : _ || _ = true |- _ => apply orb_prop in H as [H|H];
                              apply Ascii.eqb_eq in H; subst
  end; [left|right]; rewrite !in_app_iff; cbn; tauto.
Qed.

(** X5. What [resolution] returns has both dimensions at 150 or more, and
    comes from a text with a lower-case [x] or a colon. *)
Theorem resolution_at_least_150 (arg : string) (w h : Z) :
  resolution arg = Ok (w, h) ->
  150 <= w /\ 150 <= h /\
  (In "x"%char (list_ascii_of_string arg) \/ In ":"%char (list_ascii_of_string arg)).
Proof.
  unfold resolution. destruct (fullmatch resolution_re arg) as [m|] eqn:Em; [|discriminate].
  apply fullmatch_sound in Em as [Hm _]. apply resolution_re_separator in Hm.
  destruct (int_of_obj 10 (group m 1)) as [w'|]; [|discriminate].
  destruct (int_of_obj 10 (group m 2)) as [h'|]; [|discriminate].
  cbn [bind]. destruct (Z.ltb_spec w' 150); [discriminate|].
  destruct (Z.ltb_spec h' 150); [discriminate|].
  cbn [orb]. intros [= <- <-]. repeat split; [lia | lia | exact Hm].
Qed.

End ResolutionFacts.

(* ===================================================================== *)
(** ** Names and inverted colours *)
(* ===================================================================== *)

Module NameFacts.
Import Regex HexFacts Options Bytes BytesFacts.












(** X7. [inverted_color] on an 8-bit colour: the result is 8-bit, inverting it
    again gives the colour back, and its name is looked up under six
    lower-case hexadecimal digits that [parse_hex] reads back as the
    inverted colour. *)
Theorem inverted_color_round_trip (hex_to_color : gmap string string) (r g b : Z) :
  byte r -> byte g -> byte b ->
  let c := inverted_color hex_to_color (r, g, b) in
  let key := format_02x true (255 - r) +:+ format_02x true (255 - g)
             +:+ format_02x true (255 - b) in
  Color.rgb c = (255 - r, 255 - g, 255 - b) /\
  all_bytes (Color.rgb c) = true /\
  Color.rgb (inverted_color hex_to_color (Color.rgb c)) = (r, g, b) /\
  Color.name c = hex_to_color !! key /\
  String.length key = 6%nat /\
  parse_hex (Some key) = Ok (Color.rgb c).
Proof.
  intros Hr Hg Hb c key. unfold byte in *.
  assert (Hr' : byte (255 - r)) by (unfold byte; lia).
  assert (Hg' : byte (255 - g)) by (unfold byte; lia).
  assert (Hb' : byte (255 - b)) by (unfold byte; lia).
  split; [reflexivity|]. split.
  { cbn [c inverted_color Color.rgb all_bytes].
    repeat (apply andb_true_intro; split); apply Z.leb_le; lia. }
  split.
  { cbn [c inverted_color Color.rgb]. f_equal; [f_equal|]; lia. }
  split; [reflexivity|]. subst key.
  destruct (hex2_byte true _ Hr') as (r1 & r2 & -> & _ & _ & Er).
  destruct (hex2_byte true _ Hg') as (g1 & g2 & -> & _ & _ & Eg).
  destruct (hex2_byte true _ Hb') as (b1 & b2 & -> & _ & _ & Eb).
  split; [reflexivity|].
  change (parse_hex (Some (String r1 (String r2 "") +:+ String g1 (String g2 "")
                           +:+ String b1 (String b2 ""))))
    with (do r <- int_of_str 16 (String r1 (String r2 EmptyString)) ;;
          do g <- int_of_str 16 (String g1 (String g2 EmptyString)) ;;
          do b <- int_of_str 16 (String b1 (String b2 EmptyString)) ;;
          Ok (r, g, b)).
  rewrite Er, Eg, Eb. reflexivity.
Qed.

End NameFacts.

(* ===================================================================== *)
(** ** The pixels of a text *)
(* ===================================================================== *)

Module PixelFacts.
Import Wallpaper RasterFacts Pixels.

Lemma pixel_at_inside (im : PIL.image) (x y : Z) :
  well_formed im -> 0 <= x < PIL.width im -> 0 <= y < PIL.height im ->
  is_Some (pixel_at im x y).
Proof.
  intros [Hh Hw] Hx Hy. unfold pixel_at.
  destruct (Z.ltb_spec x 0); [lia|]. destruct (Z.ltb_spec y 0); [lia|].
  cbn [orb].
  destruct (lookup_lt_is_Some_2 (PIL.data im) (Z.to_nat y)) as [row Hrow];
    [rewrite Hh; lia|].
  rewrite Hrow. apply lookup_lt_is_Some_2.
  rewrite Forall_lookup in Hw. rewrite (Hw _ _ Hrow). lia.
Qed.

Lemma pixel_at_Some (im : PIL.image) (x y : Z) (p : PIL.pixel) :
  well_formed im -> pixel_at im x y = Some p ->
  0 <= x < PIL.width im /\ 0 <= y < PIL.height im.
Proof.
  intros [Hh Hw] H. unfold pixel_at in H.
  destruct (Z.ltb_spec x 0); [discriminate|].
  destruct (Z.ltb_spec y 0); [discriminate|]. cbn [orb] in H.
  destruct (PIL.data im !! Z.to_nat y) as [row|] eqn:Hrow; [|discriminate].
  pose proof (lookup_lt_Some _ _ _ Hrow) as Hy.
  pose proof (lookup_lt_Some _ _ _ H) as Hx.
  rewrite Forall_lookup in Hw. rewrite (Hw _ _ Hrow) in Hx. lia.
Qed.

Lemma painted_refl (rgb : Z * Z * Z) (im : PIL.image) :
  well_formed im -> painted (fun _ _ => false) rgb im im.
Proof.
  intros Hwf. split; [exact Hwf|]. split; [reflexivity|].
  intros x y. now destruct (pixel_at im x y).
Qed.

Lemma painted_trans (P Q : Z -> Z -> bool) (rgb : Z * Z * Z)
    (im im1 im2 : PIL.image) :
  painted P rgb im im1 -> painted Q rgb im1 im2 ->
  painted (fun x y => P x y || Q x y) rgb im im2.
Proof.
  intros (_ & Hs1 & H1) (Hwf & Hs2 & H2). split; [exact Hwf|].
  split; [congruence|]. intros x y. rewrite H2, H1.
  destruct (pixel_at im x y); [|reflexivity].
  destruct (P x y), (Q x y); reflexivity.
Qed.

Lemma painted_ext (P Q : Z -> Z -> bool) (rgb : Z * Z * Z) (im im' : PIL.image) :
  (forall x y, P x y = Q x y) -> painted P rgb im im' -> painted Q rgb im im'.
Proof.
  intros E (Hwf & Hs & H). split; [exact Hwf|]. split; [exact Hs|].
  intros x y. rewrite H, E. reflexivity.
Qed.

(** [putpixel] changes the pixel it is given and no other. *)
Lemma putpixel_painted (im im' : PIL.image) (x y : Z) (rgb : Z * Z * Z) :
  well_formed im -> 0 <= x -> 0 <= y ->
  PIL.putpixel im (x, y) rgb = Ok im' ->
  painted (fun x' y' => (x' =? x) && (y' =? y)) rgb im im'.
Proof.
  intros [Hh Hw] Hx Hy. destruct rgb as [[r g] b]. unfold PIL.putpixel.
  assert (Hx0 : (x <? 0) = false) by (apply Z.ltb_ge; lia).
  assert (Hy0 : (y <? 0) = false) by (apply Z.ltb_ge; lia).
  cbv zeta. do 2 (rewrite ?Hx0, ?Hy0; cbv iota). cbn [orb].
  destruct (Z.leb_spec (PIL.width im) x) as [|Hxw]; [discriminate|].
  destruct (Z.leb_spec (PIL.height im) y) as [|Hyh]; [discriminate|].
  cbn [orb]. intros [= <-].
  split; [|split; [reflexivity|]].
  - split; cbn [PIL.data PIL.height PIL.width PIL.size].
    + rewrite length_alter. exact Hh.
    + apply Forall_alter; [exact Hw|]. intros row Hrow Hlen.
      rewrite length_insert. exact Hlen.
  - intros x' y'. unfold pixel_at. cbn [PIL.data].
    destruct ((x' <? 0) || (y' <? 0)) eqn:Eneg; [reflexivity|].
    apply orb_false_elim in Eneg as [Hx' Hy'].
    apply Z.ltb_ge in Hx', Hy'.
    destruct (Z.eqb_spec y' y) as [->|Hne].
    + rewrite list_lookup_alter_eq.
      destruct (PIL.data im !! Z.to_nat y) as [row|] eqn:Hrow; [|reflexivity].
      cbn [fmap option_fmap option_map].
      rewrite Forall_lookup in Hw. pose proof (Hw _ _ Hrow) as Hlen.
      destruct (Z.eqb_spec x' x) as [->|Hnx].
      * rewrite list_lookup_insert_eq by (rewrite Hlen; lia).
        destruct (lookup_lt_is_Some_2 row (Z.to_nat x)) as [p Hp];
          [rewrite Hlen; lia|].
        rewrite Hp. reflexivity.
      * rewrite list_lookup_insert_ne by lia.
        cbn [andb]. now destruct (row !! Z.to_nat x').
    + rewrite list_lookup_alter_ne by lia. rewrite andb_false_r.
      destruct (PIL.data im !! Z.to_nat y') as [row|]; [|reflexivity].
      now destruct (row !! Z.to_nat x').
Qed.

Lemma row_cell_nil (k : Z) : row_cell [] k = false.
Proof.
  unfold row_cell. destruct (k <? 0); [reflexivity|]. now destruct (Z.to_nat k).
Qed.

Lemma row_cell_cons (cell : bool) (row : list bool) (k : Z) :
  row_cell (cell :: row) k
  = if k =? 0 then cell else row_cell row (k - 1).
Proof.
  unfold row_cell. destruct (Z.eqb_spec k 0) as [->|Hk]; [reflexivity|].
  destruct (Z.ltb_spec k 0), (Z.ltb_spec (k - 1) 0); try lia; try reflexivity.
  replace (Z.to_nat k) with (S (Z.to_nat (k - 1))) by lia. reflexivity.
Qed.

Section Font.
Variable font : ascii -> list (list bool).
Variable self : t.

Lemma paint_row_painted offset y row : forall xi img x img' x',
  well_formed img -> 0 <= y -> 0 <= offset + xi ->
  paint_row self offset y row xi img x = Ok (img', x') ->
  painted (fun x' y' => (y' =? y) && row_cell row (x' - offset - xi))
    (Color.rgb (color2 self)) img img'.
Proof.
  induction row as [|cell row IH]; intros xi img x img' x' Hwf Hy Hx;
    cbn [paint_row].
  - intros [= <- _]. apply (painted_ext (fun _ _ => false)); [|now apply painted_refl].
    intros a b. rewrite row_cell_nil. now rewrite andb_false_r.
  - assert (Hput : forall img1,
      (if cell then PIL.putpixel img (offset + xi, y) (Color.rgb (color2 self))
       else Ok img) = Ok img1 ->
      painted (fun x' y' => cell && (x' =? offset + xi) && (y' =? y))
        (Color.rgb (color2 self)) img img1).
    { intros img1. destruct cell.
      - intros E. cbn [andb]. now apply putpixel_painted.
      - intros [= <-]. now apply painted_refl. }
    destruct (if cell then _ else _) as [img1|] eqn:E; [|discriminate].
    cbn [bind]. intros H. specialize (Hput img1 eq_refl).
    apply IH in H; [| apply Hput | exact Hy | lia].
    refine (painted_ext _ _ _ _ _ _ (painted_trans _ _ _ _ _ _ Hput H)).
    intros a b. cbv beta. rewrite row_cell_cons.
    destruct (Z.eqb_spec b y) as [->|]; cbn [andb]; [|now rewrite !andb_false_r].
    rewrite andb_true_r.
    destruct (Z.eqb_spec a (offset + xi)) as [->|Hne].
    + replace (offset + xi - offset - xi) with 0 by lia. cbn [Z.eqb].
      rewrite andb_true_r.
      replace (offset + xi - offset - (xi + 1)) with (-1) by lia.
      unfold row_cell. cbn. now rewrite orb_false_r.
    + rewrite andb_false_r. cbn [orb].
      destruct (Z.eqb_spec (a - offset - xi) 0); [lia|].
      f_equal. lia.
Qed.

Lemma glyph_cell_nil (a b : Z) : glyph_cell [] a b = false.
Proof.
  unfold glyph_cell. destruct ((a <? 0) || (b <? 0)); [reflexivity|].
  destruct (Z.to_nat b), (Z.to_nat a); reflexivity.
Qed.

Lemma glyph_cell_cons (row : list bool) (rows : list (list bool)) (a b : Z) :
  glyph_cell (row :: rows) a b
  = if b =? 0 then row_cell row a else glyph_cell rows a (b - 1).
Proof.
  unfold glyph_cell, row_cell.
  destruct (Z.eqb_spec b 0) as [->|Hb].
  - rewrite orb_false_r. reflexivity.
  - destruct (Z.ltb_spec a 0); [reflexivity|]. cbn [orb].
    destruct (Z.ltb_spec b 0), (Z.ltb_spec (b - 1) 0); try lia; try reflexivity.
    replace (Z.to_nat b) with (S (Z.to_nat (b - 1))) by lia. reflexivity.
Qed.

Lemma paint_rows_painted offset rows : forall yi img x img' x',
  well_formed img -> 0 <= yi -> 0 <= offset ->
  paint_rows self offset rows yi img x = Ok (img', x') ->
  painted (fun a b => glyph_cell rows (a - offset) (b - yi))
    (Color.rgb (color2 self)) img img'.
Proof.
  induction rows as [|row rows IH]; intros yi img x img' x' Hwf Hy Ho;
    cbn [paint_rows].
  - intros [= <- _].
    apply (painted_ext (fun _ _ => false)); [|now apply painted_refl].
    intros a b. now rewrite glyph_cell_nil.
  - destruct (paint_row self offset yi row 0 img x) as [[img1 x1]|] eqn:E;
      [|discriminate].
    cbn [bind]. intros H.
    apply paint_row_painted in E; [|exact Hwf|exact Hy|lia].
    apply IH in H; [|apply E|lia|exact Ho].
    refine (painted_ext _ _ _ _ _ _ (painted_trans _ _ _ _ _ _ E H)).
    intros a b. cbv beta. rewrite glyph_cell_cons.
    replace (a - offset - 0) with (a - offset) by lia.
    destruct (Z.eqb_spec b yi) as [->|Hne].
    + replace (yi - yi) with 0 by lia. cbn [andb Z.eqb].
      replace (yi - (yi + 1)) with (-1) by lia.
      unfold glyph_cell at 1. cbn [Z.ltb Z.compare]. rewrite orb_true_r.
      now rewrite orb_false_r.
    + cbn [andb orb]. destruct (Z.eqb_spec (b - yi) 0); [lia|].
      f_equal. lia.
Qed.

Lemma paint_char_painted img offset x char img' offset' x' :
  well_formed img -> 0 <= offset ->
  paint_char font self (img, offset, x) char = Ok (img', offset', x') ->
  painted (fun a b => glyph_cell (font char) (a - offset) b)
    (Color.rgb (color2 self)) img img'.
Proof.
  intros Hwf Ho. unfold paint_char.
  destruct (paint_rows self offset (font char) 0 img x) as [[img1 x1]|] eqn:E;
    [|discriminate].
  cbn [bind]. intros [= <- _ _].
  apply paint_rows_painted in E; [|exact Hwf|lia|exact Ho].
  refine (painted_ext _ _ _ _ _ _ E).
  intros a b. cbv beta. f_equal. lia.
Qed.

Lemma glyph_cell_outside (w : nat) (rows : list (list bool)) : forall a b,
  forallb (spaced_row w) rows = true -> Z.of_nat w <= a ->
  glyph_cell rows a b = false.
Proof.
  induction rows as [|row rows IH]; intros a b Hrows Ha.
  - apply glyph_cell_nil.
  - cbn [forallb] in Hrows. apply andb_prop in Hrows as [Hrow Hrows].
    rewrite glyph_cell_cons. destruct (b =? 0); [|now apply IH].
    unfold spaced_row in Hrow. apply andb_prop in Hrow as [Hlen _].
    apply Nat.eqb_eq in Hlen. unfold row_cell.
    destruct (Z.ltb_spec a 0); [reflexivity|].
    apply nth_overflow. lia.
Qed.

Lemma lit_left (text : list ascii) : forall a b,
  a < 0 -> lit font text a b = false.
Proof.
  induction text as [|char text IH]; intros a b Ha; [reflexivity|].
  cbn [lit]. cbv zeta.
  destruct (Z.ltb_spec a (Z.of_nat (List.length (hd [] (font char)))));
    [|lia].
  unfold glyph_cell. destruct (Z.ltb_spec a 0); [reflexivity|lia].
Qed.

(** Painting a text over spaced glyphs succeeds, moves the offset by the
    sum of the widths and lights the cells of the glyphs laid side by
    side from the offset on. *)
Lemma paint_text_pixels text : forall img offset x n,
  spaced_text font text ->
  sum_widths font text = Ok n ->
  well_formed img ->
  PIL.height img = 8 ->
  0 <= offset -> offset + n - 1 <= PIL.width img ->
  exists img' x',
    paint_text font self text (img, offset, x) = Ok (img', offset + n, x') /\
    painted (fun a b => lit font text (a - offset) b)
      (Color.rgb (color2 self)) img img'.
Proof.
  induction text as [|char text IH]; intros img offset x n Hs Hn Hwf Hh Ho0 Ho1.
  - cbn in Hn. injection Hn as <-. exists img, x. split.
    + cbn. do 3 f_equal. lia.
    + now apply painted_refl.
  - assert (Hs' : spaced_text font text).
    { intros c Hc. apply Hs. now right. }
    destruct (sum_widths_spaced font text Hs') as (n' & En' & _ & Hn').
    destruct (spaced_glyph_width font char (Hs char (or_introl eq_refl)))
      as (w & Hw & Hhd & Hpos & _ & _ & Hrows).
    cbn [sum_widths] in Hn. rewrite Hw, En' in Hn. cbn [bind] in Hn.
    injection Hn as <-.
    destruct (paint_char_spaced font self img offset x char
                (Hs char (or_introl eq_refl)) Hh _ Hw Ho0) as [img1 E1]; [lia|].
    pose proof (paint_char_painted _ _ _ _ _ _ _ Hwf Ho0 E1) as P1.
    destruct P1 as (Hwf1 & Hsz1 & Hpx1).
    destruct (IH img1 (offset + Z.of_nat w) (Z.of_nat w - 1) n' Hs' En' Hwf1)
      as (img2 & x2 & E2 & P2).
    { unfold PIL.height. now rewrite Hsz1. }
    { lia. }
    { unfold PIL.width. rewrite Hsz1. fold (PIL.width img). lia. }
    exists img2, x2. split.
    + cbn [paint_text]. rewrite E1. cbn [bind]. rewrite E2.
      do 3 f_equal. lia.
    + refine (painted_ext _ _ _ _ _ _
                (painted_trans _ _ _ _ _ _ (conj Hwf1 (conj Hsz1 Hpx1)) P2)).
      intros a b. cbv beta. cbn [lit]. cbv zeta. rewrite Hhd.
      destruct (Z.ltb_spec (a - offset) (Z.of_nat w)).
      * rewrite (lit_left text) by lia. now rewrite orb_false_r.
      * rewrite (glyph_cell_outside w) by (assumption || lia).
        cbn [orb]. f_equal. lia.
Qed.

Lemma new_blank (w : Z) (fill : PIL.pixel) :
  0 <= w ->
  exists img, PIL.new (w, 8) fill = Ok img /\ PIL.size img = (w, 8) /\
    well_formed img /\
    forall x y, 0 <= x < w -> 0 <= y < 8 -> pixel_at img x y = Some fill.
Proof.
  intros Hw. unfold PIL.new. destruct (Z.ltb_spec w 0); [lia|].
  cbn [orb]. change (8 <? 0) with false. cbv iota.
  eexists. split; [reflexivity|]. split; [reflexivity|]. split.
  - split; cbn [PIL.data PIL.height PIL.width PIL.size fst snd].
    + apply length_replicate.
    + apply Forall_replicate. apply length_replicate.
  - intros x y Hx Hy. unfold pixel_at. cbn [PIL.data].
    destruct (Z.ltb_spec x 0); [lia|]. destruct (Z.ltb_spec y 0); [lia|].
    cbn [orb]. rewrite lookup_replicate_2 by lia.
    apply lookup_replicate_2. lia.
Qed.

(** What [generate_text] returns on a non-empty text over spaced glyphs. *)
Lemma generate_text_spaced (text : string) :
  text <> EmptyString ->
  spaced_text font (list_ascii_of_string text) ->
  exists n img,
    sum_widths font (list_ascii_of_string text) = Ok n /\
    Z.of_nat (List.length (list_ascii_of_string text)) <= n /\
    generate_text font self text = Ok img /\
    PIL.size img = (n - 1, 8) /\
    well_formed img /\
    forall x y, 0 <= x < n - 1 -> 0 <= y < 8 ->
      pixel_at img x y
      = Some (shown (Color.rgb (color2 self))
                (lit font (list_ascii_of_string text) x y)).
Proof.
  intros Hne Hs. unfold generate_text.
  destruct (sum_widths_spaced font _ Hs) as (n & En & _ & Hlen).
  assert (Hpos : 1 <= n).
  { destruct text; [congruence|]. cbn [list_ascii_of_string List.length] in Hlen.
    lia. }
  destruct (new_blank (n - 1) (0, 0, 0, 0)) as (blank & Eb & Hsz & Hwf & Hpx);
    [lia|].
  destruct (paint_text_pixels (list_ascii_of_string text) blank 0 0 n Hs En Hwf)
    as (img & x' & Ep & Hwf' & Hsz' & Hpx').
  { unfold PIL.height. now rewrite Hsz. }
  { lia. }
  { unfold PIL.width. rewrite Hsz. cbn [fst]. lia. }
  exists n, img. cbv zeta. rewrite En. cbn [bind]. rewrite Eb. cbn [bind].
  rewrite Ep. cbn [bind]. split; [reflexivity|]. split; [exact Hlen|].
  split; [reflexivity|]. split; [congruence|]. split; [exact Hwf'|].
  intros x y Hx Hy.
  rewrite Hpx', (Hpx x y Hx Hy). replace (x - 0) with x by lia.
  destruct (Color.rgb (color2 self)) as [[r g] b].
  now destruct (lit font _ x y).
Qed.

(** X8. The picture of a text, pixel by pixel. For a non-empty text over
    glyphs that carry their spacing, [generate_text] returns an image
    whose pixel at [(x, y)] is opaque, in the highlight colour, where the
    glyphs laid side by side have a lit cell, and transparent elsewhere. *)
Theorem generate_text_pixels (text : string) :
  text <> EmptyString ->
  spaced_text font (list_ascii_of_string text) ->
  exists img,
    generate_text font self text = Ok img /\
    well_formed img /\
    forall x y, 0 <= x < PIL.width img -> 0 <= y < PIL.height img ->
      pixel_at img x y
      = Some (shown (Color.rgb (color2 self))
                (lit font (list_ascii_of_string text) x y)).
Proof.
  intros Hne Hs.
  destruct (generate_text_spaced text Hne Hs)
    as (n & img & _ & _ & E & Hsz & Hwf & Hpx).
  exists img. split; [exact E|]. split; [exact Hwf|].
  intros x y Hx Hy. unfold PIL.width, PIL.height in Hx, Hy.
  rewrite Hsz in Hx, Hy. now apply Hpx.
Qed.

Lemma last_nth (row : list bool) (d d' : bool) :
  row <> [] -> List.last row d = nth (List.length row - 1) row d'.
Proof.
  induction row as [|c row IH]; [congruence|]. intros _.
  destruct row as [|c' row]; [reflexivity|].
  change (List.last (c :: c' :: row) d) with (List.last (c' :: row) d).
  rewrite IH by discriminate. cbn [List.length nth Nat.sub].
  now rewrite Nat.sub_0_r.
Qed.

Lemma glyph_last_column (w : nat) (rows : list (list bool)) : forall b,
  forallb (spaced_row w) rows = true -> (1 <= w)%nat ->
  glyph_cell rows (Z.of_nat w - 1) b = false.
Proof.
  induction rows as [|row rows IH]; intros b Hrows Hw.
  - apply glyph_cell_nil.
  - cbn [forallb] in Hrows. apply andb_prop in Hrows as [Hrow Hrows].
    rewrite glyph_cell_cons. destruct (b =? 0); [|now apply IH].
    unfold spaced_row in Hrow. apply andb_prop in Hrow as [Hlen Hlast].
    apply Nat.eqb_eq in Hlen. apply negb_true_iff in Hlast.
    unfold row_cell. destruct (Z.ltb_spec (Z.of_nat w - 1) 0); [reflexivity|].
    replace (Z.to_nat (Z.of_nat w - 1)) with (List.length row - 1)%nat by lia.
    rewrite <- (last_nth row true false); [exact Hlast|].
    intros ->. cbn in Hlen. lia.
Qed.

Lemma lit_app (a b : list ascii) : forall na x y,
  spaced_text font a -> sum_widths font a = Ok na ->
  lit font (a ++ b) x y
  = if x <? na then lit font a x y else lit font b (x - na) y.
Proof.
  induction a as [|c a IH]; intros na x y Hs Hn.
  - cbn in Hn. injection Hn as <-. cbn [app lit].
    destruct (Z.ltb_spec x 0).
    + now rewrite lit_left by lia.
    + f_equal. lia.
  - assert (Hs' : spaced_text font a).
    { intros c' Hc. apply Hs. now right. }
    destruct (sum_widths_spaced font a Hs') as (n' & En' & _ & Hn').
    destruct (spaced_glyph_width font c (Hs c (or_introl eq_refl)))
      as (w & Hw & Hhd & Hpos & _).
    cbn [sum_widths] in Hn. rewrite Hw, En' in Hn. cbn [bind] in Hn.
    injection Hn as <-.
    change ((c :: a) ++ b) with (c :: (a ++ b)). cbn [lit]. cbv zeta.
    rewrite Hhd, (IH n' (x - Z.of_nat w) y Hs' En').
    destruct (Z.ltb_spec x (Z.of_nat w)), (Z.ltb_spec x (Z.of_nat w + n')),
      (Z.ltb_spec (x - Z.of_nat w) n'); try lia; try reflexivity.
    f_equal. lia.
Qed.

Lemma lit_last_column (a : list ascii) : forall na y,
  a <> [] -> spaced_text font a -> sum_widths font a = Ok na ->
  lit font a (na - 1) y = false.
Proof.
  induction a as [|c a IH]; intros na y Hne Hs Hn; [congruence|].
  assert (Hs' : spaced_text font a).
  { intros c' Hc. apply Hs. now right. }
  destruct (sum_widths_spaced font a Hs') as (n' & En' & _ & Hn').
  destruct (spaced_glyph_width font c (Hs c (or_introl eq_refl)))
    as (w & Hw & Hhd & Hpos & _ & _ & Hrows).
  cbn [sum_widths] in Hn. rewrite Hw, En' in Hn. cbn [bind] in Hn.
  injection Hn as <-. cbn [lit]. cbv zeta. rewrite Hhd.
  destruct a as [|c' a].
  - cbn in En'. injection En' as <-.
    replace (Z.of_nat w + 0 - 1) with (Z.of_nat w - 1) by lia.
    destruct (Z.ltb_spec (Z.of_nat w - 1) (Z.of_nat w)); [|lia].
    now apply glyph_last_column.
  - cbn [List.length] in Hn'.
    destruct (Z.ltb_spec (Z.of_nat w + n' - 1) (Z.of_nat w)); [lia|].
    replace (Z.of_nat w + n' - 1 - Z.of_nat w) with (n' - 1) by lia.
    now apply IH.
Qed.

(** X9. Two texts side by side. Over spaced glyphs the picture of [a + b] is
    the picture of [a], one transparent column, and the picture of [b]:
    its width is the two widths and one, and every pixel is the pixel of
    the part it falls in. *)
Theorem generate_text_app (a b : string) :
  a <> EmptyString -> b <> EmptyString ->
  spaced_text font (list_ascii_of_string a) ->
  spaced_text font (list_ascii_of_string b) ->
  exists ia ib iab,
    generate_text font self a = Ok ia /\
    generate_text font self b = Ok ib /\
    generate_text font self (a +:+ b) = Ok iab /\
    PIL.width iab = PIL.width ia + 1 + PIL.width ib /\
    PIL.height iab = 8 /\
    forall x y, 0 <= x < PIL.width iab -> 0 <= y < 8 ->
      pixel_at iab x y
      = if x <? PIL.width ia then pixel_at ia x y
        else if x =? PIL.width ia then Some (0, 0, 0, 0)
        else pixel_at ib (x - PIL.width ia - 1) y.
Proof.
  intros Ha Hb Hsa Hsb.
  assert (Eab : list_ascii_of_string (a +:+ b)
                = list_ascii_of_string a ++ list_ascii_of_string b).
  { clear. induction a as [|c a IH]; [reflexivity|].
    change (String c a +:+ b) with (String c (a +:+ b)).
    cbn [list_ascii_of_string]. now rewrite IH. }
  assert (Hsab : spaced_text font (list_ascii_of_string (a +:+ b))).
  { rewrite Eab. intros c Hc. apply in_app_or in Hc as [Hc|Hc]; auto. }
  assert (Hab : a +:+ b <> EmptyString).
  { destruct a; [congruence|discriminate]. }
  destruct (generate_text_spaced a Ha Hsa)
    as (na & ia & Ena & Hla & Ea & Hsza & _ & Hpa).
  destruct (generate_text_spaced b Hb Hsb)
    as (nb & ib & Enb & Hlb & Eb & Hszb & _ & Hpb).
  destruct (generate_text_spaced (a +:+ b) Hab Hsab)
    as (nab & iab & Enab & _ & Eiab & Hszab & _ & Hpab).
  assert (Hnab : nab = na + nb).
  { rewrite Eab, sum_widths_app, Ena, Enb in Enab. cbn [bind] in Enab.
    congruence. }
  assert (Hna : 1 <= na).
  { destruct a; [congruence|]. cbn [list_ascii_of_string List.length] in Hla. lia. }
  assert (Hnb : 1 <= nb).
  { destruct b; [congruence|]. cbn [list_ascii_of_string List.length] in Hlb. lia. }
  exists ia, ib, iab. repeat (split; [assumption|]).
  unfold PIL.width, PIL.height. rewrite Hsza, Hszb, Hszab. cbn [fst snd].
  split; [lia|]. split; [reflexivity|].
  intros x y Hx Hy. rewrite (Hpab x y Hx Hy), Eab.
  rewrite (lit_app _ _ na x y Hsa Ena).
  destruct (Z.ltb_spec x (na - 1)).
  - destruct (Z.ltb_spec x na); [|lia]. rewrite Hpa by lia. reflexivity.
  - destruct (Z.eqb_spec x (na - 1)) as [->|Hne].
    + destruct (Z.ltb_spec (na - 1) na); [|lia].
      rewrite lit_last_column; [|destruct a; [congruence|discriminate]|exact Hsa|exact Ena].
      now destruct (Color.rgb (color2 self)) as [[r g] b'].
    + destruct (Z.ltb_spec x na); [lia|].
      rewrite Hpb by lia. do 3 f_equal. lia.
Qed.

End Font.
End PixelFacts.

(* ===================================================================== *)
(** ** Glyphs without spacing *)
(* ===================================================================== *)

Module OverflowFacts.
Import Wallpaper RasterFacts.

Section Font.
Variable font : ascii -> list (list bool).
Variable self : t.

Lemma putpixel_outside (im : PIL.image) (y : Z) (rgb : Z * Z * Z) :
  0 <= PIL.width im ->
  PIL.putpixel im (PIL.width im, y) rgb = Raise IndexError.
Proof.
  intros Hw. destruct rgb as [[r g] b]. unfold PIL.putpixel. cbv zeta.
  destruct (Z.ltb_spec (PIL.width im) 0); [lia|].
  rewrite Z.leb_refl. cbn [orb]. now rewrite orb_true_r.
Qed.

(** A row whose last cell is lit and falls on the column right of the
    image cannot be painted. *)
Lemma paint_row_overflow offset y init : forall xi img x,
  0 <= y < PIL.height img -> 0 <= offset + xi ->
  offset + xi + Z.of_nat (List.length init) = PIL.width img ->
  paint_row self offset y (init ++ [true]) xi img x = Raise IndexError.
Proof.
  induction init as [|cell init IH]; intros xi img x Hy Hlo Hw.
  - cbn [List.app paint_row]. cbn [List.length] in Hw.
    replace (offset + xi) with (PIL.width img) by lia.
    rewrite putpixel_outside by lia. reflexivity.
  - cbn [List.app paint_row]. cbn [List.length] in Hw.
    assert (Hstep : forall img1, PIL.size img1 = PIL.size img ->
              paint_row self offset y (init ++ [true]) (xi + 1) img1 xi
              = Raise IndexError).
    { intros img1 Hsz. apply IH.
      - unfold PIL.height in *. now rewrite Hsz.
      - lia.
      - unfold PIL.width in *. rewrite Hsz. lia. }
    destruct cell.
    + destruct (putpixel_inside img (offset + xi) y (Color.rgb (color2 self)))
        as [img1 E]; [lia|exact Hy|].
      rewrite E. cbn [bind]. apply Hstep. exact (putpixel_size _ _ _ _ E).
    + cbn [bind]. now apply Hstep.
Qed.

Lemma paint_rows_app offset above below : forall yi img x,
  paint_rows self offset (above ++ below) yi img x
  = do (img, x) <- paint_rows self offset above yi img x ;;
    paint_rows self offset below (yi + Z.of_nat (List.length above)) img x.
Proof.
  induction above as [|row above IH]; intros yi img x.
  - cbn [List.app paint_rows List.length bind]. f_equal. lia.
  - cbn [List.app paint_rows List.length].
    destruct (paint_row self offset yi row 0 img x) as [[img1 x1]|];
      [|reflexivity].
    cbn [bind]. rewrite IH.
    destruct (paint_rows self offset above (yi + 1) img1 x1) as [[img2 x2]|];
      [|reflexivity].
    cbn [bind]. f_equal. lia.
Qed.

(** X16. The spacing is needed. When the glyph of the last character has
    a row, among its first eight, whose last cell is lit, the rows above
    it being spaced, [generate_text] raises [IndexError]: the image is
    one column narrower than the glyphs, and the lit cell falls on the
    column right of it. *)
Theorem generate_text_overflow (pre : string) (char : ascii)
    (above below : list (list bool)) (row : list bool) :
  spaced_text font (list_ascii_of_string pre) ->
  font char = above ++ row :: below ->
  forallb (spaced_row (List.length row)) above = true ->
  (List.length above < 8)%nat ->
  List.last row false = true ->
  generate_text font self (pre +:+ String char EmptyString)
  = Raise IndexError.
Proof.
  intros Hs Hglyph Habove Hy Hlast.
  assert (Hrow : row = removelast row ++ [true]).
  { rewrite <- Hlast. apply app_removelast_last. intros ->. discriminate. }
  set (w := List.length row) in *.
  assert (Hw : Z.of_nat w = Z.of_nat (List.length (removelast row)) + 1).
  { subst w. rewrite Hrow at 1. rewrite List.length_app. cbn. lia. }
  assert (Hgw : glyph_width (font char) = Ok (Z.of_nat w)).
  { rewrite Hglyph. destruct above as [|row0 above']; [reflexivity|].
    cbn [forallb] in Habove. apply andb_prop in Habove as [H0 _].
    unfold spaced_row in H0. apply andb_prop in H0 as [H0 _].
    apply Nat.eqb_eq in H0. cbn [List.app glyph_width]. now rewrite H0. }
  destruct (sum_widths_spaced font _ Hs) as (n & En & _ & Hn).
  assert (Hchars : list_ascii_of_string (pre +:+ String char EmptyString)
                   = list_ascii_of_string pre ++ [char]).
  { clear. induction pre as [|c pre IH]; [reflexivity|].
    change (String c pre +:+ String char EmptyString)
      with (String c (pre +:+ String char EmptyString)).
    cbn [list_ascii_of_string]. now rewrite IH. }
  unfold generate_text. cbv zeta. rewrite Hchars, sum_widths_app, En.
  cbn [bind sum_widths]. rewrite Hgw. cbn [bind].
  destruct (new_size (n + (Z.of_nat w + 0) - 1) (0, 0, 0, 0)) as (blank & Eb & Hsz);
    [lia|].
  rewrite Eb. cbn [bind]. rewrite paint_text_app.
  destruct (paint_text_spaced font self _ blank 0 0 n Hs En) as (img1 & x1 & E1).
  { unfold PIL.height. now rewrite Hsz. }
  { lia. }
  { unfold PIL.width. rewrite Hsz. cbn [fst]. lia. }
  rewrite E1. cbn [bind paint_text].
  assert (Hsz1 : PIL.size img1 = (n + (Z.of_nat w + 0) - 1, 8)).
  { pose proof (paint_text_size font self _ _ _ E1) as Hs1.
    cbn [fst] in Hs1. congruence. }
  assert (Hchar : paint_char font self (img1, 0 + n, x1) char = Raise IndexError).
  { unfold paint_char. rewrite Hglyph, paint_rows_app.
    destruct (paint_rows_spaced self (0 + n) w above 0 img1 x1 Habove)
      as [img2 E2].
    { lia. }
    { unfold PIL.height. rewrite Hsz1. cbn [snd]. lia. }
    { lia. }
    { unfold PIL.width. rewrite Hsz1. cbn [fst]. lia. }
    rewrite E2. cbn [bind paint_rows].
    pose proof (paint_rows_size _ _ _ _ _ _ _ _ E2) as Hsz2.
    rewrite Hrow, paint_row_overflow; [reflexivity| | |].
    - unfold PIL.height. rewrite Hsz2, Hsz1. cbn [snd]. lia.
    - lia.
    - unfold PIL.width. rewrite Hsz2, Hsz1. cbn [fst]. lia. }
  rewrite Hchar. reflexivity.
Qed.

End Font.
End OverflowFacts.

(* ===================================================================== *)
(** ** Ranges of the colour model *)
(* ===================================================================== *)

Module FloatFacts.
Import FloatAxioms.

Lemma digits2_pos_bound (m : positive) : Z.pos m < 2 ^ Z.pos (digits2_pos m).
Proof.
  induction m as [m IH|m IH|]; cbn [digits2_pos].
  - rewrite Pos2Z.inj_succ, Z.pow_succ_r by lia. lia.
  - rewrite Pos2Z.inj_succ, Z.pow_succ_r by lia. lia.
  - reflexivity.
Qed.

(** The mantissa of a binary64 number has at most 53 bits. *)
Lemma mantissa_bound (s : bool) (m : positive) (e : Z) :
  valid_binary (S754_finite s m e) = true -> Z.pos m < 2 ^ 53.
Proof.
  unfold valid_binary, SpecFloat.valid_binary, bounded, canonical_mantissa, fexp.
  intros H. apply andb_prop in H as [H _]. apply Z.eqb_eq in H.
  change prec with 53 in H.
  pose proof (digits2_pos_bound m) as Hm.
  assert (Hd : Z.pos (digits2_pos m) <= 53) by lia.
  pose proof (Z.pow_le_mono_r 2 _ _ ltac:(lia) Hd). lia.
Qed.

(** A float between [0] and [100] is finite and its integer part is
    between [0] and [100]. *)
Lemma trunc_percent (y : float) :
  PrimFloat.leb 0%float y = true -> PrimFloat.leb y 100%float = true ->
  is_finite y = true /\ 0 <= Py.trunc y <= 100.
Proof.
  rewrite !leb_spec. unfold is_finite, Py.trunc. rewrite classify_spec.
  pose proof (Prim2SF_valid y) as Hv.
  change (Prim2SF 0%float) with (S754_zero false).
  change (Prim2SF 100%float) with (S754_finite false 7036874417766400 (-46)).
  destruct (Prim2SF y) as [s|s| |s m e].
  - intros _ _. split; [now destruct s|lia].
  - destruct s; discriminate.
  - discriminate.
  - intros Hlo Hhi. destruct s; [discriminate|].
    split.
    { unfold SF64classify, SFclassify. now destruct (_ =? _). }
    unfold signed, trunc_mag. unfold SFleb, SFcompare in Hhi.
    apply mantissa_bound in Hv.
    destruct (Z.compare_spec e (-46)) as [->|He|He]; [| |discriminate].
    + change (0 <=? -46) with false. cbv iota.
      change (- -46) with 46.
      rewrite Z.shiftr_div_pow2 by lia.
      assert (Hm : (m <= 7036874417766400)%positive).
      { unfold Pos.le, Pos.compare.
        destruct (Pos.compare_cont Eq m 7036874417766400); congruence. }
      assert (Hp : 0 < 2 ^ 46) by reflexivity.
      assert (H100 : 7036874417766400 = 100 * 2 ^ 46) by reflexivity.
      apply Pos2Z.pos_le_pos in Hm.
      rewrite H100 in Hm. clear H100.
      generalize dependent (2 ^ 46). intros p Hp Hm.
      split; [apply Z.div_pos; lia|].
      apply Z.div_le_upper_bound; lia.
    + destruct (Z.leb_spec 0 e); [lia|].
      rewrite Z.shiftr_div_pow2 by lia.
      assert (Hp : 2 ^ 47 <= 2 ^ (- e)) by (apply Z.pow_le_mono_r; lia).
      assert (H53 : 2 ^ 53 = 64 * 2 ^ 47) by reflexivity.
      assert (Hq : 0 < 2 ^ 47) by reflexivity.
      rewrite H53 in Hv. clear H53.
      generalize dependent (2 ^ 47). intros p Hv Hp Hq.
      generalize dependent (2 ^ (- e)). intros q Hq'.
      split; [apply Z.div_pos; lia|].
      apply Z.div_le_upper_bound; nia.
Qed.

End FloatFacts.

Module RangeFacts.
Import Bytes BytesFacts ColorFacts Ranges FloatFacts.

Lemma value_checked : forallb value_ok bytes = true.
Proof. vm_cast_no_check (eq_refl true). Qed.

Lemma hsv_checked : for_pairs bytes hsv_bytes_ok = true.
Proof. vm_cast_no_check (eq_refl true). Qed.

Lemma complement_order_checked : for_pairs bytes complement_order_ok = true.
Proof. vm_cast_no_check (eq_refl true). Qed.

Lemma key_checked : forallb key_ok bytes = true.
Proof. vm_cast_no_check (eq_refl true). Qed.

Lemma cmyk_share_checked : for_pairs bytes cmyk_bytes_ok = true.
Proof. vm_cast_no_check (eq_refl true). Qed.

Lemma within_percent_spec (x : float) :
  within_percent x = true ->
  Color.scaled x 100 = Ok (percent x) /\ 0 <= percent x <= 100.
Proof.
  unfold within_percent. cbv zeta. intros H. apply andb_prop in H as [Hlo Hhi].
  destruct (trunc_percent _ Hlo Hhi) as [Hf Hr].
  split; [now apply scaled_100|].
  unfold percent. now rewrite float_100.
Qed.

Lemma byte_max (r g b : Z) :
  byte r -> byte g -> byte b -> byte (Z.max (Z.max r g) b).
Proof. unfold byte. lia. Qed.

Lemma byte_min (r g b : Z) :
  byte r -> byte g -> byte b -> byte (Z.min (Z.min r g) b).
Proof. unfold byte. lia. Qed.

(** What [hsl] returns on bytes, with the hue it shares with [hsv]. *)
Lemma hsl_on_bytes (r g b : Z) :
  byte r -> byte g -> byte b ->
  let maxc := unit (Z.max (Z.max r g) b) in
  let minc := unit (Z.min (Z.min r g) b) in
  let h :=
    if PrimFloat.eqb minc maxc then 0%float
    else hue_value (unit r) (unit g) (unit b) maxc (PrimFloat.sub maxc minc) in
  (PrimFloat.eqb minc maxc = false ->
   PrimFloat.eqb (PrimFloat.sub maxc minc) 0%float = false) /\
  is_finite (PrimFloat.mul h 360%float) = true /\
  Color.hsl (r, g, b)
  = Ok (degrees h, percent (saturation maxc minc),
        percent (lightness maxc minc)).
Proof.
  intros Hr Hg Hb maxc minc h.
  pose proof (hue_triple_checked r g b Hr Hg Hb) as Hh.
  pose proof (hls_pair_checked _ _ (byte_max r g b Hr Hg Hb)
                (byte_min r g b Hr Hg Hb) ltac:(lia)) as Hp.
  unfold hue_triple_ok in Hh. cbv zeta in Hh.
  rewrite max3_unit, min3_unit in Hh by assumption.
  fold maxc minc in Hh, Hp.
  unfold hls_pair_ok in Hp.
  apply andb_prop in Hp as [Hp Hd]. apply andb_prop in Hp as [Hl Hs].
  apply is_percent_spec in Hl as [Hl _], Hs as [Hs _].
  assert (Hhls : Colorsys.rgb_to_hls (unit r) (unit g) (unit b) =
    do l <- float_div (PrimFloat.add maxc minc) 2%float ;;
    if PrimFloat.eqb minc maxc then Ok (0%float, l, 0%float)
    else
      do s <- (if PrimFloat.leb l 0.5%float
               then float_div (PrimFloat.sub maxc minc) (PrimFloat.add maxc minc)
               else float_div (PrimFloat.sub maxc minc)
                      (PrimFloat.sub 2%float (PrimFloat.add maxc minc))) ;;
      do h <- Colorsys.hue (unit r) (unit g) (unit b) maxc (PrimFloat.sub maxc minc) ;;
      Ok (h, l, s)).
  { unfold Colorsys.rgb_to_hls. cbv zeta.
    rewrite max3_unit, min3_unit by assumption. reflexivity. }
  rewrite float_div_ok in Hhls by reflexivity. cbn [bind] in Hhls.
  fold (lightness maxc minc) in Hhls.
  assert (Hhsl : forall h l s,
    Colorsys.rgb_to_hls (unit r) (unit g) (unit b) = Ok (h, l, s) ->
    Color.hsl (r, g, b) =
      do h' <- Color.scaled h 360 ;;
      do s' <- Color.scaled s 100 ;;
      do l' <- Color.scaled l 100 ;;
      Ok (h', s', l')).
  { intros h0 l s E. unfold Color.hsl. rewrite unit_rgb_eq. cbn [bind].
    rewrite E. reflexivity. }
  unfold saturation in *. subst h.
  destruct (PrimFloat.eqb minc maxc) eqn:E.
  - split; [discriminate|]. split; [reflexivity|].
    rewrite (Hhsl _ _ _ Hhls), Hs, Hl. reflexivity.
  - cbn [orb] in Hd, Hh. apply andb_prop in Hd as [Hd1 Hd2].
    apply negb_true_iff in Hd1, Hd2.
    split; [intros _; exact Hd1|]. split; [exact Hh|].
    rewrite (hue_eq _ _ _ _ _ Hd1) in Hhls.
    destruct (PrimFloat.leb (lightness maxc minc) 0.5%float) eqn:L.
    + rewrite (float_div_ok _ _ Hd2) in Hhls. cbn [bind] in Hhls.
      rewrite (Hhsl _ _ _ Hhls), Hs, Hl, (scaled_360 _ Hh). reflexivity.
    + rewrite (float_div_ok _ _ Hd2) in Hhls. cbn [bind] in Hhls.
      rewrite (Hhsl _ _ _ Hhls), Hs, Hl, (scaled_360 _ Hh). reflexivity.
Qed.

(** What [hsv] returns on bytes. *)
Lemma hsv_on_bytes (r g b : Z) :
  byte r -> byte g -> byte b ->
  let maxc := unit (Z.max (Z.max r g) b) in
  let minc := unit (Z.min (Z.min r g) b) in
  let h :=
    if PrimFloat.eqb minc maxc then 0%float
    else hue_value (unit r) (unit g) (unit b) maxc (PrimFloat.sub maxc minc) in
  Colorsys.rgb_to_hsv (unit r) (unit g) (unit b)
  = Ok (h, hsv_saturation maxc minc, maxc) /\
  Color.hsv (r, g, b)
  = Ok (degrees h, percent (hsv_saturation maxc minc), percent maxc) /\
  0 <= percent (hsv_saturation maxc minc) <= 100 /\
  0 <= percent maxc <= 100.
Proof.
  intros Hr Hg Hb maxc minc h.
  destruct (hsl_on_bytes r g b Hr Hg Hb) as (Hd & Hh & _).
  fold maxc minc in Hd, Hh. fold h in Hh.
  pose proof (byte_max r g b Hr Hg Hb) as Hhi.
  pose proof (byte_min r g b Hr Hg Hb) as Hlo.
  pose proof (for_pairs_spec _ _ _ _ hsv_checked (byte_in _ Hhi) (byte_in _ Hlo))
    as Hp.
  unfold hsv_bytes_ok in Hp. fold maxc minc in Hp.
  destruct (Z.ltb_spec (Z.max (Z.max r g) b) (Z.min (Z.min r g) b)); [lia|].
  cbn [orb] in Hp. apply andb_prop in Hp as [Hs Hz].
  apply within_percent_spec in Hs as [Hs Hsr].
  pose proof value_checked as Hv. rewrite forallb_forall in Hv.
  specialize (Hv _ (byte_in _ Hhi)). unfold value_ok in Hv. fold maxc in Hv.
  apply within_percent_spec in Hv as [Hv Hvr].
  assert (Hhsv : Colorsys.rgb_to_hsv (unit r) (unit g) (unit b)
                 = Ok (h, hsv_saturation maxc minc, maxc)).
  { unfold Colorsys.rgb_to_hsv. cbv zeta.
    rewrite max3_unit, min3_unit by assumption. fold maxc minc.
    unfold hsv_saturation, h.
    destruct (PrimFloat.eqb minc maxc) eqn:E; [reflexivity|].
    cbn [orb] in Hz. apply negb_true_iff in Hz.
    rewrite (float_div_ok _ _ Hz). cbn [bind].
    rewrite (hue_eq _ _ _ _ _ (Hd eq_refl)). reflexivity. }
  split; [exact Hhsv|]. split; [|split; assumption].
  unfold Color.hsv. rewrite unit_rgb_eq. cbn [bind]. rewrite Hhsv.
  cbn [bind]. rewrite (scaled_360 _ Hh). cbn [bind].
  rewrite Hs. cbn [bind]. rewrite Hv. reflexivity.
Qed.

(** X10. [hsv] on bytes. It returns for every 8-bit triple; the value is the
    percentage of the largest component and the saturation that of the
    spread over the largest component, both within [0, 100]; the hue is
    the hue [hsl] gives. *)
Theorem hsv_components (r g b : Z) :
  byte r -> byte g -> byte b ->
  let maxc := unit (Z.max (Z.max r g) b) in
  let minc := unit (Z.min (Z.min r g) b) in
  exists h s v,
    Colorsys.rgb_to_hsv (unit r) (unit g) (unit b) = Ok (h, s, v) /\
    v = maxc /\ s = hsv_saturation maxc minc /\
    Color.hsv (r, g, b) = Ok (degrees h, percent s, percent v) /\
    0 <= percent s <= 100 /\ 0 <= percent v <= 100 /\
    exists s' l', Color.hsl (r, g, b) = Ok (degrees h, s', l').
Proof.
  intros Hr Hg Hb maxc minc.
  destruct (hsv_on_bytes r g b Hr Hg Hb) as (E1 & E2 & Hs & Hv).
  destruct (hsl_on_bytes r g b Hr Hg Hb) as (_ & _ & E3).
  eexists _, _, _. split; [exact E1|]. split; [reflexivity|].
  split; [reflexivity|]. split; [exact E2|]. split; [exact Hs|].
  split; [exact Hv|]. eexists _, _. exact E3.
Qed.

Lemma min2_complement (a b : Z) :
  byte a -> byte b ->
  min2 (PrimFloat.sub 1%float (unit a)) (PrimFloat.sub 1%float (unit b))
  = PrimFloat.sub 1%float (unit (Z.max a b)).
Proof.
  intros Ha Hb. unfold min2.
  pose proof (for_pairs_spec _ _ b a complement_order_checked
                (byte_in b Hb) (byte_in a Ha)) as E.
  unfold complement_order_ok in E. apply Bool.eqb_prop in E. rewrite E.
  destruct (Z.ltb_spec a b); do 2 f_equal; lia.
Qed.

(** The key of [cmyk] is the complement of the largest component. *)
Lemma key_of_largest (r g b : Z) :
  byte r -> byte g -> byte b ->
  min4 (PrimFloat.sub 1%float (unit r)) (PrimFloat.sub 1%float (unit g))
    (PrimFloat.sub 1%float (unit b)) 1%float
  = PrimFloat.sub 1%float (unit (Z.max (Z.max r g) b)).
Proof.
  intros Hr Hg Hb. unfold min4.
  rewrite (min2_complement r g Hr Hg).
  rewrite min2_complement by (assumption || (unfold byte in *; lia)).
  pose proof complements_checked as H. rewrite forallb_forall in H.
  specialize (H _ (complement_in _ (byte_max r g b Hr Hg Hb))).
  unfold at_most_one in H. apply negb_true_iff in H.
  unfold min2. now rewrite H.
Qed.

Lemma share_of (n hi : Z) :
  byte n -> byte hi -> n <= hi -> hi <> 0 ->
  Color.scaled (cmyk_share n hi) 100 = Ok (percent (cmyk_share n hi)) /\
  0 <= percent (cmyk_share n hi) <= 100 /\
  (n = hi -> percent (cmyk_share n hi) = 0).
Proof.
  intros Hn Hhi Hle Hne.
  pose proof (for_pairs_spec _ _ hi n cmyk_share_checked
                (byte_in hi Hhi) (byte_in n Hn)) as H.
  unfold cmyk_bytes_ok in H.
  destruct (Z.ltb_spec hi n); [lia|]. destruct (Z.eqb_spec hi 0); [lia|].
  cbn [orb] in H. apply within_percent_spec in H as [H1 H2].
  split; [exact H1|]. split; [exact H2|]. intros ->.
  pose proof key_checked as K. rewrite forallb_forall in K.
  specialize (K _ (byte_in hi Hhi)). unfold key_ok in K. cbv zeta in K.
  apply andb_prop in K as [_ K].
  destruct (Z.eqb_spec hi 0); [lia|]. cbn [orb] in K. now apply Z.eqb_eq in K.
Qed.

Lemma key_of (hi : Z) :
  byte hi ->
  let k := PrimFloat.sub 1%float (unit hi) in
  Color.scaled k 100 = Ok (percent k) /\ 0 <= percent k <= 100 /\
  PrimFloat.eqb k 1%float = (hi =? 0) /\
  (percent k =? 100) = (hi =? 0).
Proof.
  intros Hhi k.
  pose proof key_checked as K. rewrite forallb_forall in K.
  specialize (K _ (byte_in hi Hhi)). unfold key_ok in K. cbv zeta in K.
  fold k in K.
  apply andb_prop in K as [K _]. apply andb_prop in K as [K K100].
  apply andb_prop in K as [Kp K1].
  apply Bool.eqb_prop in K100, K1.
  apply within_percent_spec in Kp as [Kp Kr]. auto.
Qed.

(** What [cmyk] returns on bytes, by the largest component [hi]. *)
Lemma cmyk_value (r g b : Z) :
  byte r -> byte g -> byte b ->
  let hi := Z.max (Z.max r g) b in
  Color.cmyk (r, g, b)
  = if hi =? 0 then Ok (0, 0, 0, 100)
    else Ok (percent (cmyk_share r hi), percent (cmyk_share g hi),
             percent (cmyk_share b hi),
             percent (PrimFloat.sub 1%float (unit hi))).
Proof.
  intros Hr Hg Hb hi.
  pose proof (byte_max r g b Hr Hg Hb) as Hhi. fold hi in Hhi.
  pose proof (key_of_largest r g b Hr Hg Hb) as Hk. fold hi in Hk.
  destruct (key_of hi Hhi) as (Kp & _ & K1 & _).
  set (k := PrimFloat.sub 1%float (unit hi)) in *.
  assert (Hcmyk : Color.cmyk (r, g, b) =
    if PrimFloat.eqb k 1%float then Ok (0, 0, 0, 100)
    else
      do c <- float_div (PrimFloat.sub (PrimFloat.sub 1%float (unit r)) k)
                (PrimFloat.sub 1%float k) ;;
      do m <- float_div (PrimFloat.sub (PrimFloat.sub 1%float (unit g)) k)
                (PrimFloat.sub 1%float k) ;;
      do y <- float_div (PrimFloat.sub (PrimFloat.sub 1%float (unit b)) k)
                (PrimFloat.sub 1%float k) ;;
      do c' <- Color.scaled c 100 ;;
      do m' <- Color.scaled m 100 ;;
      do y' <- Color.scaled y 100 ;;
      do k' <- Color.scaled k 100 ;;
      Ok (c', m', y', k')).
  { unfold Color.cmyk. rewrite !complement_eq. cbn [bind]. cbv zeta.
    rewrite Hk. reflexivity. }
  rewrite Hcmyk, K1. destruct (Z.eqb_spec hi 0) as [E0|Hne]; [reflexivity|].
  destruct (cmyk_part k k (complement_in hi Hhi) (complement_in hi Hhi) K1)
    as (D & _ & _).
  rewrite !(float_div_ok _ _ D). cbn [bind].
  change (PrimFloat.div (PrimFloat.sub (PrimFloat.sub 1%float (unit r)) k)
            (PrimFloat.sub 1%float k)) with (cmyk_share r hi).
  change (PrimFloat.div (PrimFloat.sub (PrimFloat.sub 1%float (unit g)) k)
            (PrimFloat.sub 1%float k)) with (cmyk_share g hi).
  change (PrimFloat.div (PrimFloat.sub (PrimFloat.sub 1%float (unit b)) k)
            (PrimFloat.sub 1%float k)) with (cmyk_share b hi).
  destruct (share_of r hi Hr Hhi ltac:(lia) Hne) as (Sr & _).
  destruct (share_of g hi Hg Hhi ltac:(lia) Hne) as (Sg & _).
  destruct (share_of b hi Hb Hhi ltac:(lia) Hne) as (Sb & _).
  rewrite Sr, Sg, Sb, Kp. reflexivity.
Qed.

(** X11. [cmyk] on bytes. Every component is a percentage; the key depends on
    the largest component only and is [100] for black alone; the largest
    component has no ink of its own, so one of cyan, magenta and yellow
    is [0]. *)
Theorem cmyk_ranges (r g b : Z) :
  byte r -> byte g -> byte b ->
  let hi := Z.max (Z.max r g) b in
  exists c m y k,
    Color.cmyk (r, g, b) = Ok (c, m, y, k) /\
    0 <= c <= 100 /\ 0 <= m <= 100 /\ 0 <= y <= 100 /\ 0 <= k <= 100 /\
    (hi <> 0 -> k = percent (PrimFloat.sub 1%float (unit hi))) /\
    (k = 100 <-> r = 0 /\ g = 0 /\ b = 0) /\
    (r = hi -> c = 0) /\ (g = hi -> m = 0) /\ (b = hi -> y = 0) /\
    (c = 0 \/ m = 0 \/ y = 0).
Proof.
  intros Hr Hg Hb hi.
  pose proof (byte_max r g b Hr Hg Hb) as Hhi. fold hi in Hhi.
  pose proof (cmyk_value r g b Hr Hg Hb) as E. fold hi in E.
  destruct (key_of hi Hhi) as (_ & Kr & _ & K100).
  assert (Hmax : r = hi \/ g = hi \/ b = hi) by lia.
  rewrite E. destruct (Z.eqb_spec hi 0) as [E0|Hne].
  - exists 0, 0, 0, 100.
    assert (r = 0 /\ g = 0 /\ b = 0) as (-> & -> & ->)
      by (unfold byte in *; lia).
    split; [reflexivity|]. repeat split; try lia; auto.
  - destruct (share_of r hi Hr Hhi ltac:(lia) Hne) as (_ & Rr & Zr).
    destruct (share_of g hi Hg Hhi ltac:(lia) Hne) as (_ & Rg & Zg).
    destruct (share_of b hi Hb Hhi ltac:(lia) Hne) as (_ & Rb & Zb).
    eexists _, _, _, _. split; [reflexivity|].
    repeat (split; [assumption|]). split; [reflexivity|].
    split.
    { split.
      - intros E'. apply Z.eqb_eq in E'. congruence.
      - intros (-> & -> & ->). subst hi. cbn in Hne. lia. }
    repeat (split; [assumption|]).
    destruct Hmax as [H|[H|H]]; auto.
Qed.

End RangeFacts.

(* ===================================================================== *)
(** ** The size of the badge *)
(* ===================================================================== *)

Module BadgeFacts.
Import Wallpaper Ranges.

Lemma range_from_spec (n : nat) : forall start x,
  start <= x < start + Z.of_nat n -> In x (range_from start n).
Proof.
  induction n as [|n IH]; intros start x Hx; [lia|].
  cbn [range_from]. destruct (Z.eq_dec start x) as [->|Hne]; [now left|].
  right. apply IH. lia.
Qed.

Lemma decor_size_checked : forallb decor_size_ok sides = true.
Proof. vm_cast_no_check (eq_refl true). Qed.

(** The badge depends on the smaller side only. *)
Lemma decor_size_smaller (w h : Z) :
  decor_size (w, h) = decor_size (Z.min w h, Z.min w h).
Proof. unfold decor_size. cbn [fst snd]. now rewrite Z.min_id. Qed.

Lemma decor_size_value (w h : Z) :
  0 <= w <= 16384 -> 0 <= h <= 16384 ->
  decor_size (w, h) = Ok (128 * Z.max (round_512 (Z.min w h)) 1).
Proof.
  intros Hw Hh. rewrite decor_size_smaller.
  pose proof decor_size_checked as H. rewrite forallb_forall in H.
  specialize (H (Z.min w h)). unfold decor_size_ok in H.
  assert (Hin : In (Z.min w h) sides).
  { apply range_from_spec. lia. }
  destruct (decor_size (Z.min w h, Z.min w h)) as [d|].
  - f_equal. apply Z.eqb_eq, H, Hin.
  - discriminate (H Hin).
Qed.

Lemma round_512_bounds (m : Z) :
  0 <= m ->
  0 <= round_512 m /\ 512 * round_512 m <= m + 256 /\ m <= 512 * round_512 m + 256.
Proof.
  intros Hm. unfold round_512. cbv zeta.
  pose proof (Z.div_mod m 512 ltac:(lia)) as E.
  pose proof (Z.mod_pos_bound m 512 ltac:(lia)) as Hr.
  pose proof (Z.div_pos m 512 Hm ltac:(lia)) as Hq.
  destruct (Z.ltb_spec (m mod 512) 256); [lia|].
  destruct (Z.ltb_spec 256 (m mod 512)); [lia|].
  destruct (Z.even (m / 512)); lia.
Qed.

(** X12. The badge on every resolution up to 16384 pixels a side. Its side is
    128 times the quarter of the smaller side in units of 128 pixels,
    rounded to nearest with ties to even, and 128 at least; from 128
    pixels a side on the badge lies within the picture, centred to the
    pixel, and from 256 on its side is the quarter of the smaller side to
    within 64 pixels. *)
Theorem decor_size_fits (w h : Z) :
  128 <= w <= 16384 -> 128 <= h <= 16384 ->
  let smaller := Z.min w h in
  exists d,
    decor_size (w, h) = Ok d /\
    d = 128 * Z.max (round_512 smaller) 1 /\
    128 <= d <= smaller /\
    (256 <= smaller -> smaller - 256 <= 4 * d <= smaller + 256) /\
    let '(x, y) := decor_offset (w, h) d in
    0 <= x /\ 0 <= y /\ x + d <= w /\ y + d <= h /\
    0 <= (w - (x + d)) - x <= 1 /\ 0 <= (h - (y + d)) - y <= 1.
Proof.
  intros Hw Hh smaller.
  exists (128 * Z.max (round_512 smaller) 1).
  split; [apply decor_size_value; lia|]. split; [reflexivity|].
  destruct (round_512_bounds smaller ltac:(lia)) as (H0 & H1 & H2).
  assert (Hd : 128 <= 128 * Z.max (round_512 smaller) 1 <= smaller).
  { subst smaller. lia. }
  split; [exact Hd|]. split; [lia|].
  unfold decor_offset. cbn [fst snd].
  set (d := 128 * Z.max (round_512 smaller) 1) in *.
  pose proof (Z.div_mod (w - d) 2 ltac:(lia)) as Ex.
  pose proof (Z.mod_pos_bound (w - d) 2 ltac:(lia)) as Rx.
  pose proof (Z.div_mod (h - d) 2 ltac:(lia)) as Ey.
  pose proof (Z.mod_pos_bound (h - d) 2 ltac:(lia)) as Ry.
  subst smaller. lia.
Qed.

End BadgeFacts.

(* ===================================================================== *)
(** ** The badge and the picture *)
(* ===================================================================== *)

Module DecorationFacts.
Import Wallpaper Bytes BytesFacts Ranges RangeFacts PixelFacts BadgeFacts.

Lemma append_nonempty_l (a b : string) :
  a <> EmptyString -> a +:+ b <> EmptyString.
Proof. destruct a; [congruence|discriminate]. Qed.

Lemma append_nonempty_r (a b : string) :
  b <> EmptyString -> a +:+ b <> EmptyString.
Proof. destruct a; [trivial|discriminate]. Qed.

Lemma format_02x_nonempty (lowercase : bool) (n : Z) :
  format_02x lowercase n <> EmptyString.
Proof.
  unfold format_02x. cbv zeta.
  set (digits := if lowercase then _ else _).
  destruct (n <? 0); [discriminate|].
  destruct (String.length digits <? 2)%nat eqn:E; [discriminate|].
  intros H. rewrite H in E. discriminate E.
Qed.

Lemma str_nonempty (n : Z) : str n <> EmptyString.
Proof.
  unfold str. destruct (Z.to_int n) as [d|d]; [|discriminate].
  destruct d; discriminate.
Qed.

(** The dictionary [rows] on a byte colour. *)
Lemma rows_value (self : t) (r g b : Z) :
  Color.rgb (color self) = (r, g, b) ->
  byte r -> byte g -> byte b ->
  exists hsv hsl c m y k,
    rows self
    = Ok (list_to_map
            [("hex"%string,
              ("HEX "%string, join3 "" (format_02x (lowercase self)) (r, g, b)));
             ("#hex"%string,
              ("HEX "%string,
               "#" +:+ join3 "" (format_02x (lowercase self)) (r, g, b)));
             ("rgb"%string, ("RGB "%string, join3 " " str (r, g, b)));
             ("hsv"%string, ("HSV "%string, join3 " " str hsv));
             ("hsl"%string, ("HSL "%string, join3 " " str hsl));
             ("cmyk"%string,
              ("CMYK "%string, join " " [str c; str m; str y; str k]));
             ("empty"%string, (" "%string, " "%string))]).
Proof.
  intros Hrgb Hr Hg Hb. unfold rows. rewrite Hrgb. cbv zeta.
  destruct (hsv_on_bytes r g b Hr Hg Hb) as (_ & E1 & _).
  destruct (hsl_on_bytes r g b Hr Hg Hb) as (_ & _ & E2).
  pose proof (cmyk_value r g b Hr Hg Hb) as E3. cbv zeta in E3.
  rewrite E1, E2, E3. cbn [bind].
  destruct (Z.max (Z.max r g) b =? 0); cbn [bind]; eexists _, _, _, _, _, _;
    reflexivity.
Qed.

Lemma join3_str_nonempty (c : Z * Z * Z) : join3 " " str c <> EmptyString.
Proof.
  destruct c as [[a b] d]. unfold join3. cbn [join].
  apply append_nonempty_l, str_nonempty.
Qed.

Lemma join3_hex_nonempty (lowercase : bool) (c : Z * Z * Z) :
  join3 "" (format_02x lowercase) c <> EmptyString.
Proof.
  destruct c as [[a b] d]. unfold join3. cbn [join].
  apply append_nonempty_l, format_02x_nonempty.
Qed.

(** On a byte colour the dictionary is built, and every choice of
    [--formats] has a row of two non-empty texts. *)
Lemma rows_of_choices (self : t) (r g b : Z) :
  Color.rgb (color self) = (r, g, b) ->
  byte r -> byte g -> byte b ->
  exists m,
    rows self = Ok m /\
    forall key, In key Options.format_choices ->
      exists lbl val, m !! key = Some (lbl, val) /\
                      lbl <> EmptyString /\ val <> EmptyString.
Proof.
  intros Hrgb Hr Hg Hb.
  destruct (rows_value self r g b Hrgb Hr Hg Hb)
    as (hsv & hsl & c & m & y & k & Em).
  eexists. split; [exact Em|].
  intros key Hin. cbn [Options.format_choices In] in Hin.
  rewrite !list_to_map_cons.
  repeat (destruct Hin as [<-|Hin];
          [repeat (rewrite lookup_insert_ne by discriminate);
           rewrite lookup_insert_eq; eexists _, _;
           split; [reflexivity|]; split; [discriminate|];
           try discriminate;
           first [ apply join3_hex_nonempty | apply join3_str_nonempty
                 | cbn [join]; apply append_nonempty_l, str_nonempty ]|]).
  destruct Hin.
Qed.

(** X13. Every choice of [--formats] has a row, no other key has one, and no
    text of a row is empty. *)
Theorem rows_choices (self : t) (r g b : Z) :
  Color.rgb (color self) = (r, g, b) ->
  byte r -> byte g -> byte b ->
  exists m,
    rows self = Ok m /\
    (forall key, In key Options.format_choices <-> is_Some (m !! key)) /\
    (forall key lbl val, m !! key = Some (lbl, val) ->
       lbl <> EmptyString /\ val <> EmptyString).
Proof.
  intros Hrgb Hr Hg Hb.
  destruct (rows_value self r g b Hrgb Hr Hg Hb)
    as (hsv & hsl & c & m & y & k & E).
  eexists. split; [exact E|]. split.
  - intros key. split.
    + intros Hin. cbn [Options.format_choices In] in Hin.
      rewrite !list_to_map_cons.
      repeat (destruct Hin as [<-|Hin];
              [repeat (rewrite lookup_insert_ne by discriminate);
               rewrite lookup_insert_eq; eauto|]).
      destruct Hin.
    + intros [x Hx]. apply elem_of_list_to_map_2 in Hx.
      rewrite !elem_of_cons, elem_of_nil in Hx. cbn [Options.format_choices In].
      repeat (destruct Hx as [[= -> _]|Hx]; [tauto|]). destruct Hx.
  - intros key lbl val Hx. apply elem_of_list_to_map_2 in Hx.
    rewrite !elem_of_cons, elem_of_nil in Hx.
    repeat (destruct Hx as [[= _ -> ->]|Hx];
            [split; [discriminate|]; try discriminate|]);
      try destruct Hx;
      cbn [join];
      first [ apply join3_hex_nonempty | apply join3_str_nonempty
            | apply append_nonempty_l, format_02x_nonempty
            | apply append_nonempty_l, str_nonempty ].
Qed.

Section Font.
Variable font : ascii -> list (list bool).
Variable self : t.
(** Every glyph carries its spacing. *)
Hypothesis font_spaced : forall char, spaced_glyph (font char) = true.

Lemma generate_text_nonempty (text : string) :
  text <> EmptyString ->
  exists img, generate_text font self text = Ok img /\ PIL.height img = 8.
Proof.
  intros Hne.
  destruct (generate_text_spaced font self text Hne)
    as (n & img & _ & _ & E & Hsz & _).
  { intros c _. apply font_spaced. }
  exists img. split; [exact E|]. unfold PIL.height. now rewrite Hsz.
Qed.

Lemma lookup_double_S {A} (a b : A) (l : list A) (i : nat) :
  (a :: b :: l) !! (2 * S i)%nat = l !! (2 * i)%nat /\
  (a :: b :: l) !! (2 * S i + 1)%nat = l !! (2 * i + 1)%nat.
Proof.
  replace (2 * S i)%nat with (S (S (2 * i))) by lia.
  replace (S (S (2 * i)) + 1)%nat with (S (S (2 * i + 1))) by lia.
  split; reflexivity.
Qed.

(** The rows of [for key in self.formats] on a dictionary that has a row
    of two non-empty texts for every key met. *)
Lemma decoration_rows_layout (m : gmap string (string * string))
    (keys : list string) :
  (forall key, In key keys ->
     exists lbl val, m !! key = Some (lbl, val) /\
                     lbl <> EmptyString /\ val <> EmptyString) ->
  forall cv y,
  exists cv' ds,
    decoration_rows font self m keys (cv, y)
    = Ok (cv', y + 12 * Z.of_nat (List.length keys)) /\
    PIL.canvas_size cv' = PIL.canvas_size cv /\
    PIL.drawn cv' = PIL.drawn cv ++ ds /\
    List.length ds = (2 * List.length keys)%nat /\
    forall (i : nat) key, keys !! i = Some key ->
      exists lbl val label value,
        m !! key = Some (lbl, val) /\
        generate_text font self lbl = Ok label /\
        generate_text font self val = Ok value /\
        ds !! (2 * i)%nat
        = Some (PIL.AlphaComposite label (8, y + 12 * (Z.of_nat i + 1))) /\
        ds !! (2 * i + 1)%nat
        = Some (PIL.AlphaComposite value
                  (8 + PIL.width label, y + 12 * (Z.of_nat i + 1))).
Proof.
  induction keys as [|key keys IH]; intros Hm cv y.
  - exists cv, []. cbn [decoration_rows List.length].
    split; [do 2 f_equal; lia|]. split; [reflexivity|].
    split; [now rewrite app_nil_r|]. split; [reflexivity|].
    intros i key Hi. discriminate.
  - destruct (Hm key (or_introl eq_refl)) as (lbl & val & Hrow & Hl & Hv).
    destruct (generate_text_nonempty lbl Hl) as (label & El & _).
    destruct (generate_text_nonempty val Hv) as (value & Ev & _).
    set (L := PIL.AlphaComposite label (8, y + 12)).
    set (V := PIL.AlphaComposite value (8 + PIL.width label, y + 12)).
    assert (Erow : decoration_row font self m (cv, y) key
                   = Ok (PIL.draw (PIL.draw cv L) V, y + 12)).
    { unfold decoration_row. rewrite Hrow. cbn [bind fst snd].
      rewrite El. cbn [bind]. rewrite Ev. cbn [bind].
      replace (3 + 5 + PIL.width label) with (8 + PIL.width label) by lia.
      reflexivity. }
    destruct (IH (fun k Hk => Hm k (or_intror Hk)) (PIL.draw (PIL.draw cv L) V)
                (y + 12)) as (cv' & ds & E & Hsz & Hdr & Hlen & Hds).
    exists cv', (L :: V :: ds). cbn [decoration_rows]. rewrite Erow.
    cbn [bind]. rewrite E. cbn [List.length].
    split; [do 2 f_equal; lia|]. split; [exact Hsz|].
    split.
    { rewrite Hdr. unfold PIL.draw. cbn [PIL.drawn].
      rewrite <- !app_assoc. reflexivity. }
    split; [lia|].
    intros i k Hi. destruct i as [|i].
    + injection Hi as <-. exists lbl, val, label, value.
      repeat (split; [assumption|]). split; reflexivity.
    + destruct (Hds i k Hi) as (lbl' & val' & label' & value' & H1 & H2 & H3 & H4 & H5).
      exists lbl', val', label', value'. repeat (split; [assumption|]).
      destruct (lookup_double_S L V ds i) as [-> ->].
      rewrite H4, H5.
      replace (y + 12 + 12 * (Z.of_nat i + 1))
        with (y + 12 * (Z.of_nat (S i) + 1)) by lia.
      split; reflexivity.
Qed.

(** The name block adds drawings to the badge and keeps its size. *)
Lemma decoration_name_extends (cv cv1 : PIL.canvas) (y1 : Z) :
  decoration_name font self cv = Ok (cv1, y1) ->
  PIL.canvas_size cv1 = PIL.canvas_size cv /\
  exists ds, PIL.drawn cv1 = PIL.drawn cv ++ ds.
Proof.
  unfold decoration_name.
  destruct (text_of (Color.name (color self))) as [text|]; [|discriminate].
  cbn [bind].
  destruct (generate_text font self text) as [name|]; [|discriminate].
  cbn [bind]. destruct (PIL.size name) as [x y].
  destruct (x <=? 112).
  - intros [= <- _]. split; [reflexivity|]. eexists. reflexivity.
  - destruct (unpack2 (rsplit1 text)) as [[text1 text2]|]; [|discriminate].
    cbn [bind].
    destruct (generate_text font self text1) as [line1|]; [|discriminate].
    cbn [bind].
    destruct (generate_text font self text2) as [line2|]; [|discriminate].
    cbn [bind]. intros [= <- _]. split; [reflexivity|].
    unfold PIL.draw. cbn [PIL.drawn]. rewrite <- app_assoc.
    eexists. reflexivity.
Qed.

(** X14. The badge. On a byte colour, with formats among the choices of
    [--formats] and once the name block is laid, [generate_decoration]
    returns: the badge is 128 pixels a side, the frame is drawn first,
    and after the name block every format adds its label at [x = 8] and
    its value right of the label, 12 pixels below the row before. *)
Theorem generate_decoration_layout (r g b : Z) (cv1 : PIL.canvas) (y1 : Z) :
  Color.rgb (color self) = (r, g, b) ->
  byte r -> byte g -> byte b ->
  (forall key, In key (formats self) -> In key Options.format_choices) ->
  let frame := PIL.Rectangle (0, 0, 127, 127) (Color.rgb (color2 self)) 3 in
  decoration_name font self (PIL.Canvas (128, 128) [frame]) = Ok (cv1, y1) ->
  exists m cv ds,
    rows self = Ok m /\
    generate_decoration font self = Ok cv /\
    PIL.canvas_size cv = (128, 128) /\
    head (PIL.drawn cv) = Some frame /\
    PIL.drawn cv = PIL.drawn cv1 ++ ds /\
    List.length ds = (2 * List.length (formats self))%nat /\
    forall (i : nat) key, formats self !! i = Some key ->
      exists lbl val label value,
        m !! key = Some (lbl, val) /\
        generate_text font self lbl = Ok label /\
        generate_text font self val = Ok value /\
        ds !! (2 * i)%nat
        = Some (PIL.AlphaComposite label (8, y1 + 12 * (Z.of_nat i + 1))) /\
        ds !! (2 * i + 1)%nat
        = Some (PIL.AlphaComposite value
                  (8 + PIL.width label, y1 + 12 * (Z.of_nat i + 1))).
Proof.
  intros Hrgb Hr Hg Hb Hkeys frame Hname.
  destruct (rows_of_choices self r g b Hrgb Hr Hg Hb) as (rows_ & Em & Hrows).
  assert (Hm : forall key, In key (formats self) ->
            exists lbl val, rows_ !! key = Some (lbl, val) /\
                            lbl <> EmptyString /\ val <> EmptyString).
  { intros key Hin. apply Hrows, Hkeys, Hin. }
  destruct (decoration_rows_layout rows_ (formats self) Hm cv1 y1)
    as (cv & ds & E & Hsz & Hdr & Hlen & Hds).
  destruct (decoration_name_extends _ _ _ Hname) as (Hsz1 & ds0 & Hdr1).
  exists rows_, cv, ds. split; [exact Em|].
  split.
  { unfold generate_decoration. cbv zeta. unfold PIL.draw at 1.
    cbn [PIL.canvas_size PIL.drawn app]. fold frame.
    rewrite Hname. cbn [bind]. rewrite Em. cbn [bind]. rewrite E.
    reflexivity. }
  split; [now rewrite Hsz, Hsz1|].
  split; [now rewrite Hdr, Hdr1|].
  split; [exact Hdr|]. split; [exact Hlen|]. exact Hds.
Qed.

(** X15. The whole picture. With a resolution of 128 to 16384 pixels a side
    and the name block laid, [generate_image] reaches the point of saving
    with a picture of the resolution asked, in the background colour,
    with the badge enlarged by a whole factor and laid inside the
    picture. *)
Theorem generate_image_picture (w h r g b : Z) (cv1 : PIL.canvas) (y1 : Z) :
  resolution self = (w, h) ->
  128 <= w <= 16384 -> 128 <= h <= 16384 ->
  Color.rgb (color self) = (r, g, b) ->
  byte r -> byte g -> byte b ->
  (forall key, In key (formats self) -> In key Options.format_choices) ->
  let frame := PIL.Rectangle (0, 0, 127, 127) (Color.rgb (color2 self)) 3 in
  decoration_name font self (PIL.Canvas (128, 128) [frame]) = Ok (cv1, y1) ->
  exists pic badge factor,
    generate_image font self = Ok pic /\
    generate_decoration font self = Ok badge /\
    picture_size pic = (w, h) /\
    background pic = (r, g, b) /\
    overlay pic = badge /\
    PIL.canvas_size badge = (128, 128) /\
    1 <= factor /\ overlay_size pic = 128 * factor /\
    let '(x, y) := overlay_at pic in
    0 <= x /\ 0 <= y /\
    x + overlay_size pic <= w /\ y + overlay_size pic <= h.
Proof.
  intros Hres Hw Hh Hrgb Hr Hg Hb Hkeys frame Hname.
  destruct (rows_of_choices self r g b Hrgb Hr Hg Hb) as (rows_ & Em & Hrows).
  assert (Hm : forall key, In key (formats self) ->
            exists lbl val, rows_ !! key = Some (lbl, val) /\
                            lbl <> EmptyString /\ val <> EmptyString).
  { intros key Hin. apply Hrows, Hkeys, Hin. }
  destruct (decoration_rows_layout rows_ (formats self) Hm cv1 y1)
    as (cv & ds & E & Hsz & _).
  destruct (decoration_name_extends _ _ _ Hname) as (Hsz1 & _).
  assert (Ed : generate_decoration font self = Ok cv).
  { unfold generate_decoration. cbv zeta. unfold PIL.draw at 1.
    cbn [PIL.canvas_size PIL.drawn app]. fold frame.
    rewrite Hname. cbn [bind]. rewrite Em. cbn [bind]. rewrite E.
    reflexivity. }
  pose proof (decor_size_value w h ltac:(lia) ltac:(lia)) as Es.
  destruct (round_512_bounds (Z.min w h) ltac:(lia)) as (H0 & H1 & H2).
  set (n := Z.max (round_512 (Z.min w h)) 1) in *.
  eexists _, cv, n. unfold generate_image. rewrite Hres, Es. cbn [bind].
  rewrite Ed. cbn [bind]. split; [reflexivity|]. split; [reflexivity|].
  cbn [picture_size background overlay overlay_size overlay_at].
  split; [reflexivity|]. split; [exact Hrgb|]. split; [reflexivity|].
  split; [now rewrite Hsz, Hsz1|]. split; [lia|]. split; [reflexivity|].
  unfold decor_offset. cbn [fst snd].
  pose proof (Z.div_mod (w - 128 * n) 2 ltac:(lia)) as Ex.
  pose proof (Z.mod_pos_bound (w - 128 * n) 2 ltac:(lia)) as Rx.
  pose proof (Z.div_mod (h - 128 * n) 2 ltac:(lia)) as Ey.
  pose proof (Z.mod_pos_bound (h - 128 * n) 2 ltac:(lia)) as Ry.
  lia.
Qed.

End Font.

End DecorationFacts.

(* ===================================================================== *)
(** ** The theorems on the sample data *)
(* ===================================================================== *)

Module Applications.
Import Bytes.

Lemma sample_font_spaced (char : ascii) :
  Wallpaper.spaced_glyph (Sample.font char) = true.
Proof.
  unfold Sample.font. destruct (Ascii.eqb char " "); [reflexivity|].
  destruct (is_digit char); reflexivity.
Defined.

Lemma sample_formats (key : string) :
  In key (Wallpaper.formats (Sample.wallpaper "Hot Pink")) ->
  In key Options.format_choices.
Proof. intros [<-|[<-|[<-|[]]]]; cbn; tauto. Defined.

Lemma rgb_form_never_accepted_witness :
  fullmatch Options.rgb_re " 1, 2 ,3 " <> None /\
  Options.color Sample.color_to_hex Sample.pretty_names " 1, 2 ,3 "
  = Raise ValueError.
Proof.
  assert (H : fullmatch Options.rgb_re " 1, 2 ,3 " <> None)
    by (vm_compute; discriminate).
  split; [exact H|].
  exact (ParserFacts.rgb_form_never_accepted Sample.color_to_hex
           Sample.pretty_names " 1, 2 ,3 " H).
Defined.

Lemma hex_argument_round_trip_witness :
  Regex.all_space " " = true /\ Regex.all_space "" = true /\
  byte 255 /\ byte 2 /\ byte 141 /\
  Options.color Sample.color_to_hex Sample.pretty_names
    (" " +:+ "#" +:+ format_02x false 255 +:+ format_02x false 2
     +:+ format_02x false 141 +:+ "")
  = Ok (Color.Make (255, 2, 141) (Options.anonymous Sample.pretty_names)).
Proof.
  assert (H255 : byte 255) by (unfold byte; lia).
  assert (H2 : byte 2) by (unfold byte; lia).
  assert (H141 : byte 141) by (unfold byte; lia).
  split; [reflexivity|]. split; [reflexivity|].
  repeat (split; [assumption|]).
  exact (HexFacts.hex_argument_round_trip Sample.color_to_hex
           Sample.pretty_names " " "" true false 255 2 141
           eq_refl eq_refl H255 H2 H141).
Defined.

Lemma short_hex_argument_witness :
  is_hex_digit "f" = true /\ is_hex_digit "0" = true /\
  is_hex_digit "A" = true /\
  exists r g b,
    Options.color Sample.color_to_hex Sample.pretty_names
      ("" +:+ "" +:+ "f0A" +:+ " ")
    = Ok (Color.Make (r, g, b) (Options.anonymous Sample.pretty_names)).
Proof.
  repeat (split; [reflexivity|]).
  destruct (HexFacts.short_hex_argument Sample.color_to_hex
              Sample.pretty_names "" " " false "f" "0" "A"
              eq_refl eq_refl eq_refl eq_refl eq_refl)
    as (r & g & b & _ & _ & _ & _ & _ & _ & E).
  exists r, g, b. exact E.
Defined.

Lemma resolution_of_numbers_witness :
  0 <= 1920 /\ 0 <= 1080 /\
  Options.resolution
    (" " +:+ str 1920 +:+ "" +:+ String "x" (" " +:+ str 1080 +:+ ""))
  = Ok (1920, 1080).
Proof.
  assert (Hw : 0 <= 1920) by lia. assert (Hh : 0 <= 1080) by lia.
  split; [exact Hw|]. split; [exact Hh|].
  exact (ResolutionFacts.resolution_of_numbers 1920 1080 "x" " " "" " " ""
           Hw Hh (or_introl eq_refl) eq_refl eq_refl eq_refl eq_refl).
Defined.

Lemma resolution_at_least_150_witness :
  Options.resolution "1366:768" = Ok (1366, 768) /\
  150 <= 1366 /\ 150 <= 768.
Proof.
  assert (H : Options.resolution "1366:768" = Ok (1366, 768))
    by (vm_compute; reflexivity).
  split; [exact H|].
  destruct (ResolutionFacts.resolution_at_least_150 "1366:768" 1366 768 H)
    as (Hw & Hh & _).
  split; assumption.
Defined.


Lemma inverted_color_round_trip_witness :
  byte 255 /\ byte 2 /\ byte 141 /\
  Color.rgb (Options.inverted_color Sample.hex_to_color (255, 2, 141))
  = (255 - 255, 255 - 2, 255 - 141).
Proof.
  assert (H255 : byte 255) by (unfold byte; lia).
  assert (H2 : byte 2) by (unfold byte; lia).
  assert (H141 : byte 141) by (unfold byte; lia).
  repeat (split; [assumption|]).
  exact (proj1 (NameFacts.inverted_color_round_trip Sample.hex_to_color
                  255 2 141 H255 H2 H141)).
Defined.

Lemma generate_text_pixels_witness :
  "Hi"%string <> EmptyString /\
  Wallpaper.spaced_text Sample.font (list_ascii_of_string "Hi") /\
  exists img,
    Wallpaper.generate_text Sample.font (Sample.wallpaper "Hot Pink") "Hi"
    = Ok img /\
    Pixels.well_formed img.
Proof.
  assert (H1 : "Hi"%string <> EmptyString) by discriminate.
  assert (H2 : Wallpaper.spaced_text Sample.font (list_ascii_of_string "Hi")).
  { intros c _. apply sample_font_spaced. }
  split; [exact H1|]. split; [exact H2|].
  destruct (PixelFacts.generate_text_pixels Sample.font
              (Sample.wallpaper "Hot Pink") "Hi" H1 H2)
    as (img & E & Hwf & _).
  exists img. auto.
Defined.

Lemma generate_text_app_witness :
  "HEX"%string <> EmptyString /\ "12"%string <> EmptyString /\
  exists ia ib iab,
    Wallpaper.generate_text Sample.font (Sample.wallpaper "Hot Pink") "HEX"
    = Ok ia /\
    Wallpaper.generate_text Sample.font (Sample.wallpaper "Hot Pink") "12"
    = Ok ib /\
    Wallpaper.generate_text Sample.font (Sample.wallpaper "Hot Pink")
      ("HEX" +:+ "12") = Ok iab /\
    PIL.width iab = PIL.width ia + 1 + PIL.width ib.
Proof.
  assert (H1 : "HEX"%string <> EmptyString) by discriminate.
  assert (H2 : "12"%string <> EmptyString) by discriminate.
  split; [exact H1|]. split; [exact H2|].
  destruct (PixelFacts.generate_text_app Sample.font
              (Sample.wallpaper "Hot Pink") "HEX" "12" H1 H2
              (fun c _ => sample_font_spaced c)
              (fun c _ => sample_font_spaced c))
    as (ia & ib & iab & Ea & Eb & Eab & Hw & _).
  exists ia, ib, iab. auto.
Defined.

Lemma hsv_components_witness :
  byte 255 /\ byte 2 /\ byte 141 /\
  exists h s v,
    Color.hsv (255, 2, 141) = Ok (degrees h, percent s, percent v) /\
    0 <= percent s <= 100 /\ 0 <= percent v <= 100.
Proof.
  assert (H255 : byte 255) by (unfold byte; lia).
  assert (H2 : byte 2) by (unfold byte; lia).
  assert (H141 : byte 141) by (unfold byte; lia).
  repeat (split; [assumption|]).
  destruct (RangeFacts.hsv_components 255 2 141 H255 H2 H141)
    as (h & s & v & _ & _ & _ & E & Hs & Hv & _).
  exists h, s, v. auto.
Defined.

Lemma cmyk_ranges_witness :
  byte 255 /\ byte 2 /\ byte 141 /\
  exists c m y k,
    Color.cmyk (255, 2, 141) = Ok (c, m, y, k) /\
    0 <= c <= 100 /\ 0 <= m <= 100 /\ 0 <= y <= 100 /\ 0 <= k <= 100 /\
    (c = 0 \/ m = 0 \/ y = 0).
Proof.
  assert (H255 : byte 255) by (unfold byte; lia).
  assert (H2 : byte 2) by (unfold byte; lia).
  assert (H141 : byte 141) by (unfold byte; lia).
  repeat (split; [assumption|]).
  destruct (RangeFacts.cmyk_ranges 255 2 141 H255 H2 H141)
    as (c & m & y & k & E & Hc & Hm & Hy & Hk & _ & _ & _ & _ & _ & H0).
  exists c, m, y, k. auto 10.
Defined.

Lemma decor_size_fits_witness :
  128 <= 1366 <= 16384 /\ 128 <= 768 <= 16384 /\
  exists d, Wallpaper.decor_size (1366, 768) = Ok d /\ 128 <= d <= 768.
Proof.
  assert (Hw : 128 <= 1366 <= 16384) by lia.
  assert (Hh : 128 <= 768 <= 16384) by lia.
  split; [exact Hw|]. split; [exact Hh|].
  destruct (BadgeFacts.decor_size_fits 1366 768 Hw Hh)
    as (d & E & _ & Hd & _).
  exists d. split; [exact E|]. exact Hd.
Defined.

Lemma rows_choices_witness :
  byte 255 /\ byte 2 /\ byte 141 /\
  exists m,
    Wallpaper.rows (Sample.wallpaper "Hot Pink") = Ok m /\
    forall key, In key Options.format_choices <-> is_Some (m !! key).
Proof.
  assert (H255 : byte 255) by (unfold byte; lia).
  assert (H2 : byte 2) by (unfold byte; lia).
  assert (H141 : byte 141) by (unfold byte; lia).
  repeat (split; [assumption|]).
  destruct (DecorationFacts.rows_choices (Sample.wallpaper "Hot Pink")
              255 2 141 eq_refl H255 H2 H141) as (m & E & Hm & _).
  exists m. auto.
Defined.

Lemma generate_decoration_layout_witness :
  let self := Sample.wallpaper "Hot Pink" in
  let frame :=
    PIL.Rectangle (0, 0, 127, 127) (Color.rgb (Wallpaper.color2 self)) 3 in
  exists cv1 y1 cv,
    Wallpaper.decoration_name Sample.font self (PIL.Canvas (128, 128) [frame])
    = Ok (cv1, y1) /\
    Wallpaper.generate_decoration Sample.font self = Ok cv /\
    PIL.canvas_size cv = (128, 128) /\
    head (PIL.drawn cv) = Some frame.
Proof.
  intros self frame.
  assert (H255 : byte 255) by (unfold byte; lia).
  assert (H2 : byte 2) by (unfold byte; lia).
  assert (H141 : byte 141) by (unfold byte; lia).
  destruct (Wallpaper.decoration_name Sample.font self
              (PIL.Canvas (128, 128) [frame])) as [[cv1 y1]|] eqn:E;
    [|vm_compute in E; discriminate].
  destruct (DecorationFacts.generate_decoration_layout Sample.font self
              sample_font_spaced 255 2 141 cv1 y1 eq_refl H255 H2 H141
              sample_formats E)
    as (m & cv & ds & _ & Ed & Hsz & Hhd & _).
  exists cv1, y1, cv. auto.
Defined.

Lemma generate_image_picture_witness :
  let self := Sample.wallpaper "Hot Pink" in
  128 <= 1920 <= 16384 /\ 128 <= 1080 <= 16384 /\
  exists pic,
    Wallpaper.generate_image Sample.font self = Ok pic /\
    Wallpaper.picture_size pic = (1920, 1080).
Proof.
  intros self.
  assert (Hw : 128 <= 1920 <= 16384) by lia.
  assert (Hh : 128 <= 1080 <= 16384) by lia.
  assert (H255 : byte 255) by (unfold byte; lia).
  assert (H2 : byte 2) by (unfold byte; lia).
  assert (H141 : byte 141) by (unfold byte; lia).
  split; [exact Hw|]. split; [exact Hh|].
  destruct (Wallpaper.decoration_name Sample.font self
              (PIL.Canvas (128, 128)
                 [PIL.Rectangle (0, 0, 127, 127)
                    (Color.rgb (Wallpaper.color2 self)) 3]))
    as [[cv1 y1]|] eqn:E; [|vm_compute in E; discriminate].
  destruct (DecorationFacts.generate_image_picture Sample.font self
              sample_font_spaced 1920 1080 255 2 141 cv1 y1 eq_refl Hw Hh
              eq_refl H255 H2 H141 sample_formats E)
    as (pic & badge & factor & Ep & _ & Hsz & _).
  exists pic. auto.
Defined.

Lemma generate_text_overflow_witness :
  Wallpaper.spaced_text Unspaced.font (list_ascii_of_string "Hi") /\
  Wallpaper.generate_text Unspaced.font (Sample.wallpaper "Hot Pink")
    ("Hi" +:+ "!")
  = Raise IndexError.
Proof.
  assert (H : Wallpaper.spaced_text Unspaced.font (list_ascii_of_string "Hi")).
  { intros c [<- | [<- | []]]; reflexivity. }
  split; [exact H|].
  assert (Hy : (List.length (@nil (list bool)) < 8)%nat) by (cbn; lia).
  exact (OverflowFacts.generate_text_overflow Unspaced.font
           (Sample.wallpaper "Hot Pink") "Hi" "!" [] (replicate 7 [true])
           [true] H eq_refl eq_refl Hy eq_refl).
Defined.

End Applications.
